(** * XLA compile contexts (tensorflow/python/compiler/xla/xla.py)

    A shallow embedding of the graph-construction pass of [xla.py]: the
    arity checker, the captured-object cell, the [XLACompileContext]
    methods ([AddValue], [AddOp], [_RemoveExternalControlEdges]), the two
    output normalisers and the compile driver, followed by the properties
    proved about them.

    Python objects that are shared and mutated (the operations of the
    graph, the chain of control-flow contexts, process-wide flags) live in
    an explicit state that every effectful function threads; an exception
    leaves the state as it was when it was raised. *)

From stdpp Require Import strings gmap stringmap pretty list.

Open Scope string_scope.
Open Scope list_scope.
Open Scope nat_scope.

Set Warnings "-register-all".

(** ** Host values *)

(** A graph value ([ops.Tensor]).  [t_op] names the producing operation.
    The source compares tensors with [!=], which for these objects is
    identity; a tensor object is determined by its fields, so identity is
    equality of records. *)
Record Tensor := mkTensor {
  t_name : string;
  t_op : string;
  t_is_ref_dtype : bool;
  t_device : string
}.

#[global] Instance Tensor_eq_dec : EqDecision Tensor.
Proof. solve_decision. Defined.

(** The Python values that reach this module as [inputs], as results of
    the user computation, or as captured objects.  Operations are referred
    to by name: the graph store owns them.  A [PyDict] lists its entries in
    the order [nest] visits them (sorted by key).  [PyObject] stands for
    any other object (a function, an instance of a user class). *)
Inductive PyVal :=
| PyNone
| PyInt (z : Z)
| PyStr (s : string)
| PyList (l : list PyVal)
| PyTuple (l : list PyVal)
| PyDict (d : list (string * PyVal))
| PyTensor (t : Tensor)
| PyOperation (o : string)
| PyObject (id : nat).

(** Exceptions, by class, with their message.  [LookupError] is what the
    model answers when a name refers to no operation of the store or a
    method runs without a receiver; Python references cannot dangle, so no
    run of the source ends that way. *)
Inductive Exn :=
| TypeError (msg : string)
| ValueError (msg : string)
| NotImplementedError (msg : string)
| RuntimeError (msg : string)
| LookupError (msg : string)
| UserError (msg : string).

(** [str(e)] *)
Definition exn_message (e : Exn) : string :=
  match e with
  | TypeError m | ValueError m | NotImplementedError m
  | RuntimeError m | LookupError m | UserError m => m
  end.

(** [bool(v)].  A graph tensor refuses to be used as a Python bool; an
    object without a length is true. *)
Definition truthy (v : PyVal) : Exn + bool :=
  match v with
  | PyNone => inr false
  | PyInt z => inr (negb (z =? 0)%Z)
  | PyStr s => inr (negb (String.eqb s ""))
  | PyList l | PyTuple l => inr (negb (Nat.eqb (length l) 0))
  | PyDict d => inr (negb (Nat.eqb (length d) 0))
  | PyTensor _ =>
      inl (TypeError "Using a `tf.Tensor` as a Python `bool` is not allowed.")
  | PyOperation _ => inr true
  | PyObject _ => inr true
  end.

(** [isinstance(v, collections.Sequence)]: lists, tuples and strings. *)
Definition is_Sequence (v : PyVal) : bool :=
  match v with
  | PyList _ | PyTuple _ | PyStr _ => true
  | _ => false
  end.

Definition is_dict (v : PyVal) : bool :=
  match v with
  | PyDict _ => true
  | _ => false
  end.

(** ** check_function_argument_count *)

Module Arity.

(** What [tf_inspect.getargspec(func)] reports about [func]. *)
Record ArgSpec := mkArgSpec {
  args : list string;
  varargs : option string;
  defaults : option (list PyVal)
}.

Record InfeedQueue := mkInfeedQueue {
  number_of_tuple_elements : Z
}.

Definition format_error (complaint : string) (quantity : Z) : string :=
  complaint +:+ " " +:+ pretty quantity +:+ " argument"
    +:+ (if (quantity =? 1)%Z then "" else "s").

Definition num_args_supplied
    (input_arity : Z) (infeed_queue : option InfeedQueue) : Z :=
  match infeed_queue with
  | Some q => (input_arity + number_of_tuple_elements q)%Z
  | None => input_arity
  end.

Definition num_func_args (arg_spec : ArgSpec) : Z :=
  Z.of_nat (length (args arg_spec)).

Definition num_func_defaults (arg_spec : ArgSpec) : Z :=
  match defaults arg_spec with
  | None => 0%Z
  | Some ds => Z.of_nat (length ds)
  end.

Definition min_func_args (arg_spec : ArgSpec) : Z :=
  (num_func_args arg_spec - num_func_defaults arg_spec)%Z.

Definition check_function_argument_count
    (func : ArgSpec) (input_arity : Z) (infeed_queue : option InfeedQueue)
    : option string :=
  let supplied := num_args_supplied input_arity infeed_queue in
  let arg_spec := func in
  if (supplied <? min_func_args arg_spec)%Z then
    if (num_func_defaults arg_spec =? 0)%Z
       && bool_decide (varargs arg_spec = None)
    then Some (format_error "exactly" (num_func_args arg_spec))
    else Some (format_error "at least" (min_func_args arg_spec))
  else if bool_decide (varargs arg_spec = None)
          && (num_func_args arg_spec <? supplied)%Z then
    if (num_func_defaults arg_spec =? 0)%Z
    then Some (format_error "exactly" (num_func_args arg_spec))
    else Some (format_error "at most" (num_func_args arg_spec))
  else None.

(** The message as the specification words it: always the plural. *)
Definition spec_message (complaint : string) (quantity : Z) : string :=
  complaint +:+ " " +:+ pretty quantity +:+ " arguments".

(** def f(a, b, c=1) *)
Definition f_abc : ArgSpec :=
  mkArgSpec ["a"; "b"; "c"] None (Some [PyInt 1]).

(** def f(a) *)
Definition f_a : ArgSpec := mkArgSpec ["a"] None None.

(** def f(a, *rest) *)
Definition f_a_rest : ArgSpec := mkArgSpec ["a"] (Some "rest") None.

End Arity.

(** ** _CapturedObject *)

Module Captured.

Record _CapturedObject := mkCaptured { _object : PyVal }.

Definition __init__ : _CapturedObject := mkCaptured PyNone.

Definition capture (o : PyVal) (self : _CapturedObject)
    : (Exn + unit) * _CapturedObject :=
  match truthy (_object self) with
  | inl e => (inl e, self)
  | inr true =>
      (inl (RuntimeError
              "InternalError: _CapturedObject can capture only once. Please file bug."),
       self)
  | inr false => (inr tt, mkCaptured o)
  end.

Definition get (self : _CapturedObject) : PyVal := _object self.

(** A run of capture attempts, in order; the outcomes are collected. *)
Fixpoint capture_all (os : list PyVal) (self : _CapturedObject)
    : list (Exn + unit) * _CapturedObject :=
  match os with
  | [] => ([], self)
  | o :: os' =>
      let '(r, self') := capture o self in
      let '(rs, self'') := capture_all os' self' in
      (r :: rs, self'')
  end.

Definition is_RuntimeError {A} (r : Exn + A) : Prop :=
  match r with
  | inl (RuntimeError _) => True
  | _ => False
  end.

End Captured.

(** ** The graph, the contexts and the state *)

(** An operation of the graph ([ops.Operation]), stored under its name.
    Control inputs are operations, held by name.  [op_context] is the
    operation's control-flow context followed by that context's
    [_outer_context] chain, as the identities of the context objects,
    innermost first; an operation created outside every context has the
    empty chain. *)
Record Operation := mkOperation {
  op_type : string;
  op_inputs : list Tensor;
  op_control_inputs : list string;
  op_outputs : list Tensor;
  op_attr : gmap string string;
  op_context : list nat;
  op_device : string
}.

Definition set_op_inputs (f : list Tensor → list Tensor) (x : Operation) : Operation :=
  mkOperation (op_type x) (f (op_inputs x)) (op_control_inputs x) (op_outputs x) (op_attr x) (op_context x) (op_device x).

Definition set_op_control_inputs (f : list string → list string) (x : Operation) : Operation :=
  mkOperation (op_type x) (op_inputs x) (f (op_control_inputs x)) (op_outputs x) (op_attr x) (op_context x) (op_device x).

Definition set_op_attr (f : gmap string string → gmap string string) (x : Operation) : Operation :=
  mkOperation (op_type x) (op_inputs x) (op_control_inputs x) (op_outputs x) (f (op_attr x)) (op_context x) (op_device x).


(** The fields of an [XLACompileContext].  [ctx_id] is the identity of the
    object ([ctxt == self] compares identities).  [_values] and
    [_external_values] are the fields of the base class
    [ControlFlowContext].  The [_outer_context] field is not stored here:
    a context always appears at the head of the list of its enclosing
    contexts (see [st_context]). *)
Record XLACompileContext := mkContext {
  ctx_id : nat;
  _name : string;
  _pivot : string;
  _unsupported_ops : list string;
  _values : gset string;
  _external_values : gmap string Tensor
}.

Definition set_unsupported_ops (f : list string → list string) (x : XLACompileContext) : XLACompileContext :=
  mkContext (ctx_id x) (_name x) (_pivot x) (f (_unsupported_ops x)) (_values x) (_external_values x).

Definition set_values (f : gset string → gset string) (x : XLACompileContext) : XLACompileContext :=
  mkContext (ctx_id x) (_name x) (_pivot x) (_unsupported_ops x) (f (_values x)) (_external_values x).

Definition set_external_values (f : gmap string Tensor → gmap string Tensor) (x : XLACompileContext) : XLACompileContext :=
  mkContext (ctx_id x) (_name x) (_pivot x) (_unsupported_ops x) (_values x) (f (_external_values x)).


Inductive LogLevel := LogError | LogWarning.

(** [summary_op_util.skip_summary]: the library's own function, or the
    constant-true function the driver installs. *)
Inductive SkipSummary := SkipOriginal | SkipAlways.

(** Everything the module reads and mutates.
    - [st_ops]: the operations of the default graph, by name;
      [st_names]: the names the graph has handed out;
    - [st_unfeedable], [st_unfetchable]: the graph's sets of operations
      barred from feeding and fetching;
    - [st_context]: a control-flow context followed by its
      [_outer_context] chain, innermost first.  While a method of a
      context runs this is its receiver [self]; otherwise it is the
      graph's current context, and [[]] means there is none;
    - [st_control_deps]: the pending [ops.control_dependencies];
      [st_device]: the current device scope;
    - [st_use_resource]: the variable scope's flag;
      [st_skip_summary]: the summary toggle; [st_log]: what was logged;
    - [st_next_ctx]: the identity the next context object receives. *)
Record State := mkState {
  st_ops : gmap string Operation;
  st_names : gset string;
  st_unfeedable : gset string;
  st_unfetchable : gset string;
  st_context : list XLACompileContext;
  st_control_deps : list string;
  st_device : string;
  st_use_resource : bool;
  st_skip_summary : SkipSummary;
  st_log : list (LogLevel * string);
  st_next_ctx : nat
}.

Definition set_st_ops (f : gmap string Operation → gmap string Operation) (x : State) : State :=
  mkState (f (st_ops x)) (st_names x) (st_unfeedable x) (st_unfetchable x) (st_context x) (st_control_deps x) (st_device x) (st_use_resource x) (st_skip_summary x) (st_log x) (st_next_ctx x).

Definition set_st_names (f : gset string → gset string) (x : State) : State :=
  mkState (st_ops x) (f (st_names x)) (st_unfeedable x) (st_unfetchable x) (st_context x) (st_control_deps x) (st_device x) (st_use_resource x) (st_skip_summary x) (st_log x) (st_next_ctx x).

Definition set_st_unfeedable (f : gset string → gset string) (x : State) : State :=
  mkState (st_ops x) (st_names x) (f (st_unfeedable x)) (st_unfetchable x) (st_context x) (st_control_deps x) (st_device x) (st_use_resource x) (st_skip_summary x) (st_log x) (st_next_ctx x).

Definition set_st_unfetchable (f : gset string → gset string) (x : State) : State :=
  mkState (st_ops x) (st_names x) (st_unfeedable x) (f (st_unfetchable x)) (st_context x) (st_control_deps x) (st_device x) (st_use_resource x) (st_skip_summary x) (st_log x) (st_next_ctx x).

Definition set_st_context (f : list XLACompileContext → list XLACompileContext) (x : State) : State :=
  mkState (st_ops x) (st_names x) (st_unfeedable x) (st_unfetchable x) (f (st_context x)) (st_control_deps x) (st_device x) (st_use_resource x) (st_skip_summary x) (st_log x) (st_next_ctx x).

Definition set_st_control_deps (f : list string → list string) (x : State) : State :=
  mkState (st_ops x) (st_names x) (st_unfeedable x) (st_unfetchable x) (st_context x) (f (st_control_deps x)) (st_device x) (st_use_resource x) (st_skip_summary x) (st_log x) (st_next_ctx x).

Definition set_st_device (f : string → string) (x : State) : State :=
  mkState (st_ops x) (st_names x) (st_unfeedable x) (st_unfetchable x) (st_context x) (st_control_deps x) (f (st_device x)) (st_use_resource x) (st_skip_summary x) (st_log x) (st_next_ctx x).

Definition set_st_use_resource (f : bool → bool) (x : State) : State :=
  mkState (st_ops x) (st_names x) (st_unfeedable x) (st_unfetchable x) (st_context x) (st_control_deps x) (st_device x) (f (st_use_resource x)) (st_skip_summary x) (st_log x) (st_next_ctx x).

Definition set_st_skip_summary (f : SkipSummary → SkipSummary) (x : State) : State :=
  mkState (st_ops x) (st_names x) (st_unfeedable x) (st_unfetchable x) (st_context x) (st_control_deps x) (st_device x) (st_use_resource x) (f (st_skip_summary x)) (st_log x) (st_next_ctx x).

Definition set_st_log (f : list (LogLevel * string) → list (LogLevel * string)) (x : State) : State :=
  mkState (st_ops x) (st_names x) (st_unfeedable x) (st_unfetchable x) (st_context x) (st_control_deps x) (st_device x) (st_use_resource x) (st_skip_summary x) (f (st_log x)) (st_next_ctx x).

Definition set_st_next_ctx (f : nat → nat) (x : State) : State :=
  mkState (st_ops x) (st_names x) (st_unfeedable x) (st_unfetchable x) (st_context x) (st_control_deps x) (st_device x) (st_use_resource x) (st_skip_summary x) (st_log x) (f (st_next_ctx x)).


(** ** State and exceptions *)

Definition M (A : Type) : Type := State → (Exn + A) * State.

#[global] Instance M_ret : MRet M := λ A a s, (inr a, s).

#[global] Instance M_bind : MBind M := λ A B k m s,
  match m s with
  | (inr a, s') => k a s'
  | (inl e, s') => (inl e, s')
  end.

Definition raise {A} (e : Exn) : M A := λ s, (inl e, s).

Definition get : M State := λ s, (inr s, s).

Definition modify (f : State → State) : M unit := λ s, (inr tt, f s).

(** [try: m finally: cleanup] *)
Definition try_finally {A} (m : M A) (cleanup : M unit) : M A := λ s,
  let '(r, s1) := m s in
  match cleanup s1 with
  | (inr _, s2) => (r, s2)
  | (inl e, s2) => (inl e, s2)
  end.

(** [try: m except Exception as e: handler e] *)
Definition try_except {A} (m : M A) (handler : Exn → M A) : M A := λ s,
  match m s with
  | (inr a, s1) => (inr a, s1)
  | (inl e, s1) => handler e s1
  end.

Definition when (b : bool) (m : M unit) : M unit :=
  if b then m else mret tt.

(** [for i, x in enumerate(l)] *)
Definition enumerate {A} (l : list A) : list (nat * A) :=
  zip (seq 0 (length l)) l.

Definition log (level : LogLevel) (msg : string) : M unit :=
  modify (set_st_log (λ l, l ++ [(level, msg)])).

Definition get_op (op : string) : M Operation :=
  s ← get;
  match st_ops s !! op with
  | Some o => mret o
  | None => raise (LookupError op)
  end.

Definition modify_op (op : string) (f : Operation → Operation) : M unit :=
  modify (set_st_ops (alter f op)).

(** The receiver of the running context method. *)
Definition get_self : M XLACompileContext :=
  s ← get;
  match st_context s with
  | self :: _ => mret self
  | [] => raise (LookupError "self")
  end.

Definition modify_self (f : XLACompileContext → XLACompileContext) : M unit :=
  modify (set_st_context (λ chain,
    match chain with
    | self :: outer => f self :: outer
    | [] => []
    end)).

(** [if self._outer_context: m], where [m] is a method call on
    [self._outer_context]: it runs with the enclosing context as receiver;
    what it does to the chain above [self] stays, also when it raises. *)
Definition to_outer (m : M unit) : M unit := λ s,
  match st_context s with
  | self :: (_ :: _) as outer =>
      let '(r, s') := m (set_st_context (λ _, outer) s) in
      (r, set_st_context (λ outer', self :: outer') s')
  | _ => (inr tt, s)
  end.

(** ** The graph library, as this module uses it *)

(** Modelled from the spec: [Graph.unique_name] is not under src/; it
    hands out a name that is in use neither as a handed-out name nor as the
    name of an operation, and records it. *)
Definition unique_name (name : string) : M string :=
  s ← get;
  let nm := fresh_string_of_set name (st_names s ∪ dom (st_ops s)) in
  modify (set_st_names (λ names, {[nm]} ∪ names));;
  mret nm.

Definition make_outputs (name device : string) (n : nat) : list Tensor :=
  (λ i, mkTensor (name +:+ ":" +:+ pretty i) name false device) <$> seq 0 n.

(** [with ops.device(d): m] *)
Definition with_device {A} (d : string) (m : M A) : M A :=
  s ← get;
  try_finally (modify (set_st_device (λ _, d));; m)
              (modify (set_st_device (λ _, st_device s))).

(** [with ops.control_dependencies(deps): m] *)
Definition with_control_dependencies {A} (deps : list string) (m : M A) : M A :=
  s ← get;
  try_finally (modify (set_st_control_deps (λ ds, ds ++ deps));; m)
              (modify (set_st_control_deps (λ _, st_control_deps s))).

(** [with ops.control_dependencies(None): self.Enter(); m; self.Exit()].
    The [with] clears the pending control dependencies and the graph's
    current context and puts both back at its end; [self.Enter()] makes the
    receiver the current context again for [m], so [m] runs inside [self]
    with no pending control dependency. *)
Definition with_control_dependencies_None_in_self {A} (m : M A) : M A :=
  s ← get;
  try_finally (modify (set_st_control_deps (λ _, []));; m)
              (modify (set_st_control_deps (λ _, st_control_deps s))).

Section GraphLibrary.

(** The [AddOp] method of the current context. *)
Variable AddOp_hook : string → M unit.

(** Modelled from the spec: the constructor of [ops.Operation] is not
    under src/.  The new operation gets a unique name, the pending control
    dependencies as control inputs, the current device and the current
    context; while a context is active the operation is routed through
    its [AddOp] ("while active it intercepts every operation added to the
    graph"). *)
Definition create_op (type : string) (inputs : list Tensor)
    (n_outputs : nat) (name : string) : M (string * list Tensor) :=
  nm ← unique_name name;
  s ← get;
  let outputs := make_outputs nm (st_device s) n_outputs in
  modify (set_st_ops (insert nm
    (mkOperation type inputs (st_control_deps s) outputs ∅
                 (ctx_id <$> st_context s) (st_device s))));;
  match st_context s with
  | [] => mret tt
  | _ :: _ => AddOp_hook nm
  end;;
  mret (nm, outputs).

Definition first_output (r : string * list Tensor) : M Tensor :=
  match r.2 with
  | t :: _ => mret t
  | [] => raise (LookupError r.1)
  end.

(** [array_ops.identity(t, name=name)]: a pass-through of [t]. *)
Definition identity (t : Tensor) (name : string) : M Tensor :=
  create_op "Identity" [t] 1 name ≫= first_output.

(** [control_flow_ops.no_op(name=name)] *)
Definition no_op (name : string) : M string :=
  r ← create_op "NoOp" [] 0 name;
  mret r.1.

(** [xla_ops.xla_cluster_output(t, name=name)] *)
Definition xla_cluster_output (t : Tensor) (name : string) : M Tensor :=
  create_op "XlaClusterOutput" [t] 1 name ≫= first_output.

(** [control_flow_ops.group(deps, name=name)]: a no-op behind [deps]. *)
Definition group (deps : list string) (name : string) : M string :=
  with_control_dependencies deps (no_op name).

(** The graph values inside a host value that converts as a whole. *)
Fixpoint tensor_leaves (v : PyVal) : option (list Tensor) :=
  match v with
  | PyInt _ | PyStr _ => Some []
  | PyTensor t => Some [t]
  | PyList l | PyTuple l =>
      (fix go (l : list PyVal) : option (list Tensor) :=
         match l with
         | [] => Some []
         | x :: l' =>
             match tensor_leaves x, go l' with
             | Some a, Some b => Some (a ++ b)
             | _, _ => None
             end
         end) l
  | _ => None
  end.

(** Modelled from the spec: [ops.convert_to_tensor] is not under src/; it
    "converts arbitrary host values into the graph's value
    representation; raises on inconvertible input".  A tensor converts to
    itself, a number or string to a constant, a list or tuple of
    convertible values to one packed value; nothing else converts. *)
Definition convert_to_tensor (v : PyVal) : M Tensor :=
  match v with
  | PyTensor t => mret t
  | PyInt _ | PyStr _ => create_op "Const" [] 1 "Const" ≫= first_output
  | PyList _ | PyTuple _ =>
      match tensor_leaves v with
      | Some [] => create_op "Const" [] 1 "Const" ≫= first_output
      | Some ts => create_op "Pack" ts 1 "packed" ≫= first_output
      | None => raise (TypeError "Failed to convert object to Tensor.")
      end
  | PyNone => raise (ValueError "None values not supported.")
  | PyOperation _ => raise (TypeError "Can't convert Operation to Tensor.")
  | PyDict _ | PyObject _ =>
      raise (TypeError "Failed to convert object to Tensor.")
  end.

End GraphLibrary.

(** Modelled from the spec: [nest.flatten] is not under src/; it
    "flattens an arbitrary nested sequence/mapping structure to a linear
    sequence".  Lists, tuples and dicts are structure; a string is a
    leaf. *)
Fixpoint nest_flatten (v : PyVal) : list PyVal :=
  match v with
  | PyList l | PyTuple l =>
      (fix go (l : list PyVal) : list PyVal :=
         match l with
         | [] => []
         | x :: l' => nest_flatten x ++ go l'
         end) l
  | PyDict d =>
      (fix go (d : list (string * PyVal)) : list PyVal :=
         match d with
         | [] => []
         | (_, x) :: d' => nest_flatten x ++ go d'
         end) d
  | _ => [v]
  end.

(** Refill the leaves of [structure] from [flat], left to right; what is
    left of [flat] is returned with the filled structure. *)
Fixpoint pack_go (structure : PyVal) (flat : list PyVal) : PyVal * list PyVal :=
  match structure with
  | PyList l =>
      let '(l', rest) :=
        (fix go (l : list PyVal) (flat : list PyVal) : list PyVal * list PyVal :=
           match l with
           | [] => ([], flat)
           | x :: l' =>
               let '(x', flat1) := pack_go x flat in
               let '(l'', flat2) := go l' flat1 in
               (x' :: l'', flat2)
           end) l flat in
      (PyList l', rest)
  | PyTuple l =>
      let '(l', rest) :=
        (fix go (l : list PyVal) (flat : list PyVal) : list PyVal * list PyVal :=
           match l with
           | [] => ([], flat)
           | x :: l' =>
               let '(x', flat1) := pack_go x flat in
               let '(l'', flat2) := go l' flat1 in
               (x' :: l'', flat2)
           end) l flat in
      (PyTuple l', rest)
  | PyDict d =>
      let '(d', rest) :=
        (fix go (d : list (string * PyVal)) (flat : list PyVal)
             : list (string * PyVal) * list PyVal :=
           match d with
           | [] => ([], flat)
           | (k, x) :: d' =>
               let '(x', flat1) := pack_go x flat in
               let '(d'', flat2) := go d' flat1 in
               ((k, x') :: d'', flat2)
           end) d flat in
      (PyDict d', rest)
  | _ =>
      match flat with
      | x :: rest => (x, rest)
      | [] => (PyNone, [])
      end
  end.

(** Modelled from the spec: [nest.pack_sequence_as] is not under src/; it
    "repacks a linear sequence back into a template structure", and
    refuses a sequence of the wrong length. *)
Definition pack_sequence_as (structure : PyVal) (flat_sequence : list PyVal)
    : M PyVal :=
  if bool_decide (length (nest_flatten structure) = length flat_sequence)
  then mret (pack_go structure flat_sequence).1
  else raise (ValueError "Could not pack sequence.").

(** ** XLACompileContext *)

Definition _XLA_COMPILE_ATTR : string := "_xla_compile_id".

Definition _MAX_WARNING_LINES : nat := 5.

Definition _BLACKLISTED_OPS : gset string := list_to_set ["Placeholder"].

Definition _UNSUPPORTED_OPS : gset string :=
  list_to_set
    ["AudioSummary"; "AudioSummaryV2"; "HistogramSummary"; "ImageSummary";
     "MergeSummary"; "Print"; "ScalarSummary"; "TensorSummary";
     "TensorSummaryV2"].

Definition newline : string := String (Ascii.ascii_of_nat 10) "".

(** [sep.join(l)] *)
Fixpoint join (sep : string) (l : list string) : string :=
  match l with
  | [] => ""
  | [x] => x
  | x :: l' => x +:+ sep +:+ join sep l'
  end.

(** [XLACompileContext.__init__], with the part of the base class's
    constructor this module relies on: no value seen, none resolved. *)
Definition XLACompileContext__init__ (name pivot : string)
    : M XLACompileContext :=
  s ← get;
  modify (set_st_next_ctx S);;
  mret (mkContext (st_next_ctx s) name pivot [] ∅ ∅).

Definition report_unsupported_operations : M unit :=
  self ← get_self;
  match _unsupported_ops self with
  | [] => mret tt
  | _ :: _ =>
      lines ← mapM (λ op, o ← get_op op;
                          mret ("  " +:+ op_type o +:+ " (" +:+ op +:+ ")"))
                   (take _MAX_WARNING_LINES (_unsupported_ops self));
      log LogWarning
          (pretty (length (_unsupported_ops self))
             +:+ " unsupported operations found: " +:+ newline
             +:+ join newline lines);;
      when (bool_decide (_MAX_WARNING_LINES < length (_unsupported_ops self)))
           (log LogWarning
                ("... and "
                   +:+ pretty (length (_unsupported_ops self) - _MAX_WARNING_LINES)
                   +:+ " more"))
  end.

(** The [while ctxt is not None] loop of [_RemoveExternalControlEdges]
    over the context chain of one control input. *)
Fixpoint is_internal_op (self : XLACompileContext) (ctxt : list nat) : bool :=
  match ctxt with
  | [] => false
  | c :: outer =>
      if decide (c = ctx_id self) then true else is_internal_op self outer
  end.

(** The [for x in op.control_inputs] loop of
    [_RemoveExternalControlEdges]: the internal and the external ones. *)
Fixpoint partition_control_inputs (self : XLACompileContext)
    (control_inputs : list string) : M (list string * list string) :=
  match control_inputs with
  | [] => mret ([], [])
  | x :: rest =>
      ox ← get_op x;
      '(internal, external) ← partition_control_inputs self rest;
      if is_internal_op self (op_context ox)
      then mret (x :: internal, external)
      else mret (internal, x :: external)
  end.

Definition _remove_all_control_inputs (op : string) : M unit :=
  modify_op op (set_op_control_inputs (λ _, [])).

Definition _add_control_inputs (op : string) (ops : list string) : M unit :=
  modify_op op (set_op_control_inputs (λ cs, cs ++ ops)).

Definition _add_control_input (op : string) (x : string) : M unit :=
  modify_op op (set_op_control_inputs (λ cs, cs ++ [x])).

Definition _update_input (op : string) (index : nat) (t : Tensor) : M unit :=
  modify_op op (set_op_inputs (λ inputs, <[index := t]> inputs)).

Definition _set_attr (op : string) (key value : string) : M unit :=
  modify_op op (set_op_attr (insert key value)).

Definition prevent_feeding (op : string) : M unit :=
  modify (set_st_unfeedable (λ u, {[op]} ∪ u)).

Definition prevent_fetching (op : string) : M unit :=
  modify (set_st_unfetchable (λ u, {[op]} ∪ u)).

Definition _RemoveExternalControlEdges (op : string)
    : M (list string * list string) :=
  self ← get_self;
  o ← get_op op;
  '(internal_control_inputs, external_control_inputs) ←
    partition_control_inputs self (op_control_inputs o);
  _remove_all_control_inputs op;;
  _add_control_inputs op internal_control_inputs;;
  mret (internal_control_inputs, external_control_inputs).

(** [AddValue] on the chain [self :: outer]: the resolved value and the
    chain as the call leaves it.  It reads and writes contexts only. *)
Fixpoint AddValue (chain : list XLACompileContext) (val : Tensor)
    : Tensor * list XLACompileContext :=
  match chain with
  | [] => (val, [])
  | self :: outer =>
      if decide (t_name val ∈ _values self) then
        (match _external_values self !! t_name val with
         | None => val
         | Some result => result
         end, self :: outer)
      else
        let self1 := set_values (λ vs, {[t_name val]} ∪ vs) self in
        let '(result, self2, outer') :=
          match outer with
          | [] => (val, self1, [])
          | _ :: _ =>
              let '(result, outer') := AddValue outer val in
              (result, set_values (λ vs, {[t_name result]} ∪ vs) self1, outer')
          end in
        (result,
         set_external_values (insert (t_name val) result) self2 :: outer')
  end.

(** The contexts below the first one that had seen the name: these are
    the contexts the value has to be threaded through. *)
Fixpoint crossed (chain : list XLACompileContext) (val : Tensor) : nat :=
  match chain with
  | [] => 0
  | self :: outer =>
      if decide (t_name val ∈ _values self) then 0 else S (crossed outer val)
  end.

(** [self.AddValue(val)] *)
Definition AddValue_self (val : Tensor) : M Tensor :=
  s ← get;
  let '(result, chain) := AddValue (st_context s) val in
  modify (set_st_context (λ _, chain));;
  mret result.

Section ContextMethods.

(** [array_ops.identity], which creates its operation inside [self]. *)
Variable identity : Tensor → string → M Tensor.

(** [self._outer_context.AddInnerOp] *)
Variable outer_AddInnerOp : string → M unit.

(** One turn of [for index in xrange(len(op.inputs))]. *)
Definition resolve_input (op : string) (index : nat) : M unit :=
  o ← get_op op;
  match op_inputs o !! index with
  | None => raise (LookupError op)
  | Some x =>
      real_x ← AddValue_self x;
      when (bool_decide (real_x ≠ x)) (_update_input op index real_x)
  end.

(** [[array_ops.identity(x.outputs[0]).op
      for x in external_control_inputs if x.outputs]] *)
Fixpoint pass_throughs (external_control_inputs : list string)
    : M (list string) :=
  match external_control_inputs with
  | [] => mret []
  | x :: rest =>
      ox ← get_op x;
      match op_outputs ox with
      | [] => pass_throughs rest
      | t :: _ =>
          t' ← identity t "Identity";
          ops ← pass_throughs rest;
          mret (t_op t' :: ops)
      end
  end.

Definition AddOp_body (op : string) : M unit :=
  self ← get_self;
  o ← get_op op;
  when (bool_decide (op_type o ∈ _BLACKLISTED_OPS))
       (log LogError
            ("Operation of type " +:+ op_type o +:+ " (" +:+ op
               +:+ ") is not supported in XLA. Execution will "
               +:+ "fail if this op is used in the graph. "));;
  when (bool_decide (op_type o ∈ _UNSUPPORTED_OPS))
       (modify_self (set_unsupported_ops (λ l, l ++ [op])));;
  when (existsb t_is_ref_dtype (op_inputs o))
       (raise (NotImplementedError
                 ("Non-resource Variables are not supported inside XLA computations "
                    +:+ "(operator name: " +:+ op +:+ ")")));;
  when (bool_decide (_XLA_COMPILE_ATTR ∈ dom (op_attr o)))
       (raise (ValueError
                 ("XLA compiled computations cannot be nested, (operator "
                    +:+ "name: " +:+ op +:+ ")")));;
  _set_attr op _XLA_COMPILE_ATTR (_name self);;
  prevent_feeding op;;
  prevent_fetching op;;
  '(internal_control_inputs, external_control_inputs) ←
    _RemoveExternalControlEdges op;
  o ← get_op op;
  match op_inputs o with
  | [] =>
      match internal_control_inputs with
      | [] => _add_control_input op (_pivot self)
      | _ :: _ => mret tt
      end
  | _ :: _ =>
      mapM (resolve_input op) (seq 0 (length (op_inputs o)));; mret tt
  end;;
  match external_control_inputs with
  | [] => mret tt
  | _ :: _ =>
      external_control_inputs ←
        with_control_dependencies_None_in_self
          (pass_throughs external_control_inputs);
      _add_control_inputs op external_control_inputs
  end;;
  o ← get_op op;
  let output_names := t_name <$> op_outputs o in
  modify (set_st_context
            (fmap (set_values (λ vs, list_to_set output_names ∪ vs))));;
  to_outer (outer_AddInnerOp op).

End ContextMethods.

Section Receivers.

Variable identity : Tensor → string → M Tensor.

(** [AddInnerOp] for a receiver that has [n] contexts in its chain,
    itself included: [self.AddOp(op)], then the enclosing context's
    [AddInnerOp]. *)
Fixpoint AddInnerOp_rec (n : nat) (op : string) : M unit :=
  match n with
  | 0 => raise (LookupError "self")
  | S n' =>
      AddOp_body identity (AddInnerOp_rec n') op;;
      to_outer (AddInnerOp_rec n' op)
  end.

Definition AddOp_rec (n : nat) (op : string) : M unit :=
  match n with
  | 0 => raise (LookupError "self")
  | S n' => AddOp_body identity (AddInnerOp_rec n') op
  end.

Definition AddOp_with (op : string) : M unit :=
  s ← get;
  AddOp_rec (length (st_context s)) op.

Definition AddInnerOp_with (op : string) : M unit :=
  s ← get;
  AddInnerOp_rec (length (st_context s)) op.

End Receivers.

(** [AddOp] for an operation created by [AddOp] itself.  Such a
    pass-through is created with no pending control dependency, so it has
    no control input, its own [AddOp] builds no further pass-through, and
    the constructor it is given is never called ([AddOp_unfold] below). *)
Definition AddOp_pass_through : string → M unit :=
  AddOp_with (identity (λ _, mret tt)).

(** [XLACompileContext.AddOp] *)
Definition AddOp : string → M unit :=
  AddOp_with (identity AddOp_pass_through).

(** [XLACompileContext.AddInnerOp] *)
Definition AddInnerOp : string → M unit :=
  AddInnerOp_with (identity AddOp_pass_through).

(** [ControlFlowContext.Enter], for a context not yet entered: it
    becomes the graph's current context; the context that was current is
    its [_outer_context]. *)
Definition Enter (context : XLACompileContext) : M unit :=
  modify (set_st_context (λ chain, context :: chain)).

(** [ControlFlowContext.Exit]: the enclosing context is current again. *)
Definition Exit : M unit :=
  modify (set_st_context (λ chain, tail chain)).

(** Modelled from the spec: [ControlFlowContext.ExitResult] is not under
    src/; it makes the results known to the enclosing context, which
    records their names as seen. *)
Definition ExitResult (result : list Tensor) : M unit :=
  modify (set_st_context (λ chain,
    match chain with
    | self :: outer :: rest =>
        self :: set_values (λ vs, list_to_set (t_name <$> result) ∪ vs) outer
             :: rest
    | _ => chain
    end)).

(** The graph library's constructors as the rest of the module calls
    them: every new operation is routed through the current context. *)
Definition array_ops_identity : Tensor → string → M Tensor := identity AddOp.

Definition control_flow_ops_no_op : string → M string := no_op AddOp.

Definition control_flow_ops_group : list string → string → M string :=
  group AddOp.

Definition ops_convert_to_tensor : PyVal → M Tensor := convert_to_tensor AddOp.

Definition xla_ops_xla_cluster_output : Tensor → string → M Tensor :=
  xla_cluster_output AddOp.

(** ** Output normalisation *)

Definition dquote : string := String (Ascii.ascii_of_nat 34) "".

(** An element of the converted outputs: a tensor or an operation. *)
Inductive Output :=
| OutTensor (t : Tensor)
| OutOperation (o : string).

#[global] Instance Output_eq_dec : EqDecision Output.
Proof. solve_decision. Defined.

Definition output_operations_of (outputs : list Output) : list string :=
  omap (λ o, match o with OutOperation x => Some x | OutTensor _ => None end)
       outputs.

Definition output_tensors_of (outputs : list Output) : list Tensor :=
  omap (λ o, match o with OutTensor t => Some t | OutOperation _ => None end)
       outputs.

Definition is_flat (outputs : PyVal) : bool :=
  match outputs with
  | PyList l | PyTuple l => negb (existsb (λ o, is_Sequence o || is_dict o) l)
  | PyStr s => bool_decide (s = "")
  | PyDict _ => false
  | _ => true
  end.

Definition not_convertible_message (e : Exn) : string :=
  "XLA computation function return values must all either be Operations"
    +:+ " or convertible to Tensors. Got error: "
    +:+ dquote +:+ exn_message e +:+ dquote.

Definition _postprocess_flat_outputs (outputs : PyVal)
    : M (list Tensor * list string) :=
  let outputs := match outputs with PyNone => PyTuple [] | _ => outputs end in
  let outputs := if is_Sequence outputs then outputs else PyTuple [outputs] in
  noop ← control_flow_ops_no_op "NoOp";
  outputs ←
    match outputs with
    | PyList l | PyTuple l => mret (l ++ [PyOperation noop])
    | _ => raise (TypeError "can only concatenate str (not tuple) to str")
    end;
  outputs ←
    try_except
      (mapM (λ o, match o with
                  | PyOperation x => mret (OutOperation x)
                  | _ => t ← ops_convert_to_tensor o; mret (OutTensor t)
                  end) outputs)
      (λ e, raise (ValueError (not_convertible_message e)));
  let output_operations := output_operations_of outputs in
  let output_tensors := output_tensors_of outputs in
  if bool_decide (outputs ≠ (OutTensor <$> output_tensors)
                             ++ (OutOperation <$> output_operations))
  then raise (ValueError
                ("XLA computation function must return zero or more Tensor values "
                   +:+ "followed by zero or more Operations."))
  else
    new_output_tensors ←
      mapM (λ t, with_device (t_device t) (array_ops_identity t "Identity"))
           output_tensors;
    mret (new_output_tensors, output_operations).

(** The [for o in nest.flatten(outputs)] loop of
    [_postprocess_non_flat_outputs]. *)
Fixpoint non_flat_loop (os : list PyVal) (new_output_tensors : list Tensor)
    : M (list Tensor) :=
  match os with
  | [] => mret new_output_tensors
  | o :: rest =>
      match o with
      | PyOperation x =>
          raise (ValueError
                   ("xla.compile does not support Operation as return value in non-flat "
                      +:+ "output structure. You can set returned Operations as control "
                      +:+ "dependencies of returned Tensors so Operations are triggered when "
                      +:+ "Tensors are evaluated. Operation found: "
                      +:+ dquote +:+ x +:+ dquote))
      | _ =>
          t ← try_except (ops_convert_to_tensor o)
                         (λ e, raise (ValueError (not_convertible_message e)));
          t' ← with_device (t_device t) (array_ops_identity t "Identity");
          non_flat_loop rest (new_output_tensors ++ [t'])
      end
  end.

Definition _postprocess_non_flat_outputs (outputs : PyVal)
    : M (list Tensor * list string) :=
  new_output_tensors ← non_flat_loop (nest_flatten outputs) [];
  mret (new_output_tensors, []).

(** ** The compile driver *)

Definition _disable_summary_context {A} (m : M A) : M A :=
  s ← get;
  let original_skip_summary_func := st_skip_summary s in
  modify (set_st_skip_summary (λ _, SkipAlways));;
  try_finally m
    (modify (set_st_skip_summary (λ _, original_skip_summary_func))).

(** The call of [computation] on the unpacked [computation_inputs]. *)
Definition call_with_star (computation : list PyVal → M PyVal)
    (computation_inputs : PyVal) : M PyVal :=
  match computation_inputs with
  | PyList l | PyTuple l => computation l
  | _ => raise (TypeError "argument after * must be an iterable")
  end.

Definition _compile_internal (computation : list PyVal → M PyVal)
    (inputs : PyVal) : M PyVal :=
  let inputs := match inputs with PyNone => PyList [] | _ => inputs end in
  if negb (is_Sequence inputs) then raise (TypeError "inputs must be a list")
  else
    flat_inputs ← mapM ops_convert_to_tensor (nest_flatten inputs);
    cluster_name ← unique_name "cluster";
    pivot ← control_flow_ops_no_op (cluster_name +:+ "/pivot");
    context ← XLACompileContext__init__ cluster_name pivot;
    '(outputs, outputs_is_flat, output_tensors, control_deps) ←
      try_finally
        (Enter context;;
         flat_inputs ←
           mapM (λ '(i, x), array_ops_identity x ("input_" +:+ pretty i))
                (enumerate flat_inputs);
         computation_inputs ←
           pack_sequence_as inputs (PyTensor <$> flat_inputs);
         s ← get;
         let saved_use_resource := st_use_resource s in
         modify (set_st_use_resource (λ _, true));;
         outputs ←
           _disable_summary_context
             (call_with_star computation computation_inputs);
         modify (set_st_use_resource (λ _, saved_use_resource));;
         let outputs_is_flat := is_flat outputs in
         '(output_tensors, control_deps) ←
           (if outputs_is_flat
            then _postprocess_flat_outputs outputs
            else _postprocess_non_flat_outputs outputs);
         ExitResult output_tensors;;
         mret (outputs, outputs_is_flat, output_tensors, control_deps))
        (report_unsupported_operations;; Exit);
    match output_tensors with
    | [] => op ← control_flow_ops_group control_deps "output_0";
            mret (PyOperation op)
    | _ :: _ =>
        output_tensors ←
          mapM (λ '(i, o), xla_ops_xla_cluster_output o ("output" +:+ pretty i))
               (enumerate output_tensors);
        output_tensors ←
          with_control_dependencies control_deps
            (mapM (λ '(i, o), array_ops_identity o ("output_" +:+ pretty i))
                  (enumerate output_tensors));
        if negb outputs_is_flat
        then pack_sequence_as outputs (PyTensor <$> output_tensors)
        else mret (PyList (PyTensor <$> output_tensors))
    end.

(** [xla.experimental.compile] *)
Definition compile (computation : list PyVal → M PyVal) (inputs : PyVal)
    : M PyVal :=
  _compile_internal computation inputs.

(** ** Vocabulary of the properties *)

(** Whether control input [x] is internal to [self]: some context of
    [x]'s chain is [self]. *)
Definition is_internal_input (s : State) (self : XLACompileContext)
    (x : string) : bool :=
  match st_ops s !! x with
  | Some ox => is_internal_op self (op_context ox)
  | None => false
  end.

Definition internal_control_inputs_of (s : State) (self : XLACompileContext)
    (o : Operation) : list string :=
  List.filter (is_internal_input s self) (op_control_inputs o).

Definition external_control_inputs_of (s : State) (self : XLACompileContext)
    (o : Operation) : list string :=
  List.filter (λ x, negb (is_internal_input s self x)) (op_control_inputs o).

(** [x.outputs[0]], when [x] has an output. *)
Definition first_output_of (s : State) (x : string) : option Tensor :=
  match st_ops s !! x with
  | Some ox => head (op_outputs ox)
  | None => None
  end.

(** The control edge to the pivot that [AddOp] gives an operation without
    data input and without internal control input. *)
Definition pivot_edge (self : XLACompileContext) (inputs : list Tensor)
    (internal : list string) : list string :=
  match inputs, internal with
  | [], [] => [_pivot self]
  | _, _ => []
  end.

(** [r] is what the context [self] makes of [t] when an operation reads
    it: [t] itself (a value of that name), or the value the context had
    already recorded under the name of [t]. *)
Definition resolves_to (self : XLACompileContext) (t r : Tensor) : Prop :=
  t_name r = t_name t ∨ _external_values self !! t_name t = Some r.

(** [id] is a pass-through of [t] made between [s] and [s']: an
    operation that [s] did not have, of type Identity, whose one data
    input is [t] (a value of that name) or, in a lone context, the value
    that context had recorded under the name of [t]; it has no control
    input and lies in the contexts of [s]. *)
Definition made_pass_through (s s' : State) (t : Tensor) (id : string)
    : Prop :=
  st_ops s !! id = None
  ∧ ∃ oi r,
      st_ops s' !! id = Some oi
      ∧ op_type oi = "Identity"
      ∧ op_inputs oi = [r]
      ∧ (t_name r = t_name t
         ∨ ∃ c, st_context s = [c] ∧ _external_values c !! t_name t = Some r)
      ∧ op_control_inputs oi = []
      ∧ op_context oi = ctx_id <$> st_context s.

(** What no step of this module changes about an operation. *)
Definition same_shape (o o' : Operation) : Prop :=
  op_type o' = op_type o
  ∧ op_outputs o' = op_outputs o
  ∧ op_context o' = op_context o.

(** A later state [c'] of context [c]: the same object, and every value
    it resolves was resolved before or is resolved to a value of the same
    name. *)
Definition ctx_rel (c c' : XLACompileContext) : Prop :=
  ctx_id c' = ctx_id c
  ∧ _name c' = _name c
  ∧ _pivot c' = _pivot c
  ∧ ∀ n r, _external_values c' !! n = Some r →
           _external_values c !! n = Some r ∨ t_name r = n.

(** [s'] comes after [s] by steps that rewrite no operation but [op]:
    the operations of [s] are still there with their shape, and all but
    [op] are untouched; the chain consists of the same context objects,
    and a lone context has only grown; the pending control dependencies
    and the device are as before. *)
Definition evolves_but (op : string) (s s' : State) : Prop :=
  (∀ x o, st_ops s !! x = Some o →
          ∃ o', st_ops s' !! x = Some o' ∧ same_shape o o' ∧ (x ≠ op → o' = o))
  ∧ ctx_id <$> st_context s' = ctx_id <$> st_context s
  ∧ (∀ c, st_context s = [c] → ∃ c', st_context s' = [c'] ∧ ctx_rel c c')
  ∧ st_control_deps s' = st_control_deps s
  ∧ st_device s' = st_device s.

(** What [AddOp] needs of the pass-through constructor it is given, which
    it calls with no control dependency pending. *)
Definition identity_spec (identity : Tensor → string → M Tensor) : Prop :=
  ∀ t name s t' s',
    st_control_deps s = [] →
    identity t name s = (inr t', s') →
    evolves_but (t_op t') s s' ∧ made_pass_through s s' t (t_op t').

(** An operation that already carries the cluster tag. *)
Definition is_tagged (s : State) (op : string) : Prop :=
  ∃ o, st_ops s !! op = Some o ∧ _XLA_COMPILE_ATTR ∈ dom (op_attr o).

(** A state in which the graph library can create an operation without
    further conditions: no context is current, or a lone compile context
    is and no control dependency is pending. *)
Definition calm (s : State) : Prop :=
  st_context s = []
  ∨ (∃ c, st_context s = [c]) ∧ st_control_deps s = [].

(** Whether reference-typed values may be read in [s] ([True]), or only
    values of other types: inside a compile context [AddOp] refuses an
    operation with a reference-typed data input. *)
Definition admits (s : State) (inputs : list Tensor) : Prop :=
  st_context s = [] ∨ existsb t_is_ref_dtype inputs = false.

(** What [create_op] leaves of data input [t] in position [i]: [t], or
    what the lone context had recorded under its name. *)
Definition reads (s : State) (o : Operation) (i : nat) (t : Tensor) : Prop :=
  ∃ r, op_inputs o !! i = Some r
       ∧ (t_name r = t_name t
          ∨ ∃ c, st_context s = [c]
                 ∧ _external_values c !! t_name t = Some r).

(** [s'] comes after [s] by steps that only added operations. *)
Definition grows (s s' : State) : Prop :=
  (∀ x o, st_ops s !! x = Some o → st_ops s' !! x = Some o)
  ∧ evolves_but "" s s'.

(** A value that [ops.convert_to_tensor] converts. *)
Definition convertible (v : PyVal) : Prop := is_Some (tensor_leaves v).

(** The graph values inside [v] may be read in [s]. *)
Definition leaves_admitted (s : State) (v : PyVal) : Prop :=
  ∀ ts, tensor_leaves v = Some ts → admits s ts.

(** [op] is an operation of type [type] made between [s] and [s']. *)
Definition is_new_op (s s' : State) (op type : string) : Prop :=
  st_ops s !! op = None
  ∧ ∃ o, st_ops s' !! op = Some o ∧ op_type o = type.

(** [t'] is the output of a pass-through made between [s] and [s'] for
    the converted value [v]: a new Identity operation with the one output
    [t']; when [v] is a graph value, the pass-through reads it and is
    placed on its device. *)
Definition wraps (s s' : State) (v : PyVal) (t' : Tensor) : Prop :=
  st_ops s !! t_op t' = None
  ∧ ∃ o',
      st_ops s' !! t_op t' = Some o'
      ∧ op_type o' = "Identity"
      ∧ op_outputs o' = [t']
      ∧ length (op_inputs o') = 1
      ∧ ∀ t, v = PyTensor t → reads s o' 0 t ∧ t_device t' = t_device t.

(** ** Example graphs *)

Definition empty_state : State :=
  mkState ∅ ∅ ∅ ∅ [] [] "" false SkipOriginal [] 0.

(** The first output of operation [op]. *)
Definition tensor_of (op : string) : Tensor :=
  mkTensor (op +:+ ":0") op false "".

(** The first output of [op], with a reference dtype. *)
Definition ref_tensor_of (op : string) : Tensor :=
  mkTensor (op +:+ ":0") op true "".

Definition cluster : XLACompileContext :=
  mkContext 0 "cluster" "cluster/pivot" [] ∅ ∅.

(** A graph under construction inside [cluster].  The pivot, [x] (one
    output) and [y] (no output) were created outside the cluster, [i]
    inside.  [a] has no data input and control inputs on the pivot, [x]
    and [y]; [b] reads [x] and has control inputs on [i] and [x];
    [tagged] already carries a cluster tag, and so does [tagged_ref],
    which also reads a reference-typed value. *)
Definition example_ops : gmap string Operation :=
  list_to_map
    [("cluster/pivot", mkOperation "NoOp" [] [] [] ∅ [] "");
     ("x", mkOperation "Const" [] [] [tensor_of "x"] ∅ [] "");
     ("y", mkOperation "NoOp" [] [] [] ∅ [] "");
     ("v", mkOperation "VariableV2" [] [] [ref_tensor_of "v"] ∅ [] "");
     ("i", mkOperation "Const" [] [] [tensor_of "i"] ∅ [0] "");
     ("a", mkOperation "NoOp" [] ["cluster/pivot"; "x"; "y"] [] ∅ [0] "");
     ("b", mkOperation "Relu" [tensor_of "x"] ["i"; "x"] [tensor_of "b"]
                       ∅ [0] "");
     ("tagged",
      mkOperation "Relu" [tensor_of "x"] [] [tensor_of "tagged"]
                  {[ _XLA_COMPILE_ATTR := "cluster_1" ]} [0] "");
     ("tagged_ref",
      mkOperation "Relu" [ref_tensor_of "v"] [] [tensor_of "tagged_ref"]
                  {[ _XLA_COMPILE_ATTR := "cluster_1" ]} [0] "")].

Definition example_state : State :=
  mkState example_ops (dom example_ops) ∅ ∅ [cluster] [] "" false
          SkipOriginal [] 1.

(** The same graph with no context current. *)
Definition example_state_outside : State :=
  mkState example_ops (dom example_ops) ∅ ∅ [] [] "" false
          SkipOriginal [] 0.

(** A computation that looks at the use-resource flag of the variable
    scope and raises, saying what it saw. *)
Definition flag_reporting_computation (args : list PyVal) : M PyVal :=
  s ← get;
  raise (UserError (if st_use_resource s
                    then "use_resource is on"
                    else "use_resource is off")).

(** ** What every run leaves in place *)

(** A later state [c'] of the context [c]: the same object, which has
    forgotten no value it had seen and no unsupported operation it had
    recorded. *)
Definition ctx_steady (c c' : XLACompileContext) : Prop :=
  ctx_id c' = ctx_id c
  ∧ _name c' = _name c
  ∧ _pivot c' = _pivot c
  ∧ _values c ⊆ _values c'
  ∧ _unsupported_ops c `prefix_of` _unsupported_ops c'.

(** The unsupported operations that the current context has recorded
    are operations of the graph, so that they can be reported. *)
Definition reportable (s : State) : Prop :=
  match st_context s with
  | c :: _ => Forall (λ op, is_Some (st_ops s !! op)) (_unsupported_ops c)
  | [] => True
  end.

(** [s'] comes after [s] by a run that is over, however it ended: the
    chain of contexts is the same chain of objects; every operation is
    still in the graph with its type, outputs and context; names, feed
    and fetch marks and the log have only grown; the pending control
    dependencies, the device, the use-resource flag and the summary
    toggle are as before. *)
Definition steady (s s' : State) : Prop :=
  Forall2 ctx_steady (st_context s) (st_context s')
  ∧ (∀ x o, st_ops s !! x = Some o →
            ∃ o', st_ops s' !! x = Some o' ∧ same_shape o o')
  ∧ st_names s ⊆ st_names s'
  ∧ st_unfeedable s ⊆ st_unfeedable s'
  ∧ st_unfetchable s ⊆ st_unfetchable s'
  ∧ st_log s `prefix_of` st_log s'
  ∧ st_control_deps s' = st_control_deps s
  ∧ st_device s' = st_device s
  ∧ st_use_resource s' = st_use_resource s
  ∧ st_skip_summary s' = st_skip_summary s
  ∧ (reportable s → reportable s').

(** Every run of [m], completed or raising, is steady. *)
Definition well_behaved {A} (m : M A) : Prop :=
  ∀ s r s', m s = (r, s') → steady s s'.

(** The same, but for the use-resource flag. *)
Definition steady_but_flag (s s' : State) : Prop :=
  steady s (set_st_use_resource (λ _, st_use_resource s) s').

(** What the compile driver leaves in place, however it ends: as
    [steady], without the use-resource flag. *)
Definition settled (s s' : State) : Prop :=
  Forall2 ctx_steady (st_context s) (st_context s')
  ∧ (∀ x o, st_ops s !! x = Some o →
            ∃ o', st_ops s' !! x = Some o' ∧ same_shape o o')
  ∧ st_names s ⊆ st_names s'
  ∧ st_unfeedable s ⊆ st_unfeedable s'
  ∧ st_unfetchable s ⊆ st_unfetchable s'
  ∧ st_log s `prefix_of` st_log s'
  ∧ st_control_deps s' = st_control_deps s
  ∧ st_device s' = st_device s
  ∧ st_skip_summary s' = st_skip_summary s.

Definition well_behaved_but_flag {A} (m : M A) : Prop :=
  ∀ s r s', m s = (r, s') → steady_but_flag s s'.

(** A computation that builds its operations through the graph library
    is well behaved whatever it is called with. *)
Definition well_behaved_computation (computation : list PyVal → M PyVal)
    : Prop :=
  ∀ args, well_behaved (computation args).

(** [m] leaves the summary toggle as it found it, however it ends. *)
Definition keeps_skip_summary {A} (m : M A) : Prop :=
  ∀ s r s', m s = (r, s') → st_skip_summary s' = st_skip_summary s.

(** [computation], behind a check of what the driver promises it: that
    resource variables are on and summaries are skipped. *)
Definition guarded (computation : list PyVal → M PyVal) (args : list PyVal)
    : M PyVal :=
  s ← get;
  match st_use_resource s, st_skip_summary s with
  | true, SkipAlways => computation args
  | _, _ => raise (RuntimeError "called outside xla.compile")
  end.

(** ** _get_scaffold *)

Module Scaffold.

(** [_get_scaffold(captured_scaffold_fn)]; [call f] is the call [f()] of
    a host object. *)
Definition _get_scaffold (call : PyVal → Exn + PyVal)
    (captured_scaffold_fn : Captured._CapturedObject) : Exn + PyVal :=
  let scaffold_fn := Captured.get captured_scaffold_fn in
  match truthy scaffold_fn with
  | inl e => inl e
  | inr false => inr PyNone
  | inr true =>
      match call scaffold_fn with
      | inl e => inl e
      | inr PyNone =>
          inl (ValueError
                 "TPUEstimatorSpec.scaffold_fn returns None, which is not allowed")
      | inr scaffold => inr scaffold
      end
  end.

End Scaffold.

(** ** More vocabulary *)

(** Every value that the context has recorded for a name carries that
    name. *)
Definition names_kept (c : XLACompileContext) : Prop :=
  ∀ n r, _external_values c !! n = Some r → t_name r = n.

(** ** More example graphs *)

(** [example_ops] with a Print operation and a Placeholder, both inside
    [cluster] and not yet seen by it. *)
Definition example_state_summaries : State :=
  mkState
    (<["print" := mkOperation "Print" [tensor_of "i"] [] [tensor_of "print"]
                              ∅ [0] ""]>
       (<["ph" := mkOperation "Placeholder" [] [] [tensor_of "ph"] ∅ [0] ""]>
          example_ops))
    ({["print"; "ph"]} ∪ dom example_ops) ∅ ∅ [cluster] [] "" false
    SkipOriginal [] 1.

(** A context that has recorded six unsupported operations. *)
Definition example_state_reporting : State :=
  mkState
    (list_to_map
       ((λ n, (n, mkOperation "Print" [] [] [] ∅ [0] ""))
          <$> ["p1"; "p2"; "p3"; "p4"; "p5"; "p6"]))
    (list_to_set ["p1"; "p2"; "p3"; "p4"; "p5"; "p6"]) ∅ ∅
    [mkContext 0 "cluster" "cluster/pivot"
               ["p1"; "p2"; "p3"; "p4"; "p5"; "p6"] ∅ ∅]
    [] "" false SkipOriginal [] 1.

(** A computation that makes one constant and returns it. *)
Definition constant_computation (args : list PyVal) : M PyVal :=
  t ← ops_convert_to_tensor (PyInt 7);
  mret (PyList [PyTensor t]).



(** The elements that [_postprocess_flat_outputs] sees in [outputs]:
    none for None, the value itself for a single value. *)
Definition flat_items (outputs : PyVal) : list PyVal :=
  match outputs with
  | PyNone => []
  | PyList l | PyTuple l => l
  | v => [v]
  end.

(** * Properties *)

(** ** The arity checker *)

Section ArityFacts.
Import Arity.

Example abc_two_args : check_function_argument_count f_abc 2 None = None.
Proof. reflexivity. Qed.

Example abc_one_arg :
  check_function_argument_count f_abc 1 None = Some "at least 2 arguments".
Proof. reflexivity. Qed.

Example abc_five_args :
  check_function_argument_count f_abc 5 None = Some "at most 3 arguments".
Proof. reflexivity. Qed.

Example abc_queue :
  check_function_argument_count f_abc 1 (Some (mkInfeedQueue 4))
  = Some "at most 3 arguments".
Proof. reflexivity. Qed.

Example varargs_any_count :
  check_function_argument_count f_a_rest 40 None = None.
Proof. reflexivity. Qed.

Lemma format_error_plural complaint quantity :
  quantity ≠ 1%Z →
  format_error complaint quantity = spec_message complaint quantity.
Proof.
  intros Hq. unfold format_error, spec_message.
  by destruct (Z.eqb_spec quantity 1).
Qed.

Lemma format_error_singular complaint :
  format_error complaint 1 = complaint +:+ " 1 argument".
Proof. reflexivity. Qed.

(** C1, as the code has it: the verdict is [None] exactly when the
    supplied count lies between the minimum and the declared count (no
    upper bound with varargs).  Otherwise the message is "exactly N" when
    there are neither defaults nor varargs, "at least MIN" when too few
    are supplied and defaults or varargs exist, "at most N" when too many
    are supplied, no varargs exist and defaults do; the message ends in
    "arguments", except that for the quantity 1 it ends in "argument". *)
Theorem check_function_argument_count_spec
    (func : ArgSpec) (input_arity : Z) (infeed_queue : option InfeedQueue) :
  (check_function_argument_count func input_arity infeed_queue = None ↔
     (min_func_args func ≤ num_args_supplied input_arity infeed_queue
      ∧ (varargs func = None →
         num_args_supplied input_arity infeed_queue ≤ num_func_args func))%Z)
  ∧ (check_function_argument_count func input_arity infeed_queue ≠ None →
       (num_func_defaults func = 0%Z ∧ varargs func = None →
          check_function_argument_count func input_arity infeed_queue
          = Some (format_error "exactly" (num_func_args func)))
       ∧ ((num_args_supplied input_arity infeed_queue < min_func_args func)%Z
          ∧ ¬ (num_func_defaults func = 0%Z ∧ varargs func = None) →
          check_function_argument_count func input_arity infeed_queue
          = Some (format_error "at least" (min_func_args func)))
       ∧ ((num_func_args func < num_args_supplied input_arity infeed_queue)%Z
          ∧ varargs func = None ∧ num_func_defaults func ≠ 0%Z →
          check_function_argument_count func input_arity infeed_queue
          = Some (format_error "at most" (num_func_args func))))
  ∧ (∀ complaint quantity,
       format_error complaint quantity
       = if decide (quantity = 1%Z) then complaint +:+ " 1 argument"
         else spec_message complaint quantity).
Proof.
  assert (Hdef : (0 ≤ num_func_defaults func)%Z).
  { unfold num_func_defaults. destruct (defaults func); lia. }
  assert (Hmin : (min_func_args func ≤ num_func_args func)%Z).
  { unfold min_func_args. lia. }
  split; [|split].
  - unfold check_function_argument_count.
    destruct (Z.ltb_spec (num_args_supplied input_arity infeed_queue)
                         (min_func_args func)) as [Hlt|Hge].
    + split; [by repeat case_match|lia].
    + destruct (varargs func) as [v|]; simpl.
      * split; [done|]. intros _. done.
      * destruct (Z.ltb_spec (num_func_args func)
                    (num_args_supplied input_arity infeed_queue)) as [Hmany|Hfew].
        -- split; [by case_match|]. intros [_ Hup]. specialize (Hup eq_refl). lia.
        -- split; [done|]. intros _. done.
  - intros Hsome. unfold check_function_argument_count in *.
    destruct (Z.ltb_spec (num_args_supplied input_arity infeed_queue)
                         (min_func_args func)) as [Hlt|Hge].
    + split; [|split].
      * intros [-> ->]. reflexivity.
      * intros [_ Hnot].
        destruct (Z.eqb_spec (num_func_defaults func) 0) as [Hd|Hd]; [|done].
        destruct (varargs func); [done|]. by destruct Hnot.
      * intros (Hmany & _ & _). lia.
    + destruct (varargs func) as [v|]; simpl in *; [done|].
      destruct (Z.ltb_spec (num_func_args func)
                  (num_args_supplied input_arity infeed_queue)) as [Hmany|Hfew];
        [|done].
      split; [|split].
      * intros [-> _]. reflexivity.
      * intros [Hfew _]. lia.
      * intros (_ & _ & Hd).
        by destruct (Z.eqb_spec (num_func_defaults func) 0).
  - intros complaint quantity. case_decide as Hq.
    + subst. reflexivity.
    + by apply format_error_plural.
Qed.

(** C1, as the specification words it, fails for a function of one
    parameter: the code answers "exactly 1 argument". *)
Lemma check_function_argument_count_one_argument :
  check_function_argument_count f_a 0 None = Some "exactly 1 argument"
  ∧ check_function_argument_count f_a 0 None
    ≠ Some (spec_message "exactly" (num_func_args f_a)).
Proof. split; [reflexivity|discriminate]. Qed.

End ArityFacts.

(** ** The captured-object cell *)

Section CapturedFacts.
Import Captured.

Lemma capture_full (o : PyVal) (self : _CapturedObject) :
  truthy (_object self) = inr true →
  ∃ msg, capture o self = (inl (RuntimeError msg), self).
Proof. intros H. unfold capture. rewrite H. eauto. Qed.

Lemma capture_all_full (os : list PyVal) (self : _CapturedObject) :
  truthy (_object self) = inr true →
  ∃ rs, capture_all os self = (rs, self)
        ∧ length rs = length os ∧ Forall is_RuntimeError rs.
Proof.
  intros H. induction os as [|o os IH]; simpl.
  - exists []. by repeat split.
  - destruct (capture_full o self H) as [msg ->].
    destruct IH as (rs & -> & Hlen & Hall).
    exists (inl (RuntimeError msg) :: rs). repeat split.
    + simpl. by rewrite Hlen.
    + by constructor.
Qed.

(** C10: a cell that was never captured holds [None]; the first capture
    of a true object succeeds and [get] then returns that object; every
    later capture, of anything, raises [RuntimeError] and leaves the
    stored object as it is. *)
Theorem captured_object_captures_once (o : PyVal) (later : list PyVal) :
  truthy o = inr true →
  get __init__ = PyNone
  ∧ capture o __init__ = (inr tt, mkCaptured o)
  ∧ get (mkCaptured o) = o
  ∧ (∀ o', ∃ msg,
       capture o' (mkCaptured o) = (inl (RuntimeError msg), mkCaptured o))
  ∧ ∃ outcomes,
      capture_all later (mkCaptured o) = (outcomes, mkCaptured o)
      ∧ length outcomes = length later
      ∧ Forall is_RuntimeError outcomes.
Proof.
  intros Ho. repeat split.
  - intros o'. by apply capture_full.
  - by apply capture_all_full.
Qed.

Lemma captured_object_captures_once_witness :
  truthy (PyObject 1) = inr true
  ∧ Captured.get Captured.__init__ = PyNone
  ∧ capture (PyObject 1) __init__ = (inr tt, mkCaptured (PyObject 1)).
Proof.
  split; [reflexivity|].
  pose proof (captured_object_captures_once (PyObject 1) [PyNone; PyInt 2] eq_refl)
    as (H1 & H2 & _).
  exact (conj H1 H2).
Defined.

End CapturedFacts.

(** ** Value threading *)

Section AddValueFacts.

(** A context that has seen the name answers from its own tables and
    nothing changes, whatever encloses it. *)
Lemma AddValue_seen self outer val :
  t_name val ∈ _values self →
  AddValue (self :: outer) val
  = (default val (_external_values self !! t_name val), self :: outer).
Proof. intros H. simpl. rewrite decide_True by done. by destruct (_ !! _). Qed.

Lemma AddValue_unseen_top self val :
  t_name val ∉ _values self →
  AddValue [self] val
  = (val,
     [set_external_values (insert (t_name val) val)
        (set_values (λ vs, {[t_name val]} ∪ vs) self)]).
Proof. intros H. simpl. by rewrite decide_False. Qed.

Lemma AddValue_unseen_inner self c outer val :
  t_name val ∉ _values self →
  AddValue (self :: c :: outer) val
  = ((AddValue (c :: outer) val).1,
     set_external_values
       (insert (t_name val) (AddValue (c :: outer) val).1)
       (set_values (λ vs, {[t_name (AddValue (c :: outer) val).1]} ∪ vs)
          (set_values (λ vs, {[t_name val]} ∪ vs) self))
     :: (AddValue (c :: outer) val).2).
Proof.
  intros H. change (AddValue (self :: c :: outer) val) with
    (if decide (t_name val ∈ _values self) then
       (match _external_values self !! t_name val with
        | None => val
        | Some result => result
        end, self :: c :: outer)
     else
       let '(result, self2, outer') :=
         let '(result, outer') := AddValue (c :: outer) val in
         (result,
          set_values (λ vs, {[t_name result]} ∪ vs)
            (set_values (λ vs, {[t_name val]} ∪ vs) self), outer') in
       (result,
        set_external_values (insert (t_name val) result) self2 :: outer')).
  rewrite decide_False by done.
  by destruct (AddValue (c :: outer) val).
Qed.

Lemma AddValue_length chain val :
  length (AddValue chain val).2 = length chain.
Proof.
  induction chain as [|self outer IH]; [done|].
  destruct (decide (t_name val ∈ _values self)) as [Hseen|Hnew].
  - by rewrite AddValue_seen.
  - destruct outer as [|c outer].
    + by rewrite AddValue_unseen_top.
    + rewrite AddValue_unseen_inner by done. cbn [snd length]. by rewrite IH.
Qed.

(** After a call the receiver has seen the name and resolves it to the
    value the call returned. *)
Lemma AddValue_records chain val self' rest :
  (AddValue chain val).2 = self' :: rest →
  t_name val ∈ _values self'
  ∧ default val (_external_values self' !! t_name val) = (AddValue chain val).1.
Proof.
  destruct chain as [|self outer]; [done|].
  destruct (decide (t_name val ∈ _values self)) as [Hseen|Hnew].
  - rewrite AddValue_seen by done. by intros [= <- <-].
  - destruct outer as [|c outer].
    + rewrite AddValue_unseen_top by done. intros [= <- <-]. simpl.
      split; [set_solver|]. by rewrite lookup_insert_eq.
    + rewrite AddValue_unseen_inner by done. intros [= <- <-]. simpl.
      split; [set_solver|]. by rewrite lookup_insert_eq.
Qed.

Lemma AddValue_crossed chain val i c' :
  (AddValue chain val).2 !! i = Some c' →
  i < crossed chain val →
  t_name val ∈ _values c'
  ∧ _external_values c' !! t_name val = Some (AddValue chain val).1.
Proof.
  revert i c'. induction chain as [|self outer IH]; intros i c'; [simpl; lia|].
  cbn [crossed]. destruct (decide (t_name val ∈ _values self)) as [Hseen|Hnew];
    [lia|].
  destruct outer as [|c outer].
  - rewrite AddValue_unseen_top by done. destruct i as [|i]; [|done].
    intros [= Hc] Hlt. subst c'. simpl.
    split; [|by rewrite lookup_insert_eq].
    apply elem_of_union_l. by apply elem_of_singleton.
  - rewrite AddValue_unseen_inner by done. destruct i as [|i].
    + intros [= Hc] Hlt. subst c'. simpl.
      split; [|by rewrite lookup_insert_eq].
      apply elem_of_union_r, elem_of_union_l. by apply elem_of_singleton.
    + cbn [snd fst]. intros Hi Hlt. apply (IH i c' Hi). lia.
Qed.

Lemma AddValue_beyond chain val i :
  crossed chain val ≤ i →
  (AddValue chain val).2 !! i = chain !! i.
Proof.
  revert i. induction chain as [|self outer IH]; intros i; [done|].
  cbn [crossed]. destruct (decide (t_name val ∈ _values self)) as [Hseen|Hnew].
  - by rewrite AddValue_seen.
  - intros Hi. destruct i as [|i]; [lia|].
    destruct outer as [|c outer]; [by rewrite AddValue_unseen_top|].
    rewrite AddValue_unseen_inner by done.
    cbn [snd lookup list_lookup]. apply IH. lia.
Qed.

(** C5: resolving the same value twice in succession from the same
    context gives the same value both times.  The second call changes no
    context and consults none of the enclosing ones: it answers from the
    receiver's own record, whatever chain is put above the receiver.  The
    first call threads the value through exactly the contexts it has to
    cross, those below the first context that had already seen its name:
    each of them then has seen the name and maps it to the one resolved
    value; the contexts from that one on are left as they were. *)
Theorem AddValue_idempotent (chain : list XLACompileContext) (val : Tensor) :
  AddValue (AddValue chain val).2 val = AddValue chain val
  ∧ (∀ self' rest outer,
       (AddValue chain val).2 = self' :: rest →
       AddValue (self' :: outer) val = ((AddValue chain val).1, self' :: outer))
  ∧ length (AddValue chain val).2 = length chain
  ∧ (∀ i c',
       (AddValue chain val).2 !! i = Some c' →
       i < crossed chain val →
       t_name val ∈ _values c'
       ∧ _external_values c' !! t_name val = Some (AddValue chain val).1)
  ∧ (∀ i, crossed chain val ≤ i → (AddValue chain val).2 !! i = chain !! i)
  ∧ crossed (AddValue chain val).2 val = 0.
Proof.
  assert (Hlocal : ∀ self' rest outer,
            (AddValue chain val).2 = self' :: rest →
            AddValue (self' :: outer) val
            = ((AddValue chain val).1, self' :: outer)).
  { intros self' rest outer Hshape.
    destruct (AddValue_records chain val self' rest Hshape) as [Hseen <-].
    by apply AddValue_seen. }
  split; [|split; [done|split; [|split; [|split]]]].
  - destruct (AddValue chain val) as [r chain'] eqn:E.
    destruct chain' as [|self' rest].
    + destruct chain as [|self outer]; [done|].
      pose proof (AddValue_length (self :: outer) val) as Hlen.
      by rewrite E in Hlen.
    + by apply (Hlocal self' rest rest).
  - apply AddValue_length.
  - intros i c'. apply AddValue_crossed.
  - intros i. apply AddValue_beyond.
  - destruct (AddValue chain val).2 as [|self' rest] eqn:E; [done|].
    destruct (AddValue_records chain val self' rest E) as [Hseen _].
    simpl. by rewrite decide_True.
Qed.

End AddValueFacts.

(** ** Running the state-and-exception monad *)

Section Running.

Lemma run_bind {A B} (m : M A) (k : A → M B) s :
  (m ≫= k) s
  = match m s with
    | (inr a, s') => k a s'
    | (inl e, s') => (inl e, s')
    end.
Proof. reflexivity. Qed.

Lemma run_bind_ok {A B} (m : M A) (k : A → M B) s a s' :
  m s = (inr a, s') → (m ≫= k) s = k a s'.
Proof. intros H. by rewrite run_bind, H. Qed.

Lemma run_bind_raise {A B} (m : M A) (k : A → M B) s e s' :
  m s = (inl e, s') → (m ≫= k) s = (inl e, s').
Proof. intros H. by rewrite run_bind, H. Qed.

Lemma run_get_self s self outer :
  st_context s = self :: outer → get_self s = (inr self, s).
Proof. intros H. unfold get_self. rewrite run_bind. cbn. by rewrite H. Qed.

Lemma run_get_op s op o :
  st_ops s !! op = Some o → get_op op s = (inr o, s).
Proof. intros H. unfold get_op. rewrite run_bind. cbn. by rewrite H. Qed.

(** What a completed run tells about its steps. *)

Lemma bind_inr {A B} (m : M A) (k : A → M B) s b s'' :
  (m ≫= k) s = (inr b, s'') →
  ∃ a s', m s = (inr a, s') ∧ k a s' = (inr b, s'').
Proof.
  rewrite run_bind. destruct (m s) as [[e|a] s'] eqn:E; [done|]. eauto.
Qed.

Lemma ret_inr {A} (a b : A) s s' :
  (mret a : M A) s = (inr b, s') → b = a ∧ s' = s.
Proof. by intros [= <- <-]. Qed.

Lemma raise_inr {A} e (a : A) s s' : raise e s = (inr a, s') → False.
Proof. done. Qed.

Lemma modify_inr f u s s' : modify f s = (inr u, s') → s' = f s.
Proof. by intros [= <-]. Qed.

Lemma get_inr s0 s s' : get s = (inr s0, s') → s0 = s ∧ s' = s.
Proof. by intros [= <- <-]. Qed.

Lemma get_op_inr op o s s' :
  get_op op s = (inr o, s') → s' = s ∧ st_ops s !! op = Some o.
Proof.
  unfold get_op. rewrite run_bind. cbn.
  destruct (st_ops s !! op) eqn:E; [|done]. by intros [= <- <-].
Qed.

Lemma get_self_inr self s s' :
  get_self s = (inr self, s') →
  s' = s ∧ ∃ outer, st_context s = self :: outer.
Proof.
  unfold get_self. rewrite run_bind. cbn.
  destruct (st_context s) eqn:E; [done|]. intros [= <- <-]. eauto.
Qed.

Lemma when_inr b m u s s' :
  when b m s = (inr u, s') →
  (b = true ∧ m s = (inr u, s')) ∨ (b = false ∧ s' = s).
Proof.
  destruct b; simpl; [by left|]. intros [= <- <-]. by right.
Qed.

Lemma try_finally_inr {A} (m : M A) cleanup s a s2 :
  try_finally m cleanup s = (inr a, s2) →
  ∃ s1 u, m s = (inr a, s1) ∧ cleanup s1 = (inr u, s2).
Proof.
  unfold try_finally. destruct (m s) as [r s1].
  destruct (cleanup s1) as [[e|u] s2'] eqn:E; [done|].
  intros [= -> ->]. eauto.
Qed.

Lemma to_outer_inr m u s s' :
  to_outer m s = (inr u, s') →
  match st_context s with
  | self :: (_ :: _) as outer =>
      ∃ s1, m (set_st_context (λ _, outer) s) = (inr u, s1)
            ∧ s' = set_st_context (λ outer', self :: outer') s1
  | _ => s' = s
  end.
Proof.
  unfold to_outer. destruct (st_context s) as [|self [|c outer]].
  - by intros [= <-].
  - by intros [= <-].
  - destruct (m _) as [r s1] eqn:E. intros [= -> <-]. eauto.
Qed.

End Running.

(** ** AddOp: the checks before tagging *)

Section Screening.

Variable identity : Tensor → string → M Tensor.
Variable outer_AddInnerOp : string → M unit.

(** The two recording steps that precede the checks touch neither the
    graph nor the shape of the context chain. *)
Lemma screening_steps (op : string) (o : Operation) (s : State) :
  ∃ s1,
    (when (bool_decide (op_type o ∈ _BLACKLISTED_OPS))
          (log LogError
               ("Operation of type " +:+ op_type o +:+ " (" +:+ op
                  +:+ ") is not supported in XLA. Execution will "
                  +:+ "fail if this op is used in the graph. "));;
     when (bool_decide (op_type o ∈ _UNSUPPORTED_OPS))
          (modify_self (set_unsupported_ops (λ l, l ++ [op])))) s
    = (inr tt, s1)
    ∧ st_ops s1 = st_ops s
    ∧ st_names s1 = st_names s
    ∧ st_unfeedable s1 = st_unfeedable s
    ∧ st_unfetchable s1 = st_unfetchable s
    ∧ st_control_deps s1 = st_control_deps s
    ∧ st_device s1 = st_device s
    ∧ st_use_resource s1 = st_use_resource s
    ∧ Forall2 (λ c c1, ctx_id c1 = ctx_id c ∧ _name c1 = _name c
                       ∧ _pivot c1 = _pivot c ∧ _values c1 = _values c
                       ∧ _external_values c1 = _external_values c)
              (st_context s) (st_context s1).
Proof.
  assert (Hrefl : ∀ l : list XLACompileContext,
            Forall2 (λ c c1, ctx_id c1 = ctx_id c ∧ _name c1 = _name c
                             ∧ _pivot c1 = _pivot c ∧ _values c1 = _values c
                             ∧ _external_values c1 = _external_values c) l l).
  { intros l. by apply Forall_Forall2_diag, Forall_forall. }
  destruct (bool_decide (op_type o ∈ _BLACKLISTED_OPS));
    destruct (bool_decide (op_type o ∈ _UNSUPPORTED_OPS));
    (eexists; split; [reflexivity|]; cbn; repeat split; try done);
    destruct (st_context s) as [|c l]; try constructor; try done; apply Hrefl.
Qed.

Lemma AddOp_body_tagged s self outer op o :
  st_context s = self :: outer →
  st_ops s !! op = Some o →
  _XLA_COMPILE_ATTR ∈ dom (op_attr o) →
  ∃ s1,
    AddOp_body identity outer_AddInnerOp op s
    = (inl (if existsb t_is_ref_dtype (op_inputs o)
            then NotImplementedError
                   ("Non-resource Variables are not supported inside XLA computations "
                      +:+ "(operator name: " +:+ op +:+ ")")
            else ValueError
                   ("XLA compiled computations cannot be nested, (operator "
                      +:+ "name: " +:+ op +:+ ")")), s1)
    ∧ st_ops s1 = st_ops s
    ∧ st_unfeedable s1 = st_unfeedable s
    ∧ st_unfetchable s1 = st_unfetchable s.
Proof.
  intros Hctx Hop Hattr.
  destruct (screening_steps op o s) as (s1 & Hrun & Hops & _ & Hfeed & Hfetch & _).
  exists s1. split; [|done].
  unfold AddOp_body.
  rewrite (run_bind_ok _ _ _ _ _ (run_get_self _ _ _ Hctx)).
  rewrite (run_bind_ok _ _ _ _ _ (run_get_op _ _ _ Hop)).
  apply bind_inr in Hrun as (u1 & sa & Hlog & Hunsup).
  rewrite (run_bind_ok _ _ _ _ _ Hlog).
  rewrite (run_bind_ok _ _ _ _ _ Hunsup).
  destruct (existsb t_is_ref_dtype (op_inputs o)); [reflexivity|].
  rewrite (bool_decide_eq_true_2 _ Hattr). reflexivity.
Qed.

End Screening.

(** ** States that come after one another *)

Section Evolution.

Lemma same_shape_refl o : same_shape o o.
Proof. done. Qed.

Lemma same_shape_trans o1 o2 o3 :
  same_shape o1 o2 → same_shape o2 o3 → same_shape o1 o3.
Proof. intros (?&?&?) (?&?&?). repeat split; congruence. Qed.

Lemma ctx_rel_refl c : ctx_rel c c.
Proof. repeat split; auto. Qed.

Lemma ctx_rel_trans c1 c2 c3 : ctx_rel c1 c2 → ctx_rel c2 c3 → ctx_rel c1 c3.
Proof.
  intros (?&?&?&H12) (?&?&?&H23). repeat split; try congruence.
  intros n r Hr. destruct (H23 n r Hr) as [Hmid|]; [|by right]. by apply H12.
Qed.

Lemma evolves_but_refl op s : evolves_but op s s.
Proof.
  repeat split; try done.
  - intros x o Hx. exists o. by repeat split.
  - intros c Hc. exists c. split; [done|]. apply ctx_rel_refl.
Qed.

Lemma evolves_but_trans op s1 s2 s3 :
  evolves_but op s1 s2 → evolves_but op s2 s3 → evolves_but op s1 s3.
Proof.
  intros (Hops12 & Hlen12 & Hctx12 & Hdeps12 & Hdev12)
         (Hops23 & Hlen23 & Hctx23 & Hdeps23 & Hdev23).
  repeat split; try congruence.
  - intros x o1 Hx.
    destruct (Hops12 x o1 Hx) as (o2 & Hx2 & Hshape12 & Hsame12).
    destruct (Hops23 x o2 Hx2) as (o3 & Hx3 & Hshape23 & Hsame23).
    exists o3. split; [done|]. split; [by eapply same_shape_trans|].
    intros Hne. rewrite Hsame23, Hsame12; done.
  - intros c1 Hc1.
    destruct (Hctx12 c1 Hc1) as (c2 & Hc2 & Hrel12).
    destruct (Hctx23 c2 Hc2) as (c3 & Hc3 & Hrel23).
    exists c3. split; [done|]. by eapply ctx_rel_trans.
Qed.

(** Steps that made a new operation [nm] and touched no other evolve
    the state for every [op]. *)
Lemma evolves_but_fresh nm op s s' :
  st_ops s !! nm = None → evolves_but nm s s' → evolves_but op s s'.
Proof.
  intros Hfresh (Hops & Hrest). split; [|done].
  intros x o Hx. destruct (Hops x o Hx) as (o' & Hx' & Hshape & Hsame).
  exists o'. split; [done|]. split; [done|]. intros _. apply Hsame.
  intros ->. congruence.
Qed.

(** Steps that left the graph alone evolve the state for every [op]. *)
Lemma evolves_but_same_ops op1 op2 s s' :
  st_ops s' = st_ops s → evolves_but op1 s s' → evolves_but op2 s s'.
Proof.
  intros Hops (_ & Hrest). split; [|done].
  intros x o Hx. exists o. rewrite Hops. by repeat split.
Qed.

(** Steps on other fields of the state. *)
Lemma evolves_but_same_fields op s s' :
  st_ops s' = st_ops s →
  st_context s' = st_context s →
  st_control_deps s' = st_control_deps s →
  st_device s' = st_device s →
  evolves_but op s s'.
Proof.
  intros Hops Hctx Hdeps Hdev. repeat split; try done.
  - intros x o Hx. exists o. rewrite Hops. by repeat split.
  - by rewrite Hctx.
  - intros c Hc. exists c. split; [congruence|]. apply ctx_rel_refl.
Qed.

(** A rewrite of [op] that keeps its shape. *)
Lemma evolves_but_modify_op op f s :
  (∀ o, same_shape o (f o)) →
  evolves_but op s (set_st_ops (alter f op) s).
Proof.
  intros Hf. repeat split; try done.
  - intros x o Hx. cbn. destruct (decide (x = op)) as [->|Hne].
    + exists (f o). rewrite lookup_alter_eq, Hx.
      split; [done|]. split; [apply Hf|done].
    + exists o. rewrite lookup_alter_ne by done. by repeat split.
  - intros c Hc. exists c. split; [done|]. apply ctx_rel_refl.
Qed.

(** A step on the contexts alone. *)
Lemma evolves_but_context op f s :
  ctx_id <$> f (st_context s) = ctx_id <$> st_context s →
  (∀ c, st_context s = [c] → ∃ c', f [c] = [c'] ∧ ctx_rel c c') →
  evolves_but op s (set_st_context f s).
Proof.
  intros Hlen Hone. repeat split; try done.
  - intros x o Hx. exists o. by repeat split.
  - intros c Hc. cbn. rewrite Hc. by apply Hone.
Qed.

Lemma ctx_rel_set_values f c : ctx_rel c (set_values f c).
Proof. repeat split; auto. Qed.

Lemma ctx_rel_set_unsupported_ops f c : ctx_rel c (set_unsupported_ops f c).
Proof. repeat split; auto. Qed.

Lemma AddValue_ids chain val :
  ctx_id <$> (AddValue chain val).2 = ctx_id <$> chain.
Proof.
  induction chain as [|self outer IH]; [done|].
  destruct (decide (t_name val ∈ _values self)) as [Hseen|Hnew].
  - by rewrite AddValue_seen.
  - destruct outer as [|c outer].
    + by rewrite AddValue_unseen_top.
    + rewrite AddValue_unseen_inner by done. cbn [snd fmap list_fmap].
      f_equal. apply IH.
Qed.

(** [AddValue] in a lone context. *)
Lemma AddValue_top c val :
  ∃ c', AddValue [c] val = (default val
                              (if decide (t_name val ∈ _values c)
                               then _external_values c !! t_name val
                               else None), [c'])
        ∧ ctx_rel c c'.
Proof.
  destruct (decide (t_name val ∈ _values c)) as [Hseen|Hnew].
  - exists c. rewrite AddValue_seen by done. split; [done|]. apply ctx_rel_refl.
  - eexists. rewrite AddValue_unseen_top by done. split; [done|].
    repeat split; auto. cbn. intros n r Hr.
    destruct (decide (t_name val = n)) as [<-|Hne].
    + rewrite lookup_insert_eq in Hr. right. congruence.
    + rewrite lookup_insert_ne in Hr by done. by left.
Qed.

Lemma AddValue_self_inr val r s s' :
  AddValue_self val s = (inr r, s') →
  evolves_but "" s s'
  ∧ st_ops s' = st_ops s
  ∧ (∀ c, st_context s = [c] → resolves_to c val r).
Proof.
  unfold AddValue_self. intros H.
  apply bind_inr in H as (s0 & s1 & [-> ->]%get_inr & H).
  destruct (AddValue (st_context s) val) as [r' chain'] eqn:E.
  apply bind_inr in H as (u & s2 & ->%modify_inr & [-> ->]%ret_inr).
  split; [|split; [done|]].
  - assert (chain' = (AddValue (st_context s) val).2) as -> by by rewrite E.
    apply (evolves_but_context "" (λ _, (AddValue (st_context s) val).2)).
    + apply AddValue_ids.
    + intros c Hc. rewrite Hc.
      destruct (AddValue_top c val) as (c' & Hrun & Hrel).
      exists c'. by rewrite Hrun.
  - intros c Hc. rewrite Hc in E.
    destruct (AddValue_top c val) as (c' & Hrun & Hrel).
    rewrite Hrun in E. injection E as <- _.
    unfold resolves_to. case_decide; [|by left].
    destruct (_external_values c !! t_name val) eqn:El; [by right|by left].
Qed.

End Evolution.

(** ** The loops of AddOp *)

Section Loops.

Lemma partition_control_inputs_inr self cins internal external s s' :
  partition_control_inputs self cins s = (inr (internal, external), s') →
  s' = s
  ∧ internal = List.filter (is_internal_input s self) cins
  ∧ external = List.filter (λ x, negb (is_internal_input s self x)) cins
  ∧ Forall (λ x, is_Some (st_ops s !! x)) cins.
Proof.
  revert internal external s'.
  induction cins as [|x rest IH]; intros internal external s' H.
  - apply ret_inr in H as [[= -> ->] ->]. by repeat split.
  - cbn [partition_control_inputs] in H.
    apply bind_inr in H as (ox & s1 & [-> Hx]%get_op_inr & H).
    apply bind_inr in H as ([int ext] & s2 & Hrest & H).
    destruct (IH _ _ _ Hrest) as (-> & -> & -> & Hall).
    assert (E : is_internal_input s self x
                = is_internal_op self (op_context ox)).
    { unfold is_internal_input. by rewrite Hx. }
    cbn [List.filter]. rewrite E.
    destruct (is_internal_op self (op_context ox));
      apply ret_inr in H as [[= -> ->] ->]; repeat split; try done;
      constructor; eauto.
Qed.

Lemma resolves_to_rel c c1 t r :
  ctx_rel c c1 → resolves_to c1 t r → resolves_to c t r.
Proof.
  intros (_ & _ & _ & Hext) [Hname|Hrec]; [by left|].
  destruct (Hext _ _ Hrec) as [?|?]; [by right|by left].
Qed.

(** The [for index in xrange(len(op.inputs))] loop from index [k] on:
    it rewrites data inputs [k .. k+n) of [op], each to what the context
    resolves it to, and nothing else of the graph. *)
Lemma resolve_inputs_inr op n : ∀ k l s s' o,
  mapM (resolve_input op) (seq k n) s = (inr l, s') →
  st_ops s !! op = Some o →
  evolves_but op s s'
  ∧ ∃ o', st_ops s' !! op = Some o'
          ∧ op_control_inputs o' = op_control_inputs o
          ∧ op_attr o' = op_attr o
          ∧ length (op_inputs o') = length (op_inputs o)
          ∧ (∀ i, i < k ∨ k + n ≤ i → op_inputs o' !! i = op_inputs o !! i)
          ∧ (∀ c i t, st_context s = [c] → k ≤ i < k + n →
                      op_inputs o !! i = Some t →
                      ∃ r, op_inputs o' !! i = Some r ∧ resolves_to c t r).
Proof.
  induction n as [|n IH]; intros k l s s' o H Hop.
  - apply ret_inr in H as [-> ->]. split; [apply evolves_but_refl|].
    exists o. repeat split; try done. intros; lia.
  - cbn [seq mapM] in H.
    apply bind_inr in H as (u & s1 & Hstep & H).
    apply bind_inr in H as (l' & s2 & Hrest & H).
    apply ret_inr in H as [-> ->].
    unfold resolve_input in Hstep.
    apply bind_inr in Hstep as (o0 & s0 & [-> Hop0]%get_op_inr & Hstep).
    assert (o0 = o) as -> by congruence.
    destruct (op_inputs o !! k) as [x|] eqn:Hk; [|done].
    apply bind_inr in Hstep as (real_x & sa & Hval & Hstep).
    apply AddValue_self_inr in Hval as (Hev & Hops & Hres).
    set (o1 := set_op_inputs (λ inputs, <[k:=real_x]> inputs) o).
    assert (Hs1 : evolves_but op sa s1 ∧ st_ops s1 !! op = Some o1
                  ∧ st_context s1 = st_context sa).
    { apply when_inr in Hstep as [[Hne Hupd]|[Heq ->]].
      - apply modify_inr in Hupd as ->. split; [|split; [|done]].
        + by apply evolves_but_modify_op.
        + cbn. by rewrite lookup_alter_eq, Hops, Hop.
      - split; [apply evolves_but_refl|]. split; [|done].
        apply bool_decide_eq_false in Heq. apply dec_stable in Heq as ->.
        rewrite Hops, Hop. f_equal. unfold o1, set_op_inputs.
        rewrite list_insert_id by done. by destruct o. }
    destruct Hs1 as (Hev1 & Hop1 & Hctx1).
    destruct (IH _ _ _ _ _ Hrest Hop1) as (Hev2 & o' & Hop' & Hci & Hattr & Hlen & Hout & Hin).
    split.
    { eapply evolves_but_trans; [|exact Hev2].
      eapply evolves_but_trans; [|exact Hev1].
      by eapply evolves_but_same_ops. }
    exists o'. split; [done|]. split; [done|]. split; [done|].
    split; [by rewrite Hlen; unfold o1; cbn; rewrite length_insert|].
    split.
    + intros i Hi. rewrite Hout by lia. unfold o1. cbn.
      apply list_lookup_insert_ne. lia.
    + intros c i t Hc Hi Ht.
      destruct (decide (i = k)) as [->|Hne].
      * exists real_x. split.
        -- rewrite Hout by lia. unfold o1. cbn.
           apply list_lookup_insert_eq. by eapply lookup_lt_Some.
        -- assert (t = x) as -> by congruence. by apply Hres.
      * pose proof Hev as (_ & _ & Hone & _).
        destruct (Hone c Hc) as (c1 & Hc1 & Hrel).
        destruct (Hin c1 i t) as (r & Hr & Hres1).
        -- by rewrite Hctx1.
        -- lia.
        -- unfold o1. cbn. rewrite list_lookup_insert_ne by done. done.
        -- exists r. split; [done|]. by eapply resolves_to_rel.
Qed.

End Loops.

(** ** AddOp, step by step *)

Section PassThroughs.

Variable identity : Tensor → string → M Tensor.
Hypothesis identity_ok : identity_spec identity.

Lemma first_output_of_ext s s' x :
  (∀ y o, st_ops s !! y = Some o → st_ops s' !! y = Some o) →
  is_Some (st_ops s !! x) →
  first_output_of s' x = first_output_of s x.
Proof.
  intros Hext [o Hx]. unfold first_output_of. by rewrite (Hext _ _ Hx), Hx.
Qed.

Lemma made_pass_through_later s s1 s' t id :
  (∀ oi, st_ops s1 !! id = Some oi → st_ops s' !! id = Some oi) →
  made_pass_through s s1 t id → made_pass_through s s' t id.
Proof.
  intros Hext (Hfresh & oi & r & Hid & Hrest).
  split; [done|]. exists oi, r. split; [by apply Hext|done].
Qed.

Lemma made_pass_through_earlier op s s1 s' t id :
  evolves_but op s s1 →
  made_pass_through s1 s' t id → made_pass_through s s' t id.
Proof.
  intros (Hops & Hids & Hone & _)
         (Hfresh & oi & r & Hid & Hty & Hin & Hres & Hci & Hctx).
  split.
  { destruct (st_ops s !! id) as [o|] eqn:E; [|done].
    destruct (Hops _ _ E) as (o' & E' & _). congruence. }
  exists oi, r. repeat split; try done; [|congruence].
  destruct Hres as [Hname|(c1 & Hc1 & Hrec)]; [by left|].
  rewrite Hc1 in Hids.
  destruct (st_context s) as [|c [|c2 l]] eqn:Hc; try done.
  destruct (Hone c eq_refl) as (c1' & Hc1' & (_ & _ & _ & Hrel)).
  assert (c1' = c1) as -> by congruence.
  destruct (Hrel _ _ Hrec) as [?|?]; [right; eauto|by left].
Qed.

Lemma pass_throughs_inr external : ∀ ids s s',
  pass_throughs identity external s = (inr ids, s') →
  st_control_deps s = [] →
  Forall (λ x, is_Some (st_ops s !! x)) external →
  (∀ y o, st_ops s !! y = Some o → st_ops s' !! y = Some o)
  ∧ evolves_but "" s s'
  ∧ Forall2 (made_pass_through s s') (omap (first_output_of s) external) ids.
Proof.
  induction external as [|x rest IH]; intros ids s s' H Hdeps Hall.
  - apply ret_inr in H as [-> ->]. split; [done|].
    split; [apply evolves_but_refl|constructor].
  - apply Forall_cons in Hall as [Hx Hall].
    cbn [pass_throughs] in H.
    apply bind_inr in H as (ox & s0 & [-> Hox]%get_op_inr & H).
    cbn [omap list_omap]. unfold first_output_of at 1. rewrite Hox.
    destruct (op_outputs ox) as [|t outs] eqn:Hout; cbn [head].
    + by apply IH.
    + apply bind_inr in H as (t' & s1 & Hid & H).
      apply bind_inr in H as (ids' & s2 & Hrest & H).
      apply ret_inr in H as [-> ->].
      destruct (identity_ok _ _ _ _ _ Hdeps Hid) as (Hev & Hmade).
      pose proof Hmade as (Hfresh & _).
      assert (Hext1 : ∀ y o, st_ops s !! y = Some o → st_ops s1 !! y = Some o).
      { intros y o Hy. destruct Hev as (Hops & _).
        destruct (Hops y o Hy) as (o' & Hy' & _ & Hsame).
        rewrite Hy', Hsame; [done|]. intros ->. congruence. }
      assert (Hev1 : evolves_but "" s s1) by by eapply evolves_but_fresh.
      destruct (IH ids' s1 s2 Hrest) as (Hext2 & Hev2 & Hids).
      { destruct Hev as (_ & _ & _ & -> & _). done. }
      { eapply Forall_impl; [exact Hall|]. intros y [o Hy]. eauto. }
      split; [eauto|]. split; [by eapply evolves_but_trans|].
      constructor.
      * eapply made_pass_through_later; [|exact Hmade]. eauto.
      * rewrite <- (list_omap_ext (first_output_of s1)
                      (first_output_of s) rest rest).
        -- eapply Forall2_impl; [exact Hids|].
           intros t0 id0. by apply made_pass_through_earlier with "".
        -- apply Forall_Forall2_diag. eapply Forall_impl; [exact Hall|].
           intros y Hy. by apply first_output_of_ext.
Qed.

End PassThroughs.

Section Stages.

Lemma is_internal_op_id c1 c2 ctxt :
  ctx_id c1 = ctx_id c2 → is_internal_op c1 ctxt = is_internal_op c2 ctxt.
Proof.
  intros Hid. induction ctxt as [|c rest IH]; [done|].
  cbn. rewrite Hid, IH. done.
Qed.

Lemma is_internal_input_evolves op s s' c c' x :
  evolves_but op s s' → ctx_id c' = ctx_id c →
  is_Some (st_ops s !! x) →
  is_internal_input s' c' x = is_internal_input s c x.
Proof.
  intros (Hops & _) Hid [o Hx].
  destruct (Hops _ _ Hx) as (o' & Hx' & (_ & _ & Hc) & _).
  unfold is_internal_input. rewrite Hx, Hx', Hc. by apply is_internal_op_id.
Qed.

Lemma first_output_of_evolves op s s' x :
  evolves_but op s s' → is_Some (st_ops s !! x) →
  first_output_of s' x = first_output_of s x.
Proof.
  intros (Hops & _) [o Hx].
  destruct (Hops _ _ Hx) as (o' & Hx' & (_ & Ho & _) & _).
  unfold first_output_of. by rewrite Hx, Hx', Ho.
Qed.

Lemma evolves_but_is_Some op s s' x :
  evolves_but op s s' → is_Some (st_ops s !! x) → is_Some (st_ops s' !! x).
Proof.
  intros (Hops & _) [o Hx]. destruct (Hops _ _ Hx) as (o' & Hx' & _). eauto.
Qed.

(** The recording steps and the two checks. *)
Lemma when_log_inr op b level msg u s s1 :
  when b (log level msg) s = (inr u, s1) →
  evolves_but op s s1 ∧ st_ops s1 = st_ops s ∧ st_context s1 = st_context s.
Proof.
  intros [[_ ->%modify_inr]|[_ ->]]%when_inr.
  - split; [by apply evolves_but_same_fields|done].
  - split; [apply evolves_but_refl|done].
Qed.

Lemma when_modify_self_inr op b f u s s1 :
  when b (modify_self (set_unsupported_ops f)) s = (inr u, s1) →
  evolves_but op s s1 ∧ st_ops s1 = st_ops s.
Proof.
  intros [[_ ->%modify_inr]|[_ ->]]%when_inr.
  - split; [|done]. apply evolves_but_context.
    + by destruct (st_context s).
    + intros c _. eexists. split; [done|]. apply ctx_rel_set_unsupported_ops.
  - split; [apply evolves_but_refl|done].
Qed.

Lemma when_raise_inr b e u s s1 :
  when b (raise e) s = (inr u, s1) → b = false ∧ s1 = s.
Proof. by intros [[_ ?%raise_inr]|[-> ->]]%when_inr. Qed.

Lemma _RemoveExternalControlEdges_inr op internal external s s' self o :
  _RemoveExternalControlEdges op s = (inr (internal, external), s') →
  head (st_context s) = Some self →
  st_ops s !! op = Some o →
  internal = List.filter (is_internal_input s self) (op_control_inputs o)
  ∧ external
    = List.filter (λ x, negb (is_internal_input s self x)) (op_control_inputs o)
  ∧ Forall (λ x, is_Some (st_ops s !! x)) (op_control_inputs o)
  ∧ evolves_but op s s'
  ∧ st_context s' = st_context s
  ∧ st_ops s' !! op = Some (set_op_control_inputs (λ _, internal) o).
Proof.
  unfold _RemoveExternalControlEdges. intros H Hself Hop.
  apply bind_inr in H as (self0 & s0 & [-> [outer Hctx]]%get_self_inr & H).
  rewrite Hctx in Hself. injection Hself as ->.
  apply bind_inr in H as (o0 & s0 & [-> Hop0]%get_op_inr & H).
  assert (o0 = o) as -> by congruence.
  apply bind_inr in H as ([int ext] & s1 & Hpart & H).
  apply partition_control_inputs_inr in Hpart as (-> & -> & -> & Hall).
  apply bind_inr in H as (u1 & s1 & ->%modify_inr & H).
  apply bind_inr in H as (u2 & s2 & ->%modify_inr & H).
  apply ret_inr in H as [[= -> ->] ->].
  split; [done|]. split; [done|]. split; [done|]. split; [|split; [done|]].
  - eapply evolves_but_trans; by apply evolves_but_modify_op.
  - cbn [st_ops set_st_ops]. by rewrite !lookup_alter_eq, Hop.
Qed.


(** The pivot edge, or the resolution of the data inputs. *)
Lemma inputs_stage op self internal o8 u s8 s9 :
  match op_inputs o8 with
  | [] =>
      match internal with
      | [] => _add_control_input op (_pivot self)
      | _ :: _ => mret tt
      end
  | _ :: _ =>
      mapM (resolve_input op) (seq 0 (length (op_inputs o8)));; mret tt
  end s8 = (inr u, s9) →
  st_ops s8 !! op = Some o8 →
  op_control_inputs o8 = internal →
  evolves_but op s8 s9
  ∧ ∃ o9,
      st_ops s9 !! op = Some o9
      ∧ op_control_inputs o9
        = internal ++ pivot_edge self (op_inputs o8) internal
      ∧ op_attr o9 = op_attr o8
      ∧ length (op_inputs o9) = length (op_inputs o8)
      ∧ (∀ c i t, st_context s8 = [c] → op_inputs o8 !! i = Some t →
                  ∃ r, op_inputs o9 !! i = Some r ∧ resolves_to c t r).
Proof.
  intros H Hop Hci. destruct (op_inputs o8) as [|t0 ts] eqn:Hin.
  - destruct internal as [|x internal].
    + apply modify_inr in H as ->. split.
      { by apply evolves_but_modify_op. }
      eexists. split.
      { cbn [st_ops set_st_ops]. by rewrite lookup_alter_eq, Hop. }
      cbn. rewrite Hci, Hin. by repeat split.
    + apply ret_inr in H as [_ ->]. split; [apply evolves_but_refl|].
      exists o8. rewrite Hin, Hci, app_nil_r. by repeat split.
  - apply bind_inr in H as (l & s1 & Hloop & [_ ->]%ret_inr).
    destruct (resolve_inputs_inr _ _ _ _ _ _ _ Hloop Hop)
      as (Hev & o9 & Hop9 & Hci9 & Hattr9 & Hlen9 & _ & Hres).
    split; [done|]. exists o9. rewrite Hin in *.
    split; [done|]. split; [by rewrite Hci9, Hci, app_nil_r|].
    split; [done|]. split; [done|].
    intros c i t Hc Hi. apply Hres; [done| |done].
    apply lookup_lt_Some in Hi. lia.
Qed.

Lemma made_pass_through_same_fields s1 s s' t id :
  st_ops s1 = st_ops s → st_context s1 = st_context s →
  made_pass_through s1 s' t id → made_pass_through s s' t id.
Proof. unfold made_pass_through. by intros -> ->. Qed.

(** The pass-throughs for the external control inputs. *)
Lemma external_stage identity op external u s9 s10 o9 :
  identity_spec identity →
  match external with
  | [] => mret tt
  | _ :: _ =>
      external_control_inputs ←
        with_control_dependencies_None_in_self
          (pass_throughs identity external);
      _add_control_inputs op external_control_inputs
  end s9 = (inr u, s10) →
  st_ops s9 !! op = Some o9 →
  Forall (λ x, is_Some (st_ops s9 !! x)) external →
  ∃ ids,
    evolves_but op s9 s10
    ∧ st_ops s10 !! op = Some (set_op_control_inputs (λ cs, cs ++ ids) o9)
    ∧ Forall2 (made_pass_through s9 s10)
              (omap (first_output_of s9) external) ids.
Proof.
  intros Hid H Hop Hall. destruct external as [|x0 external0] eqn:Hext.
  { apply ret_inr in H as [_ ->]. exists []. split; [apply evolves_but_refl|].
    split; [|constructor].
    rewrite Hop. f_equal. unfold set_op_control_inputs.
    rewrite app_nil_r. by destruct o9. }
  rewrite <- Hext in *. clear Hext x0 external0.
  apply bind_inr in H as (ids & s1 & Hwith & ->%modify_inr).
  unfold with_control_dependencies_None_in_self in Hwith.
  apply bind_inr in Hwith as (s0 & s0' & [-> ->]%get_inr & Hwith).
  apply try_finally_inr in Hwith as (sB & u1 & Hrun & ->%modify_inr).
  apply bind_inr in Hrun as (u2 & sA & ->%modify_inr & Hrun).
  set (sA := set_st_control_deps (λ _, []) s9) in *.
  destruct (pass_throughs_inr identity Hid external ids sA sB Hrun eq_refl Hall)
    as (Hext & (_ & Hids & Hone & Hdeps & Hdev) & Hmade).
  set (sC := set_st_control_deps (λ _, st_control_deps s9) sB) in *.
  assert (Hev : evolves_but op s9 sC).
  { repeat split; try done.
    intros y o Hy. exists o. split; [by apply Hext|]. by repeat split. }
  assert (Hopc : st_ops sC !! op = Some o9) by by apply Hext.
  exists ids. split; [|split].
  - eapply evolves_but_trans; [exact Hev|]. by apply evolves_but_modify_op.
  - cbn [st_ops set_st_ops]. by rewrite lookup_alter_eq, Hopc.
  - eapply Forall2_impl; [exact Hmade|]. intros t id Hm.
    apply (made_pass_through_same_fields sA); [done|done|].
    eapply made_pass_through_later; [|exact Hm].
    intros oi Hoi. cbn [st_ops set_st_ops].
    rewrite lookup_alter_ne; [done|].
    intros ->. destruct Hm as (Hfresh & _).
    change (st_ops sA) with (st_ops s9) in Hfresh. congruence.
Qed.

End Stages.

Section Body.

Variable identity : Tensor → string → M Tensor.
Variable outer_AddInnerOp : string → M unit.
Hypothesis identity_ok : identity_spec identity.
Hypothesis outer_rejects :
  ∀ op s u s', is_tagged s op → outer_AddInnerOp op s ≠ (inr u, s').

(** What a completed [AddOp] has done: the receiver is a lone context;
    the operation has been tagged; its control inputs are the internal
    ones, the pivot edge, and the pass-throughs of the external ones that
    have an output; its data inputs are resolved. *)
Lemma AddOp_body_inr op s s' :
  AddOp_body identity outer_AddInnerOp op s = (inr tt, s') →
  ∃ self o o' ids,
    st_context s = [self]
    ∧ st_ops s !! op = Some o
    ∧ st_ops s' !! op = Some o'
    ∧ evolves_but op s s'
    ∧ (_XLA_COMPILE_ATTR ∉ dom (op_attr o))
    ∧ existsb t_is_ref_dtype (op_inputs o) = false
    ∧ op_attr o' = insert _XLA_COMPILE_ATTR (_name self) (op_attr o)
    ∧ op_control_inputs o'
      = internal_control_inputs_of s self o
          ++ pivot_edge self (op_inputs o) (internal_control_inputs_of s self o)
          ++ ids
    ∧ Forall2 (made_pass_through s s')
              (omap (first_output_of s) (external_control_inputs_of s self o))
              ids
    ∧ length (op_inputs o') = length (op_inputs o)
    ∧ (∀ i t, op_inputs o !! i = Some t →
              ∃ r, op_inputs o' !! i = Some r ∧ resolves_to self t r)
    ∧ Forall (λ x, is_Some (st_ops s !! x)) (op_control_inputs o).
Proof.
  unfold AddOp_body. intros H.
  apply bind_inr in H as (self & s0 & [-> [outer Hctx]]%get_self_inr & H).
  apply bind_inr in H as (o & s0 & [-> Hop]%get_op_inr & H).
  apply bind_inr in H as (u & s1 & Hlog & H).
  apply bind_inr in H as (u2 & s2 & Hunsup & H).
  apply bind_inr in H as (u3 & s3 & [Href ->]%when_raise_inr & H).
  apply bind_inr in H as (u4 & s4 & [Hattr ->]%when_raise_inr & H).
  apply bind_inr in H as (u5 & s5 & ->%modify_inr & H).
  apply bind_inr in H as (u6 & s6 & ->%modify_inr & H).
  apply bind_inr in H as (u7 & s7 & ->%modify_inr & H).
  apply bind_inr in H as ([internal external] & s8 & Hrem & H).
  apply bind_inr in H as (o8 & s9 & [-> Hop8]%get_op_inr & H).
  apply bind_inr in H as (u9 & s9 & Hinputs & H).
  apply bind_inr in H as (u10 & s10 & Hexternal & H).
  apply bind_inr in H as (o10 & s11 & [-> Hop10]%get_op_inr & H).
  apply bind_inr in H as (u11 & s11 & ->%modify_inr & H).
  apply bool_decide_eq_false in Hattr.
  (* the recording steps *)
  apply (when_log_inr op) in Hlog as (Hev1 & Hops1 & Hctx1).
  apply (when_modify_self_inr op) in Hunsup as (Hev2 & Hops2).
  assert (Hev02 : evolves_but op s s2) by by eapply evolves_but_trans.
  assert (Hop2 : st_ops s2 !! op = Some o) by by rewrite Hops2, Hops1.
  (* tagging *)
  set (s7 := set_st_unfetchable _ _) in *.
  set (o7 := set_op_attr (insert _XLA_COMPILE_ATTR (_name self)) o).
  assert (Hev27 : evolves_but op s2 s7).
  { apply (evolves_but_trans _ _
             (set_st_ops
                (alter (set_op_attr (insert _XLA_COMPILE_ATTR (_name self))) op)
                s2)).
    - by apply evolves_but_modify_op.
    - by apply evolves_but_same_fields. }
  assert (Hop7 : st_ops s7 !! op = Some o7).
  { unfold s7. cbn [st_ops set_st_ops set_st_unfetchable set_st_unfeedable].
    by rewrite lookup_alter_eq, Hop2. }
  assert (Hev07 : evolves_but op s s7) by by eapply evolves_but_trans.
  assert (Hops7 : st_ops s7
                  = alter (set_op_attr (insert _XLA_COMPILE_ATTR (_name self)))
                          op (st_ops s)).
  { unfold s7. cbn [st_ops set_st_ops set_st_unfetchable set_st_unfeedable].
    by rewrite Hops2, Hops1. }
  assert (Hback : ∀ x, is_Some (st_ops s7 !! x) → is_Some (st_ops s !! x)).
  { intros x. rewrite Hops7. by rewrite lookup_alter_is_Some. }
  (* the receiver is still the same object *)
  pose proof Hev07 as (_ & Hids7 & _).
  rewrite Hctx in Hids7.
  destruct (st_context s7) as [|self7 outer7] eqn:Hctx7; [done|].
  injection Hids7 as Hid7 Hidouter7.
  (* the control inputs *)
  destruct (_RemoveExternalControlEdges_inr _ _ _ _ _ self7 o7 Hrem)
    as (Hint & Hext & Hall & Hev78 & Hctx8 & Hop8'); [by rewrite Hctx7|done|].
  change (op_control_inputs o7) with (op_control_inputs o) in *.
  assert (Hint' : internal = internal_control_inputs_of s self o).
  { rewrite Hint. apply List.filter_ext_in. intros x Hx.
    apply (is_internal_input_evolves op); [done|done|].
    apply Hback. rewrite Forall_forall in Hall. apply Hall.
    by apply list_elem_of_In. }
  assert (Hext' : external = external_control_inputs_of s self o).
  { rewrite Hext. apply List.filter_ext_in. intros x Hx. f_equal.
    apply (is_internal_input_evolves op); [done|done|].
    apply Hback. rewrite Forall_forall in Hall. apply Hall.
    by apply list_elem_of_In. }
  assert (o8 = set_op_control_inputs (λ _, internal) o7) as -> by congruence.
  assert (Hev08 : evolves_but op s s8) by by eapply evolves_but_trans.
  (* the data inputs *)
  destruct (inputs_stage _ _ _ _ _ _ _ Hinputs Hop8 eq_refl)
    as (Hev89 & o9 & Hop9 & Hci9 & Hattr9 & Hlen9 & Hres9).
  change (op_inputs (set_op_control_inputs _ o7)) with (op_inputs o) in *.
  assert (Hev09 : evolves_but op s s9) by by eapply evolves_but_trans.
  (* the pass-throughs *)
  destruct (external_stage _ _ _ _ _ _ o9 identity_ok Hexternal Hop9)
    as (ids & Hev910 & Hop10' & Hmade).
  { rewrite Hext. apply Forall_forall. intros x Hx.
    apply list_elem_of_In, List.filter_In in Hx as [Hx _].
    apply (evolves_but_is_Some op s7); [by eapply evolves_but_trans|].
    rewrite Forall_forall in Hall. apply Hall. by apply list_elem_of_In. }
  assert (o10 = set_op_control_inputs (λ cs, cs ++ ids) o9) as ->
    by congruence.
  assert (Hev010 : evolves_but op s s10) by by eapply evolves_but_trans.
  (* marking the outputs *)
  set (s11 := set_st_context _ s10) in *.
  assert (Hev1011 : evolves_but op s10 s11).
  { apply evolves_but_context.
    - rewrite <- list_fmap_compose. by apply list_fmap_ext.
    - intros c _. eexists. split; [done|]. apply ctx_rel_set_values. }
  assert (Hev011 : evolves_but op s s11) by by eapply evolves_but_trans.
  (* the enclosing context *)
  assert (Htag : ∀ chain, is_tagged (set_st_context (λ _, chain) s11) op).
  { intros chain. eexists. split; [exact Hop10|].
    cbn [op_attr set_op_control_inputs]. rewrite Hattr9.
    cbn [op_attr set_op_control_inputs o7 set_op_attr].
    rewrite dom_insert. apply elem_of_union_l. by apply elem_of_singleton. }
  apply to_outer_inr in H.
  pose proof Hev011 as (_ & Hids11 & Hone11 & _).
  rewrite Hctx in Hids11.
  destruct (st_context s11) as [|self11 [|c11 outer11]] eqn:Hctx11; [done| |].
  2:{ destruct H as (s12 & Hout & _). by apply outer_rejects in Hout. }
  subst s'. destruct outer as [|c outer]; [|done].
  exists self, o, (set_op_control_inputs (λ cs, cs ++ ids) o9), ids.
  split; [done|]. split; [done|]. split; [done|]. split; [done|].
  split; [done|]. split; [done|].
  split. { cbn [op_attr set_op_control_inputs]. by rewrite Hattr9. }
  split.
  { cbn [op_control_inputs set_op_control_inputs].
    rewrite Hci9, <- Hint', <- app_assoc. done. }
  split.
  { rewrite <- Hext'.
    rewrite <- (list_omap_ext (first_output_of s9)
                    (first_output_of s) external external).
    - eapply Forall2_impl; [exact Hmade|]. intros t id Hm.
      apply (made_pass_through_earlier op s s9); [done|].
      eapply made_pass_through_later; [|exact Hm]. done.
    - apply Forall_Forall2_diag. rewrite Hext. apply Forall_forall.
      intros x Hx. apply list_elem_of_In, List.filter_In in Hx as [Hx _].
      apply (first_output_of_evolves op); [done|].
      apply Hback. rewrite Forall_forall in Hall. apply Hall.
      by apply list_elem_of_In. }
  split. { cbn [op_inputs set_op_control_inputs]. done. }
  split.
  - intros i t Hi.
    pose proof Hev08 as (_ & _ & Hone8 & _).
    destruct (Hone8 self Hctx) as (c8 & Hc8 & Hrel8).
    destruct (Hres9 c8 i t Hc8 Hi) as (r & Hr & Hres).
    exists r. split; [done|]. by eapply resolves_to_rel.
  - eapply Forall_impl; [exact Hall|]. intros x. apply Hback.
Qed.

End Body.

(** ** Creating operations *)

Section Creating.

Lemma unique_name_inr name nm s s' :
  unique_name name s = (inr nm, s') →
  nm = fresh_string_of_set name (st_names s ∪ dom (st_ops s))
  ∧ st_ops s !! nm = None
  ∧ s' = set_st_names (λ names, {[nm]} ∪ names) s.
Proof.
  unfold unique_name. intros H.
  apply bind_inr in H as (s0 & s1 & [-> ->]%get_inr & H).
  apply bind_inr in H as (u & s2 & ->%modify_inr & [-> ->]%ret_inr).
  split; [done|]. split; [|done].
  apply not_elem_of_dom.
  pose proof (fresh_string_of_set_fresh (st_names s ∪ dom (st_ops s)) name)
    as Hfresh.
  intros Hin. apply Hfresh. by apply elem_of_union_r.
Qed.

(** A completed [create_op]: the operation is new; it is entered in the
    graph as created, and then handed to the hook when a context is
    current. *)
Lemma create_op_inr hook type inputs n name r s s' :
  create_op hook type inputs n name s = (inr r, s') →
  st_ops s !! r.1 = None
  ∧ r.2 = make_outputs r.1 (st_device s) n
  ∧ ∃ s2,
      st_ops s2
      = insert r.1
          (mkOperation type inputs (st_control_deps s)
             (make_outputs r.1 (st_device s) n) ∅
             (ctx_id <$> st_context s) (st_device s))
          (st_ops s)
      ∧ st_context s2 = st_context s
      ∧ st_control_deps s2 = st_control_deps s
      ∧ st_device s2 = st_device s
      ∧ st_use_resource s2 = st_use_resource s
      ∧ match st_context s with
        | [] => s' = s2
        | _ :: _ => hook r.1 s2 = (inr tt, s')
        end.
Proof.
  unfold create_op. intros H.
  apply bind_inr in H as (nm & s1 & (_ & Hfresh & ->)%unique_name_inr & H).
  apply bind_inr in H as (s0 & s1 & [-> ->]%get_inr & H).
  apply bind_inr in H as (u & s2 & ->%modify_inr & H).
  apply bind_inr in H as (u2 & s3 & Hhook & [-> ->]%ret_inr).
  cbn [fst snd] in *. split; [done|]. split; [done|].
  match type of Hhook with _ ?s2 = _ => exists s2 end.
  split; [done|]. split; [done|]. split; [done|]. split; [done|].
  split; [done|].
  cbn [st_context set_st_names set_st_ops] in *.
  destruct (st_context s).
  - by apply ret_inr in Hhook as [_ ->].
  - by destruct u2.
Qed.

Lemma evolves_but_insert nm o s s2 :
  st_ops s !! nm = None →
  st_ops s2 = insert nm o (st_ops s) →
  st_context s2 = st_context s →
  st_control_deps s2 = st_control_deps s →
  st_device s2 = st_device s →
  evolves_but nm s s2.
Proof.
  intros Hfresh Hops Hctx Hdeps Hdev. repeat split; try done.
  - intros x ox Hx. exists ox. rewrite Hops.
    rewrite lookup_insert_ne by congruence. by repeat split.
  - by rewrite Hctx.
  - intros c Hc. exists c. split; [congruence|]. apply ctx_rel_refl.
Qed.

Lemma identity_inr hook t name t' s s' :
  identity hook t name s = (inr t', s') →
  t' = mkTensor (t_op t' +:+ ":" +:+ pretty 0) (t_op t') false (st_device s)
  ∧ create_op hook "Identity" [t] 1 name s
    = (inr (t_op t', [t']), s').
Proof.
  unfold identity. intros H.
  apply bind_inr in H as ([nm outs] & s1 & Hcreate & H).
  pose proof (create_op_inr _ _ _ _ _ _ _ _ Hcreate) as (_ & Houts & _).
  cbn [fst snd] in Houts. subst outs. cbn in H.
  apply ret_inr in H as [-> ->]. by split.
Qed.

(** The constructor that hands the new operation to no context. *)
Lemma identity_unhooked_spec : identity_spec (identity (λ _, mret tt)).
Proof.
  intros t name s t' s' Hdeps H.
  apply identity_inr in H as [_ H].
  apply create_op_inr in H
    as (Hfresh & _ & s2 & Hops & Hctx & Hdeps2 & Hdev & _ & Hend).
  cbn [fst snd] in *.
  assert (s' = s2) as ->.
  { destruct (st_context s); [done|]. by apply ret_inr in Hend as [_ ->]. }
  split; [by eapply evolves_but_insert|].
  split; [done|]. eexists _, t. rewrite Hops, lookup_insert_eq.
  split; [done|]. cbn. repeat split; try done. by left.
Qed.

End Creating.

(** ** No nesting *)

Section Nesting.

Variable identity : Tensor → string → M Tensor.

Lemma AddOp_body_inr_untagged outer_AddInnerOp op u s s' :
  AddOp_body identity outer_AddInnerOp op s = (inr u, s') →
  ¬ is_tagged s op.
Proof.
  unfold AddOp_body. intros H (o' & Hop' & Htag).
  apply bind_inr in H as (self & s0 & [-> [outer Hctx]]%get_self_inr & H).
  apply bind_inr in H as (o & s0 & [-> Hop]%get_op_inr & H).
  apply bind_inr in H as (u1 & s1 & Hlog & H).
  apply bind_inr in H as (u2 & s2 & Hunsup & H).
  apply bind_inr in H as (u3 & s3 & [Href ->]%when_raise_inr & H).
  apply bind_inr in H as (u4 & s4 & [Hattr ->]%when_raise_inr & H).
  apply bool_decide_eq_false in Hattr. congruence.
Qed.

(** An enclosing compile context refuses an operation that an inner one
    has tagged. *)
Lemma AddInnerOp_rec_rejects n op s u s' :
  is_tagged s op → AddInnerOp_rec identity n op s ≠ (inr u, s').
Proof.
  intros Htag H. destruct n as [|n]; [done|].
  cbn [AddInnerOp_rec] in H.
  apply bind_inr in H as (u1 & s1 & Hbody & _).
  by eapply AddOp_body_inr_untagged.
Qed.

Lemma AddOp_with_inr op s s' :
  identity_spec identity →
  AddOp_with identity op s = (inr tt, s') →
  ∃ self o o' ids,
    st_context s = [self]
    ∧ st_ops s !! op = Some o
    ∧ st_ops s' !! op = Some o'
    ∧ evolves_but op s s'
    ∧ (_XLA_COMPILE_ATTR ∉ dom (op_attr o))
    ∧ existsb t_is_ref_dtype (op_inputs o) = false
    ∧ op_attr o' = insert _XLA_COMPILE_ATTR (_name self) (op_attr o)
    ∧ op_control_inputs o'
      = internal_control_inputs_of s self o
          ++ pivot_edge self (op_inputs o) (internal_control_inputs_of s self o)
          ++ ids
    ∧ Forall2 (made_pass_through s s')
              (omap (first_output_of s) (external_control_inputs_of s self o))
              ids
    ∧ length (op_inputs o') = length (op_inputs o)
    ∧ (∀ i t, op_inputs o !! i = Some t →
              ∃ r, op_inputs o' !! i = Some r ∧ resolves_to self t r)
    ∧ Forall (λ x, is_Some (st_ops s !! x)) (op_control_inputs o).
Proof.
  intros Hid H. unfold AddOp_with in H.
  apply bind_inr in H as (s0 & s1 & [-> ->]%get_inr & H).
  destruct (length (st_context s)) as [|n]; [done|].
  cbn [AddOp_rec] in H.
  eapply AddOp_body_inr; [exact Hid| |exact H].
  intros op' s0 u s0' Htag. by apply AddInnerOp_rec_rejects.
Qed.

End Nesting.

Section Hooked.

(** The constructor [AddOp] uses: it hands the new operation to the
    current context. *)
Lemma identity_hooked_spec : identity_spec (identity AddOp_pass_through).
Proof.
  intros t name s t' s' Hdeps H.
  apply identity_inr in H as [_ H].
  apply create_op_inr in H
    as (Hfresh & _ & s2 & Hops & Hctx & Hdeps2 & Hdev & _ & Hend).
  cbn [fst snd] in *.
  assert (Hev2 : evolves_but (t_op t') s s2) by by eapply evolves_but_insert.
  assert (Hop2 : st_ops s2 !! t_op t'
                 = Some (mkOperation "Identity" [t] (st_control_deps s)
                           (make_outputs (t_op t') (st_device s) 1) ∅
                           (ctx_id <$> st_context s) (st_device s))).
  { by rewrite Hops, lookup_insert_eq. }
  destruct (st_context s) as [|c chain] eqn:Hc.
  { subst s'. split; [done|]. split; [done|]. eexists _, t.
    split; [exact Hop2|]. cbn. rewrite Hdeps, Hc.
    split; [done|]. split; [done|]. split; [by left|]. by split. }
  apply (AddOp_with_inr _ _ _ _ identity_unhooked_spec) in Hend
    as (self & o & o' & ids & Hself & Hop & Hop' & Hev & _ & _ & _ & Hci
        & Hmade & Hlen & Hres & _).
  rewrite Hop2 in Hop. injection Hop as <-.
  rewrite Hctx in Hself. injection Hself as -> ->.
  rewrite Hdeps in Hci, Hmade.
  cbn in Hci, Hmade, Hlen, Hres. apply Forall2_nil_inv_l in Hmade as ->.
  destruct (Hres 0 t eq_refl) as (r & Hr & Hresolves).
  split; [by eapply evolves_but_trans|]. split; [done|].
  exists o', r. split; [done|].
  pose proof Hev as (Hshape & _).
  destruct (Hshape _ _ Hop2) as (o'' & Hop'' & (Hty & _ & Hcx) & _).
  assert (o'' = o') as -> by congruence.
  split; [done|]. split.
  { destruct (op_inputs o') as [|r0 [|r1 rs]]; try done.
    cbn in Hr. congruence. }
  split.
  { destruct Hresolves as [?|?]; [by left|right; eauto]. }
  split; [done|]. by rewrite Hc.
Qed.

End Hooked.

(** ** AddOp *)

Section AddOpFacts.

Lemma AddOp_receiver s self outer op :
  st_context s = self :: outer →
  AddOp op s
  = AddOp_body (identity AddOp_pass_through)
      (AddInnerOp_rec (identity AddOp_pass_through) (length outer)) op s.
Proof.
  intros Hctx. unfold AddOp, AddOp_with. rewrite run_bind. cbn [get].
  by rewrite Hctx.
Qed.

(** Compiled regions do not nest: inside a compile context that is itself
    enclosed by a compile context, [AddOp] never completes. *)
Lemma AddOp_nested_fails s self c outer op u s' :
  st_context s = self :: c :: outer →
  AddOp op s ≠ (inr u, s').
Proof.
  intros Hctx H. destruct u.
  apply (AddOp_with_inr _ _ _ _ identity_hooked_spec) in H
    as (self' & _ & _ & _ & Hself & _).
  congruence.
Qed.

(** C8, as the code has it: an operation that already carries the
    cluster tag is refused before it is tagged again, and the graph is
    left as it was.  The error is the ValueError "cannot be nested",
    unless one of the operation's data inputs has a reference dtype: that
    check comes first and raises NotImplementedError. *)
Theorem AddOp_rejects_tagged
    (s : State) (self : XLACompileContext) (outer : list XLACompileContext)
    (op : string) (o : Operation) :
  st_context s = self :: outer →
  st_ops s !! op = Some o →
  _XLA_COMPILE_ATTR ∈ dom (op_attr o) →
  ∃ s1,
    AddOp op s
    = (inl (if existsb t_is_ref_dtype (op_inputs o)
            then NotImplementedError
                   ("Non-resource Variables are not supported inside XLA computations "
                      +:+ "(operator name: " +:+ op +:+ ")")
            else ValueError
                   ("XLA compiled computations cannot be nested, (operator "
                      +:+ "name: " +:+ op +:+ ")")), s1)
    ∧ st_ops s1 = st_ops s
    ∧ st_unfeedable s1 = st_unfeedable s
    ∧ st_unfetchable s1 = st_unfetchable s.
Proof.
  intros Hctx Hop Hattr. rewrite (AddOp_receiver _ _ _ _ Hctx).
  by eapply AddOp_body_tagged.
Qed.

Lemma AddOp_rejects_tagged_witness :
  ∃ s1,
    AddOp "tagged" example_state
    = (inl (ValueError
              "XLA compiled computations cannot be nested, (operator name: tagged)"),
       s1)
    ∧ st_ops s1 = st_ops example_state.
Proof.
  destruct (AddOp_rejects_tagged example_state cluster [] "tagged"
              (mkOperation "Relu" [tensor_of "x"] [] [tensor_of "tagged"]
                 {[ _XLA_COMPILE_ATTR := "cluster_1" ]} [0] ""))
    as (s1 & Hrun & Hops & _).
  - reflexivity.
  - reflexivity.
  - vm_compute. done.
  - exists s1. split; [exact Hrun|exact Hops].
Defined.

(** C8 as the specification words it fails for a tagged operation that
    reads a reference-typed value: the error is not a ValueError. *)
Lemma AddOp_tagged_ref_not_ValueError :
  is_tagged example_state "tagged_ref"
  ∧ (∃ msg s', AddOp "tagged_ref" example_state
               = (inl (NotImplementedError msg), s'))
  ∧ ∀ msg s', AddOp "tagged_ref" example_state ≠ (inl (ValueError msg), s').
Proof.
  split; [|split].
  - eexists. split; [reflexivity|]. vm_compute. done.
  - eexists _, _. vm_compute. reflexivity.
  - intros msg s'. vm_compute. discriminate.
Qed.

(** C7, as the code has it.  When [AddOp] has completed, the receiver is
    a lone context and the control inputs of the operation are, in order:
    its internal control inputs; the pivot, when the operation has no data
    input and no internal control input; and one pass-through per external
    control input that has an output, a new Identity operation inside this
    context that reads that output.  So every control input that remains
    is internal to the context or is the pivot, and of the external
    control inputs only the pivot can remain. *)
Theorem AddOp_control_inputs (op : string) (s s' : State) :
  AddOp op s = (inr tt, s') →
  ∃ self o o' ids,
    st_context s = [self]
    ∧ st_ops s !! op = Some o
    ∧ st_ops s' !! op = Some o'
    ∧ op_control_inputs o'
      = internal_control_inputs_of s self o
          ++ pivot_edge self (op_inputs o) (internal_control_inputs_of s self o)
          ++ ids
    ∧ Forall2 (made_pass_through s s')
              (omap (first_output_of s) (external_control_inputs_of s self o))
              ids
    ∧ (∀ x, x ∈ op_control_inputs o' →
            is_internal_input s' self x = true ∨ x = _pivot self)
    ∧ (∀ x, x ∈ external_control_inputs_of s self o →
            x ∈ op_control_inputs o' → x = _pivot self).
Proof.
  intros H.
  apply (AddOp_with_inr _ _ _ _ identity_hooked_spec) in H
    as (self & o & o' & ids & Hself & Hop & Hop' & Hev & _ & _ & _ & Hci
        & Hmade & _ & _ & Hall).
  exists self, o, o', ids.
  split; [done|]. split; [done|]. split; [done|]. split; [done|].
  split; [done|].
  assert (Hremain : ∀ x, x ∈ op_control_inputs o' →
            is_internal_input s' self x = true ∨ x = _pivot self).
  { intros x. rewrite Hci, !elem_of_app. intros [Hx|[Hx|Hx]].
    - left. apply list_elem_of_In, List.filter_In in Hx as [_ Hx].
      unfold is_internal_input in Hx.
      destruct (st_ops s !! x) as [ox|] eqn:Ex; [|done].
      rewrite (is_internal_input_evolves op s s' self self); eauto.
      unfold is_internal_input. by rewrite Ex.
    - right. unfold pivot_edge in Hx.
      destruct (op_inputs o); [|by apply elem_of_nil in Hx].
      destruct (internal_control_inputs_of s self o);
        [|by apply elem_of_nil in Hx].
      by apply list_elem_of_singleton in Hx.
    - left. apply list_elem_of_lookup in Hx as [k Hk].
      destruct (Forall2_lookup_r _ _ _ _ _ Hmade Hk)
        as (t & _ & _ & oi & r & Hoi & _ & _ & _ & _ & Hcx).
      unfold is_internal_input. rewrite Hoi, Hcx, Hself. cbn.
      by rewrite decide_True. }
  split; [done|].
  intros x Hext Hx. destruct (Hremain x Hx) as [Hint|Hpivot]; [|done].
  apply list_elem_of_In, List.filter_In in Hext as [Hin Hext].
  apply negb_true_iff in Hext.
  rewrite (is_internal_input_evolves op s s' self self) in Hint;
    [congruence|done|done|].
  rewrite Forall_forall in Hall. apply Hall. by apply list_elem_of_In.
Qed.

Lemma AddOp_control_inputs_witness :
  AddOp "b" example_state = (inr tt, (AddOp "b" example_state).2)
  ∧ ∃ self o o' ids,
      st_context example_state = [self]
      ∧ st_ops example_state !! "b" = Some o
      ∧ st_ops (AddOp "b" example_state).2 !! "b" = Some o'
      ∧ op_control_inputs o'
        = internal_control_inputs_of example_state self o
            ++ pivot_edge self (op_inputs o)
                 (internal_control_inputs_of example_state self o)
            ++ ids.
Proof.
  assert (H : AddOp "b" example_state
              = (inr tt, (AddOp "b" example_state).2))
    by (vm_compute; reflexivity).
  split; [exact H|].
  destruct (AddOp_control_inputs "b" example_state _ H)
    as (self & o & o' & ids & H1 & H2 & H3 & H4 & _).
  exists self, o, o', ids. exact (conj H1 (conj H2 (conj H3 H4))).
Defined.

(** C7 as the specification words it fails for an operation without data
    input whose control inputs, all external, include the pivot: the
    pivot was created outside the context, it is stripped with the others
    and then added again, so a control edge that crosses the boundary
    remains. *)
Lemma AddOp_pivot_edge_remains :
  ∃ s' o o',
    AddOp "a" example_state = (inr tt, s')
    ∧ st_ops example_state !! "a" = Some o
    ∧ st_ops s' !! "a" = Some o'
    ∧ "cluster/pivot" ∈ external_control_inputs_of example_state cluster o
    ∧ "cluster/pivot" ∈ op_control_inputs o'
    ∧ is_internal_input s' cluster "cluster/pivot" = false.
Proof.
  eexists _, _, _. split; [vm_compute; reflexivity|].
  split; [reflexivity|]. split; [vm_compute; reflexivity|].
  split; [|split].
  - apply list_elem_of_In. vm_compute. auto.
  - apply list_elem_of_In. vm_compute. auto.
  - vm_compute. reflexivity.
Qed.

(** C6: an operation without data input, none of whose control inputs
    is internal to the context, has a control input on the pivot of the
    context once [AddOp] has completed. *)
Theorem AddOp_pivot_edge
    (op : string) (s s' : State) (self : XLACompileContext)
    (outer : list XLACompileContext) (o : Operation) :
  AddOp op s = (inr tt, s') →
  st_context s = self :: outer →
  st_ops s !! op = Some o →
  op_inputs o = [] →
  internal_control_inputs_of s self o = [] →
  ∃ o', st_ops s' !! op = Some o' ∧ _pivot self ∈ op_control_inputs o'.
Proof.
  intros H Hctx Hop Hin Hint.
  apply (AddOp_with_inr _ _ _ _ identity_hooked_spec) in H
    as (self0 & o0 & o' & ids & Hself & Hop0 & Hop' & _ & _ & _ & _ & Hci & _).
  assert (self0 = self) as -> by congruence.
  assert (o0 = o) as -> by congruence.
  exists o'. split; [done|].
  rewrite Hci, Hint, Hin. cbn. apply list_elem_of_here.
Qed.

Lemma AddOp_pivot_edge_witness :
  ∃ o', st_ops (AddOp "a" example_state).2 !! "a" = Some o'
        ∧ "cluster/pivot" ∈ op_control_inputs o'.
Proof.
  apply (AddOp_pivot_edge "a" example_state _ cluster []
           (mkOperation "NoOp" [] ["cluster/pivot"; "x"; "y"] [] ∅ [0] "")).
  - vm_compute. reflexivity.
  - reflexivity.
  - reflexivity.
  - reflexivity.
  - vm_compute. reflexivity.
Defined.

End AddOpFacts.

(** ** Operations that AddOp accepts *)

Section Accepting.

Lemma run_modify_bind {B} f (k : unit → M B) s :
  (modify f ≫= k) s = k tt (f s).
Proof. reflexivity. Qed.

Lemma run_ret_bind {A B} (a : A) (k : A → M B) s : (mret a ≫= k) s = k a s.
Proof. reflexivity. Qed.

Lemma AddValue_self_run val s :
  AddValue_self val s
  = (inr (AddValue (st_context s) val).1,
     set_st_context (λ _, (AddValue (st_context s) val).2) s).
Proof.
  unfold AddValue_self. rewrite run_bind. cbn [get].
  by destruct (AddValue (st_context s) val).
Qed.

Lemma resolve_input_ok op k s o :
  st_ops s !! op = Some o →
  k < length (op_inputs o) →
  ∃ s' o',
    resolve_input op k s = (inr tt, s')
    ∧ st_ops s' !! op = Some o'
    ∧ length (op_inputs o') = length (op_inputs o).
Proof.
  intros Hop Hk. unfold resolve_input.
  rewrite (run_bind_ok _ _ _ _ _ (run_get_op _ _ _ Hop)).
  destruct (lookup_lt_is_Some_2 _ _ Hk) as [x Hx]. rewrite Hx.
  rewrite (run_bind_ok _ _ _ _ _ (AddValue_self_run _ _)).
  destruct (bool_decide ((AddValue (st_context s) x).1 ≠ x)).
  - eexists _, _. split; [reflexivity|].
    cbn [st_ops set_st_ops set_st_context]. rewrite lookup_alter_eq, Hop.
    split; [done|]. cbn. by rewrite length_insert.
  - eexists _, o. split; [reflexivity|]. split; [done|done].
Qed.

Lemma resolve_inputs_ok op n : ∀ k s o,
  st_ops s !! op = Some o →
  k + n ≤ length (op_inputs o) →
  ∃ l s', mapM (resolve_input op) (seq k n) s = (inr l, s').
Proof.
  induction n as [|n IH]; intros k s o Hop Hk.
  - eexists _, _. reflexivity.
  - destruct (resolve_input_ok op k s o Hop) as (s1 & o1 & Hrun & Hop1 & Hlen);
      [lia|].
    destruct (IH (S k) s1 o1 Hop1) as (l & s2 & Hrest); [lia|].
    exists (tt :: l), s2. cbn [seq mapM].
    rewrite (run_bind_ok _ _ _ _ _ Hrun).
    by rewrite (run_bind_ok _ _ _ _ _ Hrest).
Qed.

Lemma _RemoveExternalControlEdges_nil op s self outer o :
  st_context s = self :: outer →
  st_ops s !! op = Some o →
  op_control_inputs o = [] →
  ∃ s', _RemoveExternalControlEdges op s = (inr ([], []), s').
Proof.
  intros Hctx Hop Hci. unfold _RemoveExternalControlEdges.
  rewrite (run_bind_ok _ _ _ _ _ (run_get_self _ _ _ Hctx)).
  rewrite (run_bind_ok _ _ _ _ _ (run_get_op _ _ _ Hop)).
  rewrite Hci. eexists. reflexivity.
Qed.

(** In a lone context [AddOp] completes on an operation that has no
    control input, no tag and no reference-typed data input: a new
    operation created with no control dependency pending. *)
Lemma AddOp_with_ok identity op s c o :
  st_context s = [c] →
  st_ops s !! op = Some o →
  op_control_inputs o = [] →
  _XLA_COMPILE_ATTR ∉ dom (op_attr o) →
  existsb t_is_ref_dtype (op_inputs o) = false →
  ∃ s', AddOp_with identity op s = (inr tt, s').
Proof.
  intros Hctx Hop Hci Hattr Href.
  unfold AddOp_with. rewrite run_bind. cbn [get]. rewrite Hctx.
  cbn [length AddOp_rec]. unfold AddOp_body.
  rewrite (run_bind_ok _ _ _ _ _ (run_get_self _ _ _ Hctx)).
  rewrite (run_bind_ok _ _ _ _ _ (run_get_op _ _ _ Hop)).
  destruct (screening_steps op o s)
    as (s2 & Hrun & Hops2 & _ & _ & _ & _ & _ & _ & Hctx2).
  apply bind_inr in Hrun as (u1 & s1 & Hlog & Hunsup).
  rewrite (run_bind_ok _ _ _ _ _ Hlog).
  rewrite (run_bind_ok _ _ _ _ _ Hunsup).
  rewrite Href, (bool_decide_eq_false_2 _ Hattr).
  cbn [when]. rewrite !run_ret_bind.
  unfold _set_attr, prevent_feeding, prevent_fetching, modify_op.
  rewrite !run_modify_bind.
  set (s7 := set_st_unfetchable _ _).
  rewrite Hctx in Hctx2. apply Forall2_cons_inv_l in Hctx2
    as (c2 & l2 & _ & ->%Forall2_nil_inv_l & Hc2).
  set (o7 := set_op_attr (insert _XLA_COMPILE_ATTR (_name c)) o).
  assert (Hop7 : st_ops s7 !! op = Some o7).
  { unfold s7. cbn [st_ops set_st_ops set_st_unfetchable set_st_unfeedable].
    by rewrite lookup_alter_eq, Hops2, Hop. }
  assert (Hctx7 : st_context s7 = [c2]) by done.
  destruct (_RemoveExternalControlEdges_nil op s7 c2 [] o7 Hctx7 Hop7 Hci)
    as (s8 & Hrem).
  rewrite (run_bind_ok _ _ _ _ _ Hrem).
  destruct (_RemoveExternalControlEdges_inr _ _ _ _ _ c2 o7 Hrem)
    as (_ & _ & _ & Hev78 & Hctx8 & Hop8); [by rewrite Hctx7|done|].
  rewrite (run_bind_ok _ _ _ _ _ (run_get_op _ _ _ Hop8)).
  cbn [op_inputs set_op_control_inputs o7 set_op_attr].
  assert (Hstage : ∃ u9 s9,
    match op_inputs o with
    | [] => _add_control_input op (_pivot c)
    | _ :: _ =>
        mapM (resolve_input op) (seq 0 (length (op_inputs o)));; mret tt
    end s8 = (inr u9, s9)).
  { destruct (op_inputs o) as [|t0 ts] eqn:Hin.
    - eexists _, _. reflexivity.
    - destruct (resolve_inputs_ok op (length (t0 :: ts)) 0 s8
                  (set_op_control_inputs (λ _, []) o7) Hop8)
        as (l & s9 & Hloop).
      { cbn [op_inputs set_op_control_inputs o7 set_op_attr].
        by rewrite Hin. }
      exists tt, s9. by rewrite (run_bind_ok _ _ _ _ _ Hloop). }
  destruct Hstage as (u9 & s9 & Hstage).
  rewrite (run_bind_ok _ _ _ _ _ Hstage).
  destruct (inputs_stage op c [] (set_op_control_inputs (λ _, []) o7)
              u9 s8 s9) as (Hev89 & o9 & Hop9 & _).
  { cbn [op_inputs set_op_control_inputs o7 set_op_attr].
    destruct (op_inputs o); exact Hstage. }
  { exact Hop8. }
  { done. }
  rewrite run_bind. cbn [mret M_ret].
  rewrite (run_bind_ok _ _ _ _ _ (run_get_op _ _ _ Hop9)).
  rewrite run_modify_bind.
  pose proof Hev89 as (_ & Hids9 & _).
  rewrite Hctx8, Hctx7 in Hids9.
  destruct (st_context s9) as [|c9 [|c9' l9]] eqn:Hctx9; try done.
  eexists. unfold to_outer.
  cbn [st_context set_st_context]. rewrite Hctx9. reflexivity.
Qed.

End Accepting.

(** ** Creating operations in a calm state *)

Section CalmCreation.

Lemma calm_evolves op s s' : evolves_but op s s' → calm s → calm s'.
Proof.
  intros (_ & Hids & _ & Hdeps & _) [Hnone|[[c Hc] Hd]].
  - left. rewrite Hnone in Hids. by destruct (st_context s').
  - right. split; [|congruence]. rewrite Hc in Hids.
    destruct (st_context s') as [|c' [|c'' l]]; try done. eauto.
Qed.

Lemma admits_evolves op s s' inputs :
  evolves_but op s s' → admits s inputs → admits s' inputs.
Proof.
  intros (_ & Hids & _) [Hnone|Href]; [|by right].
  left. rewrite Hnone in Hids. by destruct (st_context s').
Qed.

Lemma unique_name_run name s :
  unique_name name s
  = (inr (fresh_string_of_set name (st_names s ∪ dom (st_ops s))),
     set_st_names
       (λ names,
          {[fresh_string_of_set name (st_names s ∪ dom (st_ops s))]} ∪ names)
       s).
Proof. reflexivity. Qed.

(** In a calm state that admits the data inputs, [create_op] completes:
    the operation is new, of the requested type, and reads the data
    inputs it was given; no other operation is touched and the state stays
    calm. *)
Lemma create_op_ok type inputs n name s :
  calm s → admits s inputs →
  ∃ nm s' o',
    create_op AddOp type inputs n name s
    = (inr (nm, make_outputs nm (st_device s) n), s')
    ∧ st_ops s !! nm = None
    ∧ evolves_but nm s s'
    ∧ st_ops s' !! nm = Some o'
    ∧ op_type o' = type
    ∧ op_outputs o' = make_outputs nm (st_device s) n
    ∧ length (op_inputs o') = length inputs
    ∧ (∀ i t, inputs !! i = Some t → reads s o' i t).
Proof.
  intros Hcalm Hadm.
  set (nm := fresh_string_of_set name (st_names s ∪ dom (st_ops s))).
  set (o := mkOperation type inputs (st_control_deps s)
              (make_outputs nm (st_device s) n) ∅
              (ctx_id <$> st_context s) (st_device s)).
  set (s2 := set_st_ops (insert nm o)
               (set_st_names (λ names, {[nm]} ∪ names) s)).
  assert (Hfresh : st_ops s !! nm = None).
  { apply not_elem_of_dom. intros Hin.
    apply (fresh_string_of_set_fresh (st_names s ∪ dom (st_ops s)) name).
    by apply elem_of_union_r. }
  assert (Hop2 : st_ops s2 !! nm = Some o) by apply lookup_insert_eq.
  assert (Hev2 : evolves_but nm s s2) by by apply (evolves_but_insert nm o).
  assert (Hhook : ∃ s',
    match st_context s with
    | [] => mret tt
    | _ :: _ => AddOp nm
    end s2 = (inr tt, s')
    ∧ evolves_but nm s2 s'
    ∧ ∃ o', st_ops s' !! nm = Some o'
            ∧ op_type o' = type
            ∧ op_outputs o' = make_outputs nm (st_device s) n
            ∧ length (op_inputs o') = length inputs
            ∧ (∀ i t, inputs !! i = Some t → reads s o' i t)).
  { destruct Hcalm as [Hnone|[[c Hc] Hdeps]].
    - rewrite Hnone. exists s2. split; [done|].
      split; [apply evolves_but_refl|]. exists o. repeat split; try done.
      intros i t Hi. exists t. split; [done|by left].
    - rewrite Hc. destruct Hadm as [Hnone|Href]; [congruence|].
      assert (Hc2 : st_context s2 = [c]) by done.
      destruct (AddOp_with_ok (identity AddOp_pass_through) nm s2 c o)
        as (s' & Hrun); [done|done|exact Hdeps| |exact Href|].
      { cbn. rewrite dom_empty. apply not_elem_of_empty. }
      exists s'. split; [exact Hrun|].
      apply (AddOp_with_inr _ _ _ _ identity_hooked_spec) in Hrun
        as (self & o0 & o' & ids & Hself & Hop0 & Hop' & Hev & _ & _ & _ & _
            & _ & Hlen & Hres & _).
      assert (self = c) as -> by congruence.
      assert (o0 = o) as -> by congruence.
      split; [done|]. exists o'. split; [done|].
      pose proof Hev as (Hshape & _).
      destruct (Hshape _ _ Hop2) as (o'' & Hop'' & (Hty & Hout & _) & _).
      assert (o'' = o') as -> by congruence.
      split; [done|]. split; [done|]. split; [done|].
      intros i t Hi. destruct (Hres i t Hi) as (r & Hr & [Hname|Hrec]).
      + exists r. split; [done|by left].
      + exists r. split; [done|]. right. eauto. }
  destruct Hhook as (s' & Hrun & Hev & o' & Hrest).
  exists nm, s', o'. split.
  { unfold create_op. rewrite (run_bind_ok _ _ _ _ _ (unique_name_run _ _)).
    fold nm. rewrite run_bind. cbn [get]. rewrite run_modify_bind.
    cbn [st_context st_control_deps st_device set_st_names].
    fold o. fold s2. by rewrite (run_bind_ok _ _ _ _ _ Hrun). }
  split; [done|]. split; [by eapply evolves_but_trans|]. done.
Qed.

End CalmCreation.

(** ** The constructors in a calm state *)

Section CalmConstructors.

Lemma grows_refl s : grows s s.
Proof. split; [done|apply evolves_but_refl]. Qed.

Lemma grows_trans s1 s2 s3 : grows s1 s2 → grows s2 s3 → grows s1 s3.
Proof.
  intros [H12 E12] [H23 E23]. split; [eauto|by eapply evolves_but_trans].
Qed.

Lemma grows_fresh nm s s' :
  st_ops s !! nm = None → evolves_but nm s s' → grows s s'.
Proof.
  intros Hfresh Hev. split; [|by eapply evolves_but_fresh].
  intros x o Hx. destruct Hev as (Hops & _).
  destruct (Hops x o Hx) as (o' & Hx' & _ & Hsame).
  rewrite Hx', Hsame; [done|]. intros ->. congruence.
Qed.

Lemma grows_calm s s' : grows s s' → calm s → calm s'.
Proof. intros [_ Hev]. by apply (calm_evolves ""). Qed.

Lemma grows_admits s s' ts : grows s s' → admits s ts → admits s' ts.
Proof. intros [_ Hev]. by eapply admits_evolves. Qed.


Lemma grows_device s s' : grows s s' → st_device s' = st_device s.
Proof. by intros [_ (_ & _ & _ & _ & ?)]. Qed.


Lemma no_op_ok name s :
  calm s →
  ∃ nm s',
    control_flow_ops_no_op name s = (inr nm, s')
    ∧ grows s s'
    ∧ is_new_op s s' nm "NoOp".
Proof.
  intros Hcalm.
  destruct (create_op_ok "NoOp" [] 0 name s Hcalm)
    as (nm & s' & o' & Hrun & Hfresh & Hev & Hop' & Hty & _); [by right|].
  exists nm, s'. split.
  { unfold control_flow_ops_no_op, no_op.
    by rewrite (run_bind_ok _ _ _ _ _ Hrun). }
  split; [by eapply grows_fresh|]. split; [done|eauto].
Qed.

Lemma identity_ok t name s :
  calm s → admits s [t] →
  ∃ nm s' o',
    array_ops_identity t name s
    = (inr (mkTensor (nm +:+ ":0") nm false (st_device s)), s')
    ∧ grows s s'
    ∧ st_ops s !! nm = None
    ∧ st_ops s' !! nm = Some o'
    ∧ op_type o' = "Identity"
    ∧ op_outputs o' = [mkTensor (nm +:+ ":0") nm false (st_device s)]
    ∧ length (op_inputs o') = 1
    ∧ reads s o' 0 t.
Proof.
  intros Hcalm Hadm.
  destruct (create_op_ok "Identity" [t] 1 name s Hcalm Hadm)
    as (nm & s' & o' & Hrun & Hfresh & Hev & Hop' & Hty & Hout & Hlen & Hreads).
  exists nm, s', o'. split.
  { unfold array_ops_identity, identity.
    by rewrite (run_bind_ok _ _ _ _ _ Hrun). }
  split; [by eapply grows_fresh|]. repeat split; try done. by apply Hreads.
Qed.

Lemma with_device_run {A} d (m : M A) s a s1 :
  m (set_st_device (λ _, d) s) = (inr a, s1) →
  with_device d m s = (inr a, set_st_device (λ _, st_device s) s1).
Proof.
  intros H. unfold with_device. rewrite run_bind. cbn [get].
  unfold try_finally. rewrite run_modify_bind, H. reflexivity.
Qed.

(** [with ops.device(t.device): array_ops.identity(t)] *)
Lemma identity_on_device_ok t s :
  calm s → admits s [t] →
  ∃ t' s',
    with_device (t_device t) (array_ops_identity t "Identity") s
    = (inr t', s')
    ∧ grows s s'
    ∧ wraps s s' (PyTensor t) t'.
Proof.
  intros Hcalm Hadm.
  set (sd := set_st_device (λ _, t_device t) s).
  destruct (identity_ok t "Identity" sd)
    as (nm & s1 & o' & Hrun & [Hun Hev] & Hfresh & Hop' & Hty & Hout & Hlen
        & Hreads); [done|done|].
  eexists _, _. split; [by apply with_device_run|].
  split; [split|].
  - done.
  - destruct Hev as (Hops & Hids & Hone & Hdeps & Hdev).
    repeat split; try done.
  - split; [done|]. exists o'.
    split; [done|]. split; [done|]. split; [done|]. split; [done|].
    intros tv [= <-]. split; [exact Hreads|done].
Qed.

Lemma convert_to_tensor_ok v s :
  calm s → convertible v → leaves_admitted s v →
  ∃ t s',
    ops_convert_to_tensor v s = (inr t, s')
    ∧ grows s s'
    ∧ admits s' [t]
    ∧ (∀ t0, v = PyTensor t0 → t = t0).
Proof.
  intros Hcalm [ts Hts] Hadm. specialize (Hadm ts Hts).
  assert (Hconst : ∃ t s',
            (create_op AddOp "Const" [] 1 "Const" ≫= first_output) s
            = (inr t, s') ∧ grows s s' ∧ admits s' [t]).
  { destruct (create_op_ok "Const" [] 1 "Const" s Hcalm)
      as (nm & s' & o' & Hrun & Hfresh & Hev & _); [by right|].
    eexists _, s'. split; [by rewrite (run_bind_ok _ _ _ _ _ Hrun)|].
    split; [by eapply grows_fresh|]. by right. }
  assert (Hpack : ∃ t s',
            (create_op AddOp "Pack" ts 1 "packed" ≫= first_output) s
            = (inr t, s') ∧ grows s s' ∧ admits s' [t]).
  { destruct (create_op_ok "Pack" ts 1 "packed" s Hcalm Hadm)
      as (nm & s' & o' & Hrun & Hfresh & Hev & _).
    eexists _, s'. split; [by rewrite (run_bind_ok _ _ _ _ _ Hrun)|].
    split; [by eapply grows_fresh|]. by right. }
  unfold ops_convert_to_tensor, convert_to_tensor.
  destruct v; try done.
  - destruct Hconst as (t & s' & ? & ? & ?). exists t, s'. split; [done|]. split; [done|]. split; [done|]. intros ? [=].
  - destruct Hconst as (t & s' & ? & ? & ?). exists t, s'. split; [done|]. split; [done|]. split; [done|]. intros ? [=].
  - rewrite Hts. destruct ts as [|t1 ts'].
    + destruct Hconst as (t & s' & ? & ? & ?). exists t, s'. split; [done|]. split; [done|]. split; [done|]. intros ? [=].
    + destruct Hpack as (t & s' & ? & ? & ?). exists t, s'. split; [done|]. split; [done|]. split; [done|]. intros ? [=].
  - rewrite Hts. destruct ts as [|t1 ts'].
    + destruct Hconst as (t0 & s' & ? & ? & ?). exists t0, s'. split; [done|]. split; [done|]. split; [done|]. intros ? [=].
    + destruct Hpack as (t0 & s' & ? & ? & ?). exists t0, s'. split; [done|]. split; [done|]. split; [done|]. intros ? [=].
  - injection Hts as <-. exists t, s.
    split; [done|]. split; [apply grows_refl|]. split; [done|].
    by intros t0 [= ->].
Qed.

End CalmConstructors.

(** ** AddOp is the method its own operations go through *)

Section Unfolding.

Lemma bind_ext {A B} (m : M A) (k1 k2 : A → M B) s :
  (∀ a s', m s = (inr a, s') → k1 a s' = k2 a s') →
  (m ≫= k1) s = (m ≫= k2) s.
Proof.
  intros H. rewrite !run_bind. destruct (m s) as [[e|a] s'] eqn:E; [done|].
  by apply H.
Qed.

Lemma bind_ext_both {A B} (m1 m2 : M A) (k1 k2 : A → M B) s :
  m1 s = m2 s →
  (∀ a s', m2 s = (inr a, s') → k1 a s' = k2 a s') →
  (m1 ≫= k1) s = (m2 ≫= k2) s.
Proof.
  intros H1 H2. rewrite !run_bind, H1.
  destruct (m2 s) as [[e|a] s'] eqn:E; [done|]. by apply H2.
Qed.

Lemma bind_ext_l {A B} (m1 m2 : M A) (k : A → M B) s :
  m1 s = m2 s → (m1 ≫= k) s = (m2 ≫= k) s.
Proof. intros H. by rewrite !run_bind, H. Qed.

(** A tagged operation is refused before the constructor or the
    enclosing context comes into play. *)
Lemma AddOp_body_tagged_ext idA outA idB outB op s :
  is_tagged s op →
  AddOp_body idA outA op s = AddOp_body idB outB op s.
Proof.
  intros (o & Hop & Hattr). unfold AddOp_body.
  apply bind_ext; intros self s0 [-> _]%get_self_inr.
  apply bind_ext; intros o0 s0 [-> Hop0]%get_op_inr.
  assert (o0 = o) as -> by congruence.
  apply bind_ext; intros u1 s1 _.
  apply bind_ext; intros u2 s2 _.
  apply bind_ext; intros u3 s3 _.
  rewrite bool_decide_eq_true_2 by done. reflexivity.
Qed.

Lemma AddInnerOp_rec_tagged_ext idA idB n op s :
  is_tagged s op →
  AddInnerOp_rec idA n op s = AddInnerOp_rec idB n op s.
Proof.
  intros Htag. destruct n as [|n]; [done|]. cbn [AddInnerOp_rec].
  rewrite !run_bind.
  rewrite (AddOp_body_tagged_ext idA (AddInnerOp_rec idA n)
             idB (AddInnerOp_rec idB n)) by done.
  destruct (AddOp_body idB _ op s) as [[e|u] s1] eqn:E; [done|].
  exfalso. by eapply AddOp_body_inr_untagged.
Qed.

Lemma _RemoveExternalControlEdges_inr_nil op internal external s s' o :
  _RemoveExternalControlEdges op s = (inr (internal, external), s') →
  st_ops s !! op = Some o →
  op_control_inputs o = [] →
  internal = [] ∧ external = []
  ∧ st_ops s' !! op = Some (set_op_control_inputs (λ _, []) o).
Proof.
  intros H Hop Hci.
  pose proof H as Hself. unfold _RemoveExternalControlEdges in Hself.
  apply bind_inr in Hself as (self & s0 & [-> [outer Hctx]]%get_self_inr & _).
  destruct (_RemoveExternalControlEdges_inr _ _ _ _ _ self o H)
    as (-> & -> & _ & _ & _ & Hop'); [by rewrite Hctx|done|].
  rewrite Hci in *. done.
Qed.

(** An operation without control input: [AddOp] builds no pass-through
    for it, so the constructor it was given does not matter. *)
Lemma AddOp_body_no_control_inputs idA idB n op s o :
  st_ops s !! op = Some o →
  op_control_inputs o = [] →
  AddOp_body idA (AddInnerOp_rec idA n) op s
  = AddOp_body idB (AddInnerOp_rec idB n) op s.
Proof.
  intros Hop Hci. unfold AddOp_body.
  apply bind_ext; intros self s0 [-> [outer Hctx]]%get_self_inr.
  apply bind_ext; intros o0 s0 [-> Hop0]%get_op_inr.
  assert (o0 = o) as -> by congruence.
  apply bind_ext; intros u1 s1 Hlog.
  apply bind_ext; intros u2 s2 Hunsup.
  apply bind_ext; intros u3 s3 [Href ->]%when_raise_inr.
  apply bind_ext; intros u4 s4 [Hattr ->]%when_raise_inr.
  apply bind_ext; intros u5 s5 ->%modify_inr.
  apply bind_ext; intros u6 s6 ->%modify_inr.
  apply bind_ext; intros u7 s7 ->%modify_inr.
  apply bind_ext; intros [internal external] s8 Hrem.
  apply (when_log_inr op) in Hlog as (_ & Hops1 & _).
  apply (when_modify_self_inr op) in Hunsup as (_ & Hops2).
  apply (_RemoveExternalControlEdges_inr_nil _ _ _ _ _
           (set_op_attr (insert _XLA_COMPILE_ATTR (_name self)) o))
    in Hrem as (-> & -> & Hop8').
  2:{ cbn [st_ops set_st_ops set_st_unfetchable set_st_unfeedable].
      by rewrite lookup_alter_eq, Hops2, Hops1, Hop. }
  2:{ done. }
  cbv beta iota.
  apply bind_ext; intros o8 s9 [-> Hop8]%get_op_inr.
  apply bind_ext; intros u9 s9 Hinputs.
  apply (inputs_stage op self [] o8) in Hinputs
    as (_ & o9 & Hop9 & _ & Hattr9 & _); [|done|].
  2:{ rewrite Hop8' in Hop8. by injection Hop8 as <-. }
  rewrite !run_ret_bind.
  apply bind_ext; intros o10 s11 [-> Hop10]%get_op_inr.
  rewrite !run_modify_bind.
  unfold to_outer. cbn [st_context set_st_context].
  destruct (_ <$> st_context s9) as [|c1 [|c2 rest]]; [done|done|].
  rewrite (AddInnerOp_rec_tagged_ext idA idB); [done|].
  exists o10. split; [done|].
  assert (o10 = o9) as -> by congruence.
  rewrite Hattr9. rewrite Hop8' in Hop8. injection Hop8 as <-.
  cbn. apply elem_of_dom. rewrite lookup_insert_eq. by eexists.
Qed.

(** With no control dependency pending the new Identity operation has no
    control input: the two constructors make the same operation. *)
Lemma identity_hook_ext idA idB t name s :
  st_control_deps s = [] →
  identity (AddOp_with idA) t name s = identity (AddOp_with idB) t name s.
Proof.
  intros Hdeps. unfold identity. apply bind_ext_l. unfold create_op.
  rewrite !(run_bind_ok _ _ _ _ _ (unique_name_run _ _)).
  rewrite !run_bind. cbn [get]. rewrite !run_modify_bind.
  apply bind_ext_l. cbn [st_context set_st_names].
  destruct (st_context s) as [|c chain] eqn:Hc; [done|].
  unfold AddOp_with. rewrite !run_bind. cbn [get].
  cbn [st_context set_st_ops set_st_names]. rewrite Hc.
  cbn [length AddOp_rec].
  eapply AddOp_body_no_control_inputs.
  - cbn [st_ops set_st_ops]. apply lookup_insert_eq.
  - cbn. exact Hdeps.
Qed.

End Unfolding.

(** Two constructors that make the same operation whenever no control
    dependency is pending are the same to [AddOp], which calls its
    constructor in that situation only. *)
Section SameConstructor.

Variables idA idB : Tensor → string → M Tensor.
Hypothesis same_identity :
  ∀ t name s, st_control_deps s = [] → idA t name s = idB t name s.
Hypothesis identity_keeps_deps :
  ∀ t name s t' s',
    st_control_deps s = [] → idA t name s = (inr t', s') →
    st_control_deps s' = [].

Lemma pass_throughs_ext external : ∀ s,
  st_control_deps s = [] →
  pass_throughs idA external s = pass_throughs idB external s.
Proof.
  induction external as [|x rest IH]; intros s Hdeps; cbn [pass_throughs];
    [reflexivity|].
  apply bind_ext; intros ox s0 [-> _]%get_op_inr.
  destruct (op_outputs ox) as [|t ts]; [by apply IH|].
  rewrite !run_bind, <- (same_identity t "Identity" s Hdeps).
  destruct (idA t "Identity" s) as [[e|t'] s1] eqn:E; [reflexivity|].
  apply bind_ext_l, IH. by eapply identity_keeps_deps.
Qed.

Lemma external_stage_ext op external s :
  match external with
  | [] => mret tt
  | _ :: _ =>
      ids ← with_control_dependencies_None_in_self
               (pass_throughs idA external);
      _add_control_inputs op ids
  end s
  = match external with
    | [] => mret tt
    | _ :: _ =>
        ids ← with_control_dependencies_None_in_self
                 (pass_throughs idB external);
        _add_control_inputs op ids
    end s.
Proof.
  destruct external as [|x external]; [reflexivity|].
  apply bind_ext_l. unfold with_control_dependencies_None_in_self.
  rewrite !run_bind. cbn [get]. unfold try_finally.
  rewrite !run_modify_bind.
  by rewrite pass_throughs_ext.
Qed.

Lemma AddOp_body_ext outA outB op s :
  (∀ s0, outA op s0 = outB op s0) →
  AddOp_body idA outA op s = AddOp_body idB outB op s.
Proof.
  intros Hout. unfold AddOp_body.
  apply bind_ext; intros self s0 _.
  apply bind_ext; intros o s1 _.
  apply bind_ext; intros u1 s2 _.
  apply bind_ext; intros u2 s3 _.
  apply bind_ext; intros u3 s4 _.
  apply bind_ext; intros u4 s5 _.
  apply bind_ext; intros u5 s6 _.
  apply bind_ext; intros u6 s7 _.
  apply bind_ext; intros u7 s8 _.
  apply bind_ext; intros [internal external] s9 _.
  cbv beta iota.
  apply bind_ext; intros o8 s10 _.
  apply bind_ext; intros u9 s11 _.
  apply bind_ext_both; [apply external_stage_ext|]; intros u10 s12 _.
  apply bind_ext; intros o10 s13 _.
  rewrite !run_modify_bind.
  unfold to_outer.
  destruct (st_context _) as [|c1 [|c2 chain]]; cbv beta iota;
    [reflexivity|reflexivity|].
  by rewrite Hout.
Qed.

Lemma AddInnerOp_rec_ext n : ∀ op s,
  AddInnerOp_rec idA n op s = AddInnerOp_rec idB n op s.
Proof.
  induction n as [|n IH]; intros op s; cbn [AddInnerOp_rec]; [reflexivity|].
  rewrite !run_bind.
  rewrite (AddOp_body_ext _ (AddInnerOp_rec idB n)) by apply IH.
  destruct (AddOp_body _ _ op s) as [[e|u] s1]; [reflexivity|].
  unfold to_outer.
  destruct (st_context s1) as [|c1 [|c2 chain]]; cbv beta iota;
    [reflexivity|reflexivity|].
  by rewrite IH.
Qed.

Lemma AddOp_with_ext op s : AddOp_with idA op s = AddOp_with idB op s.
Proof.
  unfold AddOp_with. rewrite !run_bind. cbn [get].
  destruct (length (st_context s)) as [|n]; cbn [AddOp_rec]; [reflexivity|].
  apply AddOp_body_ext. intros s0. apply AddInnerOp_rec_ext.
Qed.

Lemma AddInnerOp_with_ext op s :
  AddInnerOp_with idA op s = AddInnerOp_with idB op s.
Proof.
  unfold AddInnerOp_with. rewrite !run_bind. cbn [get].
  apply AddInnerOp_rec_ext.
Qed.

End SameConstructor.

Section Knot.

Lemma identity_AddOp t name s :
  st_control_deps s = [] →
  identity AddOp_pass_through t name s = identity AddOp t name s.
Proof.
  exact (identity_hook_ext (identity (λ _, mret tt))
           (identity AddOp_pass_through) t name s).
Qed.

Lemma identity_AddOp_pass_through_keeps_deps t name s t' s' :
  st_control_deps s = [] →
  identity AddOp_pass_through t name s = (inr t', s') →
  st_control_deps s' = [].
Proof.
  intros Hdeps H.
  apply identity_hooked_spec in H as [(_ & _ & _ & Hd & _) _]; [|done].
  by rewrite Hd.
Qed.

(** [AddOp] is the hook of the constructor it calls: the operations that
    [AddOp] creates go through [AddOp] itself, as in the source, where
    [array_ops.identity] hands its operation to the current context. *)
Lemma AddOp_unfold op s : AddOp op s = AddOp_with (identity AddOp) op s.
Proof.
  exact (AddOp_with_ext (identity AddOp_pass_through) (identity AddOp)
           identity_AddOp identity_AddOp_pass_through_keeps_deps op s).
Qed.

Lemma AddInnerOp_unfold op s :
  AddInnerOp op s = AddInnerOp_with (identity AddOp) op s.
Proof.
  exact (AddInnerOp_with_ext (identity AddOp_pass_through) (identity AddOp)
           identity_AddOp identity_AddOp_pass_through_keeps_deps op s).
Qed.

End Knot.

(** ** Flat outputs *)

Section FlatOutputs.

Lemma try_except_run_ok {A} (m : M A) handler s a s1 :
  m s = (inr a, s1) → try_except m handler s = (inr a, s1).
Proof. intros H. unfold try_except. by rewrite H. Qed.

Lemma mapM_cons_run {A B} (f : A → M B) x l s y s1 ys s2 :
  f x s = (inr y, s1) →
  mapM f l s1 = (inr ys, s2) →
  mapM f (x :: l) s = (inr (y :: ys), s2).
Proof.
  intros Hx Hl. cbn [mapM]. rewrite (run_bind_ok _ _ _ _ _ Hx).
  by rewrite (run_bind_ok _ _ _ _ _ Hl).
Qed.


Lemma leaves_admitted_grows s s' v :
  grows s s' → leaves_admitted s v → leaves_admitted s' v.
Proof. intros Hg Hadm ts Hts. eapply grows_admits; eauto. Qed.






End FlatOutputs.

(** ** Nested outputs *)

Section NestedOutputs.

Lemma try_except_inr {A} (m : M A) handler s a s' :
  (∀ e, ∀ s0 a0 s1, handler e s0 ≠ (inr a0, s1)) →
  try_except m handler s = (inr a, s') → m s = (inr a, s').
Proof.
  intros Hh. unfold try_except. destruct (m s) as [[e|a0] s1]; [|done].
  intros H. by apply Hh in H.
Qed.

(** A completed conversion only added operations, and what it returns
    is the graph value it was given or a value without reference dtype. *)
Lemma convert_to_tensor_inr v t s s' :
  ops_convert_to_tensor v s = (inr t, s') →
  grows s s' ∧ (v = PyTensor t ∨ t_is_ref_dtype t = false).
Proof.
  assert (Hcreate : ∀ type inputs name,
            (create_op AddOp type inputs 1 name ≫= first_output) s
            = (inr t, s') →
            grows s s' ∧ t_is_ref_dtype t = false).
  { intros type inputs name H.
    apply bind_inr in H as ([nm outs] & s1 & Hc & Hfirst).
    apply create_op_inr in Hc
      as (Hfresh & Houts & s2 & Hops & Hctx & Hdeps & Hdev & _ & Hend).
    cbn [fst snd] in *. subst outs. cbn in Hfirst.
    apply ret_inr in Hfirst as [-> ->]. split; [|done].
    apply (grows_fresh nm); [done|].
    eapply evolves_but_trans; [by eapply evolves_but_insert|].
    destruct (st_context s).
    - subst s1. apply evolves_but_refl.
    - apply (AddOp_with_inr _ _ _ _ identity_hooked_spec) in Hend
        as (_ & _ & _ & _ & _ & _ & _ & Hev & _). done. }
  unfold ops_convert_to_tensor, convert_to_tensor. intros H.
  destruct v; try done.
  - apply Hcreate in H as [? ?]. split; [done|by right].
  - apply Hcreate in H as [? ?]. split; [done|by right].
  - destruct (tensor_leaves (PyList l)) as [[|t1 ts]|]; [| |done];
      apply Hcreate in H as [? ?]; (split; [done|by right]).
  - destruct (tensor_leaves (PyTuple l)) as [[|t1 ts]|]; [| |done];
      apply Hcreate in H as [? ?]; (split; [done|by right]).
  - apply ret_inr in H as [-> ->]. split; [apply grows_refl|by left].
Qed.

Lemma non_flat_loop_inr os : ∀ acc r s s',
  non_flat_loop os acc s = (inr r, s') →
  Forall (λ v, ∀ x, v ≠ PyOperation x) os.
Proof.
  induction os as [|o rest IH]; intros acc r s s' H; [constructor|].
  cbn [non_flat_loop] in H.
  destruct o as [|z|str|l|l|d|t|x|id];
    try (constructor; [by intros ? [=]|];
         apply bind_inr in H as (t0 & s1 & _ & H);
         apply bind_inr in H as (t' & s2 & _ & H); by eapply IH).
  done.
Qed.

(** Before an operation is met, every element is converted and wrapped;
    a failed conversion is a ValueError. *)
Lemma non_flat_loop_operation pre x post : ∀ acc s,
  calm s →
  (∀ t, PyTensor t ∈ pre → admits s [t]) →
  ∃ msg s',
    non_flat_loop (pre ++ PyOperation x :: post) acc s
    = (inl (ValueError msg), s').
Proof.
  induction pre as [|v pre IH]; intros acc s Hcalm Hadm.
  - eexists _, _. reflexivity.
  - cbn [app non_flat_loop].
    assert (Hstep : ∃ msg s',
      (t ← try_except (ops_convert_to_tensor v)
             (λ e, raise (ValueError (not_convertible_message e)));
       t' ← with_device (t_device t) (array_ops_identity t "Identity");
       non_flat_loop (pre ++ PyOperation x :: post) (acc ++ [t'])) s
      = (inl (ValueError msg), s')).
    { rewrite run_bind. unfold try_except at 1.
      destruct (ops_convert_to_tensor v s) as [[e|t] s1] eqn:Hconv.
      { eexists _, _. reflexivity. }
      apply convert_to_tensor_inr in Hconv as [Hg1 Hv].
      assert (Hcalm1 : calm s1) by by eapply grows_calm.
      assert (Hadm1 : admits s1 [t]).
      { destruct Hv as [->|Href].
        - apply (grows_admits s s1); [done|]. apply Hadm.
          apply list_elem_of_here.
        - right. cbn. by rewrite Href. }
      destruct (identity_on_device_ok t s1 Hcalm1 Hadm1)
        as (t' & s2 & Hid & Hg2 & _).
      rewrite (run_bind_ok _ _ _ _ _ Hid).
      apply IH; [by eapply grows_calm|].
      intros t0 Ht0. apply (grows_admits s s2); [by eapply grows_trans|].
      apply Hadm. by apply list_elem_of_further. }
    destruct v; try exact Hstep.
    eexists _, _. reflexivity.
Qed.

(** C4, as the code has it.  With a side-effecting operation anywhere in
    the flattened structure, normalisation of nested outputs never
    succeeds; on success the list of operations is empty.  The error is a
    ValueError when the state is calm and admits the graph values met
    before the first operation (otherwise wrapping such a value in a
    pass-through can fail first, with the error of the context). *)
Theorem _postprocess_non_flat_outputs_operations
    (outputs : PyVal) (s : State) :
  (∀ x r s', PyOperation x ∈ nest_flatten outputs →
             _postprocess_non_flat_outputs outputs s ≠ (inr r, s'))
  ∧ (∀ ts ops s',
       _postprocess_non_flat_outputs outputs s = (inr (ts, ops), s') →
       ops = [])
  ∧ (∀ pre x post,
       nest_flatten outputs = pre ++ PyOperation x :: post →
       calm s →
       (∀ t, PyTensor t ∈ pre → admits s [t]) →
       ∃ msg s',
         _postprocess_non_flat_outputs outputs s
         = (inl (ValueError msg), s')).
Proof.
  split; [|split].
  - intros x r s' Hin H. unfold _postprocess_non_flat_outputs in H.
    apply bind_inr in H as (ts & s1 & Hloop & _).
    apply non_flat_loop_inr in Hloop.
    rewrite Forall_forall in Hloop. by apply (Hloop _ Hin x).
  - intros ts ops s' H. unfold _postprocess_non_flat_outputs in H.
    apply bind_inr in H as (ts' & s1 & _ & H).
    by apply ret_inr in H as [[= _ ->] _].
  - intros pre x post Hflat Hcalm Hadm.
    destruct (non_flat_loop_operation pre x post [] s Hcalm Hadm)
      as (msg & s' & Hrun).
    exists msg, s'. unfold _postprocess_non_flat_outputs.
    rewrite Hflat. by rewrite (run_bind_raise _ _ _ _ _ Hrun).
Qed.

Lemma _postprocess_non_flat_outputs_operations_witness :
  ∃ msg s',
    _postprocess_non_flat_outputs
      (PyList [PyList [PyTensor (tensor_of "x")]; PyList [PyOperation "y"]])
      example_state
    = (inl (ValueError msg), s').
Proof.
  destruct (_postprocess_non_flat_outputs_operations
              (PyList [PyList [PyTensor (tensor_of "x")];
                       PyList [PyOperation "y"]]) example_state)
    as (_ & _ & H).
  apply (H [PyTensor (tensor_of "x")] "y" []).
  - reflexivity.
  - right. split; [by exists cluster|reflexivity].
  - intros t Ht. right.
    apply list_elem_of_singleton in Ht. injection Ht as ->. reflexivity.
Defined.

(** C4 as the specification words it fails inside a compile context
    when a reference-typed value comes before the operation: the
    pass-through of that value is refused by [AddOp], and the error is
    NotImplementedError. *)
Lemma _postprocess_non_flat_outputs_ref_first :
  PyOperation "y"
    ∈ nest_flatten (PyList [PyList [PyTensor (ref_tensor_of "v")];
                            PyList [PyOperation "y"]])
  ∧ ∃ msg s',
      _postprocess_non_flat_outputs
        (PyList [PyList [PyTensor (ref_tensor_of "v")];
                 PyList [PyOperation "y"]]) example_state
      = (inl (NotImplementedError msg), s').
Proof.
  split.
  - apply list_elem_of_In. vm_compute. auto.
  - eexists _, _. vm_compute. reflexivity.
Qed.

End NestedOutputs.

(** ** The compile driver *)

Section Driver.



Lemma XLACompileContext__init___run name pivot s :
  XLACompileContext__init__ name pivot s
  = (inr (mkContext (st_next_ctx s) name pivot [] ∅ ∅), set_st_next_ctx S s).
Proof. reflexivity. Qed.




(** On the path where the computation returns, the flag is put back. *)
Example _compile_internal_return_restores_use_resource :
  ∃ r s',
    _compile_internal (λ _, mret (PyInt 7)) PyNone example_state_outside
    = (inr r, s')
    ∧ st_use_resource s' = st_use_resource example_state_outside
    ∧ st_skip_summary s' = st_skip_summary example_state_outside
    ∧ st_context s' = st_context example_state_outside.
Proof.
  eexists _, _. split; [vm_compute; reflexivity|]. cbn. by repeat split.
Qed.

(** C2: the driver sets the use-resource flag before the computation
    runs, but puts the saved value back only on the path where the
    computation returns.  On [example_state_outside], where the flag is
    off, the computation sees the flag on; it raises, and the driver
    leaves with its error, with the context exited and the summary toggle
    put back by their [try/finally], and with the flag still on: not the
    value it had when the driver was called. *)
Theorem _compile_internal_raise_keeps_use_resource :
  st_use_resource example_state_outside = false
  ∧ ∃ s',
      _compile_internal flag_reporting_computation PyNone
        example_state_outside
      = (inl (UserError "use_resource is on"), s')
      ∧ st_use_resource s' = true
      ∧ st_use_resource s' ≠ st_use_resource example_state_outside
      ∧ st_skip_summary s' = st_skip_summary example_state_outside
      ∧ st_context s' = st_context example_state_outside.
Proof.
  split; [reflexivity|].
  eexists. split; [vm_compute; reflexivity|].
  cbn. by repeat split.
Qed.

End Driver.

(** ** Steady runs *)

Section Steady.

Lemma ctx_steady_refl c : ctx_steady c c.
Proof. by repeat split. Qed.

Lemma ctx_steady_trans c1 c2 c3 :
  ctx_steady c1 c2 → ctx_steady c2 c3 → ctx_steady c1 c3.
Proof.
  intros (Hi1 & Hn1 & Hp1 & Hv1 & Hu1) (Hi2 & Hn2 & Hp2 & Hv2 & Hu2).
  split; [congruence|]. split; [congruence|]. split; [congruence|].
  split; [by etrans|by etrans].
Qed.

Lemma chain_steady_refl chain : Forall2 ctx_steady chain chain.
Proof. induction chain; constructor; [apply ctx_steady_refl|done]. Qed.

Lemma chain_steady_trans l1 : ∀ l2 l3,
  Forall2 ctx_steady l1 l2 → Forall2 ctx_steady l2 l3 →
  Forall2 ctx_steady l1 l3.
Proof.
  induction l1 as [|c1 l1 IH]; intros l2 l3 H12 H23.
  - apply Forall2_nil_inv_l in H12 as ->.
    by apply Forall2_nil_inv_l in H23 as ->.
  - apply Forall2_cons_inv_l in H12 as (c2 & l2' & Hc12 & Hl12 & ->).
    apply Forall2_cons_inv_l in H23 as (c3 & l3' & Hc23 & Hl23 & ->).
    constructor; [by eapply ctx_steady_trans|by eapply IH].
Qed.


Lemma steady_refl s : steady s s.
Proof.
  split; [apply chain_steady_refl|]. split; [|done].
  intros x o Hx. exists o. split; [done|apply same_shape_refl].
Qed.

Lemma steady_trans s1 s2 s3 : steady s1 s2 → steady s2 s3 → steady s1 s3.
Proof.
  intros (Hc1 & Ho1 & Hn1 & Hf1 & Hg1 & Hl1 & Hd1 & Hv1 & Hu1 & Hk1 & Hr1)
         (Hc2 & Ho2 & Hn2 & Hf2 & Hg2 & Hl2 & Hd2 & Hv2 & Hu2 & Hk2 & Hr2).
  split; [by eapply chain_steady_trans|]. split.
  { intros x o Hx. destruct (Ho1 x o Hx) as (o' & Hx' & Hs').
    destruct (Ho2 x o' Hx') as (o'' & Hx'' & Hs'').
    exists o''. split; [done|by eapply same_shape_trans]. }
  split; [by etrans|]. split; [by etrans|]. split; [by etrans|].
  split; [by etrans|]. split; [congruence|]. split; [congruence|].
  split; [congruence|]. split; [congruence|]. auto.
Qed.

(** A step that leaves the graph, the chain and the scopes alone. *)
Lemma steady_marks s s' :
  st_ops s' = st_ops s → st_context s' = st_context s →
  st_control_deps s' = st_control_deps s → st_device s' = st_device s →
  st_use_resource s' = st_use_resource s →
  st_skip_summary s' = st_skip_summary s →
  st_names s ⊆ st_names s' →
  st_unfeedable s ⊆ st_unfeedable s' →
  st_unfetchable s ⊆ st_unfetchable s' →
  st_log s `prefix_of` st_log s' →
  steady s s'.
Proof.
  intros Ho Hc Hd Hv Hu Hk Hn Hf Hg Hl.
  split; [rewrite Hc; apply chain_steady_refl|]. split.
  { intros x o Hx. exists o. rewrite Ho. split; [done|apply same_shape_refl]. }
  do 8 (split; [done|]). unfold reportable. by rewrite Hc, Ho.
Qed.

Lemma steady_modify_op op f s :
  (∀ o, same_shape o (f o)) →
  steady s (set_st_ops (alter f op) s).
Proof.
  intros Hf. split; [apply chain_steady_refl|]. split.
  { intros x o Hx. cbn. destruct (decide (x = op)) as [->|Hne].
    - exists (f o). by rewrite lookup_alter_eq, Hx.
    - exists o. rewrite lookup_alter_ne by done.
      split; [done|apply same_shape_refl]. }
  do 8 (split; [done|]). unfold reportable. cbn.
  destruct (st_context s) as [|c outer]; [done|].
  intros H. eapply Forall_impl; [done|].
  intros x. by rewrite lookup_alter_is_Some.
Qed.

Lemma steady_insert nm o s :
  st_ops s !! nm = None →
  steady s (set_st_ops (insert nm o) s).
Proof.
  intros Hfresh. split; [apply chain_steady_refl|]. split.
  { intros x ox Hx. exists ox. cbn. rewrite lookup_insert_ne by congruence.
    split; [done|apply same_shape_refl]. }
  do 8 (split; [done|]). unfold reportable. cbn.
  destruct (st_context s) as [|c outer]; [done|].
  intros H. eapply Forall_impl; [done|].
  intros x Hx. apply lookup_insert_is_Some'. by right.
Qed.

(** A step that only rewrites the contexts of the chain. *)
Lemma steady_context g s :
  Forall2 ctx_steady (st_context s) (g (st_context s)) →
  (reportable s → reportable (set_st_context g s)) →
  steady s (set_st_context g s).
Proof.
  intros Hc Hr. split; [done|]. split; [|done].
  intros x o Hx. exists o. split; [done|apply same_shape_refl].
Qed.

(** [with ops.device(d)], [with ops.control_dependencies(...)] and the
    call of a method of the enclosing context: what the run inside did
    is what the whole did. *)
Lemma steady_device_bracket d s s1 :
  steady (set_st_device (λ _, d) s) s1 →
  steady s (set_st_device (λ _, st_device s) s1).
Proof.
  intros (Hc & Ho & Hn & Hf & Hg & Hl & Hd & Hv & Hu & Hk & Hr).
  by repeat split.
Qed.

Lemma steady_deps_bracket f s s1 :
  steady (set_st_control_deps f s) s1 →
  steady s (set_st_control_deps (λ _, st_control_deps s) s1).
Proof.
  intros (Hc & Ho & Hn & Hf & Hg & Hl & Hd & Hv & Hu & Hk & Hr).
  by repeat split.
Qed.

Lemma steady_to_outer self outer s s1 :
  st_context s = self :: outer →
  steady (set_st_context (λ _, outer) s) s1 →
  steady s (set_st_context (λ outer', self :: outer') s1).
Proof.
  intros Hctx (Hc & Ho & Hn & Hf & Hg & Hl & Hd & Hv & Hu & Hk & Hr).
  split.
  { rewrite Hctx. cbn. constructor; [apply ctx_steady_refl|done]. }
  do 9 (split; [done|]).
  unfold reportable. rewrite Hctx. cbn.
  intros H. eapply Forall_impl; [done|].
  intros x [o Hx]. destruct (Ho x o Hx) as (o' & Hx' & _). by eexists.
Qed.

End Steady.

(** ** Well-behaved computations *)

Section WellBehaved.

Lemma wb_ret {A} (a : A) : well_behaved (mret a : M A).
Proof. intros s r s' [= <- <-]. apply steady_refl. Qed.

Lemma wb_raise {A} e : well_behaved (raise e : M A).
Proof. intros s r s' [= <- <-]. apply steady_refl. Qed.

Lemma wb_bind {A B} (m : M A) (k : A → M B) :
  well_behaved m → (∀ a, well_behaved (k a)) → well_behaved (m ≫= k).
Proof.
  intros Hm Hk s r s'. rewrite run_bind.
  destruct (m s) as [[e|a] s1] eqn:E.
  - intros [= <- <-]. by eapply Hm.
  - intros H. eapply steady_trans; [by eapply Hm|by eapply Hk].
Qed.

(** The same, with what is known of the first half at hand. *)
Lemma steady_bind {A B} (m : M A) (k : A → M B) s r s' :
  (m ≫= k) s = (r, s') →
  (∀ r1 s1, m s = (r1, s1) → steady s s1) →
  (∀ a s1, m s = (inr a, s1) → k a s1 = (r, s') → steady s1 s') →
  steady s s'.
Proof.
  rewrite run_bind. intros H Hm Hk.
  destruct (m s) as [[e|a] s1] eqn:E.
  - injection H as <- <-. by eapply Hm.
  - eapply steady_trans; [by eapply Hm|by eapply Hk].
Qed.

Lemma wb_get : well_behaved get.
Proof. intros s r s' [= <- <-]. apply steady_refl. Qed.

Lemma wb_modify f : (∀ s, steady s (f s)) → well_behaved (modify f).
Proof. intros Hf s r s' [= <- <-]. apply Hf. Qed.

Lemma wb_when b m : well_behaved m → well_behaved (when b m).
Proof. destruct b; [done|]. intros _. apply wb_ret. Qed.

Lemma wb_try_finally {A} (m : M A) cleanup :
  well_behaved m → well_behaved cleanup → well_behaved (try_finally m cleanup).
Proof.
  intros Hm Hc s r s'. unfold try_finally.
  destruct (m s) as [r1 s1] eqn:E1.
  destruct (cleanup s1) as [[e|u] s2] eqn:E2; intros [= <- <-];
    (eapply steady_trans; [by eapply Hm|by eapply Hc]).
Qed.

Lemma wb_try_except {A} (m : M A) handler :
  well_behaved m → (∀ e, well_behaved (handler e)) →
  well_behaved (try_except m handler).
Proof.
  intros Hm Hh s r s'. unfold try_except.
  destruct (m s) as [[e|a] s1] eqn:E.
  - intros H. eapply steady_trans; [by eapply Hm|by eapply Hh].
  - intros [= <- <-]. by eapply Hm.
Qed.

Lemma wb_mapM {A B} (f : A → M B) l :
  (∀ x, well_behaved (f x)) → well_behaved (mapM f l).
Proof.
  intros Hf. induction l as [|x l IH]; [apply wb_ret|].
  cbn [mapM]. apply wb_bind; [done|]. intros b.
  apply wb_bind; [done|]. intros bs. apply wb_ret.
Qed.

Lemma wb_get_op op : well_behaved (get_op op).
Proof.
  unfold get_op. apply wb_bind; [apply wb_get|]. intros s.
  destruct (st_ops s !! op); [apply wb_ret|apply wb_raise].
Qed.

Lemma wb_get_self : well_behaved get_self.
Proof.
  unfold get_self. apply wb_bind; [apply wb_get|]. intros s.
  destruct (st_context s); [apply wb_raise|apply wb_ret].
Qed.

Lemma wb_log level msg : well_behaved (log level msg).
Proof.
  apply wb_modify. intros s. apply steady_marks; try done.
  cbn. by apply prefix_app_r.
Qed.

Lemma wb_modify_op op f :
  (∀ o, same_shape o (f o)) → well_behaved (modify_op op f).
Proof. intros Hf. apply wb_modify. intros s. by apply steady_modify_op. Qed.

Lemma wb_with_device {A} d (m : M A) :
  well_behaved m → well_behaved (with_device d m).
Proof.
  intros Hm s r s'. unfold with_device. rewrite run_bind. cbn [get].
  unfold try_finally. rewrite run_modify_bind.
  destruct (m _) as [r1 s1] eqn:E. cbn. intros [= <- <-].
  eapply steady_device_bracket. by eapply Hm.
Qed.

Lemma wb_with_control_dependencies {A} deps (m : M A) :
  well_behaved m → well_behaved (with_control_dependencies deps m).
Proof.
  intros Hm s r s'. unfold with_control_dependencies.
  rewrite run_bind. cbn [get]. unfold try_finally. rewrite run_modify_bind.
  destruct (m _) as [r1 s1] eqn:E. cbn. intros [= <- <-].
  eapply steady_deps_bracket. by eapply Hm.
Qed.

Lemma wb_with_control_dependencies_None_in_self {A} (m : M A) :
  well_behaved m → well_behaved (with_control_dependencies_None_in_self m).
Proof.
  intros Hm s r s'. unfold with_control_dependencies_None_in_self.
  rewrite run_bind. cbn [get]. unfold try_finally. rewrite run_modify_bind.
  destruct (m _) as [r1 s1] eqn:E. cbn. intros [= <- <-].
  eapply steady_deps_bracket. by eapply Hm.
Qed.

Lemma wb_to_outer m : well_behaved m → well_behaved (to_outer m).
Proof.
  intros Hm s r s'. unfold to_outer.
  destruct (st_context s) as [|self [|c outer]] eqn:Hctx.
  - intros [= <- <-]. apply steady_refl.
  - intros [= <- <-]. apply steady_refl.
  - destruct (m _) as [r1 s1] eqn:E. intros [= <- <-].
    eapply steady_to_outer; [done|]. by eapply Hm.
Qed.

End WellBehaved.

(** ** The graph library and the context methods are well behaved *)

Create HintDb wb discriminated.

#[global] Hint Resolve wb_ret wb_raise wb_get wb_get_op wb_get_self wb_log
  wb_modify_op : wb.

(** One step of a proof that a computation is well behaved: a computation
    known to be, or else by the shape of the computation. *)
Ltac wb_step :=
  first
    [ solve [auto 3 with wb nocore]
    | apply wb_when | apply wb_to_outer
    | apply wb_with_device | apply wb_with_control_dependencies
    | apply wb_with_control_dependencies_None_in_self
    | apply wb_try_finally | apply wb_try_except; [|intros ?]
    | apply wb_mapM; intros ?
    | apply wb_bind; [|intros ?]
    | match goal with
      | |- well_behaved (match ?x with _ => _ end) => destruct x
      | |- well_behaved (if ?b then _ else _) => destruct b
      end ].

Ltac wb_auto := repeat wb_step.

Lemma same_shape_set_op_inputs f o : same_shape o (set_op_inputs f o).
Proof. done. Qed.

Lemma same_shape_set_op_control_inputs f o :
  same_shape o (set_op_control_inputs f o).
Proof. done. Qed.

Lemma same_shape_set_op_attr f o : same_shape o (set_op_attr f o).
Proof. done. Qed.

#[global] Hint Resolve same_shape_set_op_inputs same_shape_set_op_control_inputs same_shape_set_op_attr : wb.

Lemma wb_unique_name name : well_behaved (unique_name name).
Proof.
  unfold unique_name. wb_auto. apply wb_modify. intros s0.
  apply steady_marks; try done. cbn. apply union_subseteq_r.
Qed.

#[global] Hint Resolve wb_unique_name : wb.

Lemma wb_create_op hook type inputs n name :
  (∀ op, well_behaved (hook op)) →
  well_behaved (create_op hook type inputs n name).
Proof.
  intros Hhook s r s' H. unfold create_op in H.
  eapply steady_bind; [exact H|intros ? ?; apply wb_unique_name|].
  intros nm s1 (_ & Hfresh & ->)%unique_name_inr. clear H.
  rewrite run_bind. cbn [get]. rewrite run_modify_bind.
  intros H.
  match type of H with _ ?s2 = _ => apply (steady_trans _ s2) end.
  { by apply steady_insert. }
  revert H. solve [wb_auto].
Qed.

#[global] Hint Resolve wb_create_op : wb.

Lemma wb_first_output r : well_behaved (first_output r).
Proof. unfold first_output. wb_auto. Qed.

#[global] Hint Resolve wb_first_output : wb.

Lemma wb_identity hook t name :
  (∀ op, well_behaved (hook op)) → well_behaved (identity hook t name).
Proof.
  intros Hhook. unfold identity.
  apply wb_bind; [by apply wb_create_op|]. intros r. apply wb_first_output.
Qed.

#[global] Hint Resolve wb_identity : wb.

Lemma wb_no_op hook name :
  (∀ op, well_behaved (hook op)) → well_behaved (no_op hook name).
Proof.
  intros Hhook. unfold no_op.
  apply wb_bind; [by apply wb_create_op|]. intros r. apply wb_ret.
Qed.

#[global] Hint Resolve wb_no_op : wb.

Lemma wb_xla_cluster_output hook t name :
  (∀ op, well_behaved (hook op)) →
  well_behaved (xla_cluster_output hook t name).
Proof.
  intros Hhook. unfold xla_cluster_output.
  apply wb_bind; [by apply wb_create_op|]. intros r. apply wb_first_output.
Qed.

#[global] Hint Resolve wb_xla_cluster_output : wb.

Lemma wb_group hook deps name :
  (∀ op, well_behaved (hook op)) → well_behaved (group hook deps name).
Proof.
  intros Hhook. unfold group. apply wb_with_control_dependencies.
  by apply wb_no_op.
Qed.

#[global] Hint Resolve wb_group : wb.

Lemma wb_convert_to_tensor hook v :
  (∀ op, well_behaved (hook op)) → well_behaved (convert_to_tensor hook v).
Proof.
  intros Hhook.
  assert (Hconst : ∀ type ts name,
            well_behaved (create_op hook type ts 1 name ≫= first_output)).
  { intros. apply wb_bind; [by apply wb_create_op|].
    intros r. apply wb_first_output. }
  unfold convert_to_tensor. destruct v; try apply wb_raise; try apply wb_ret;
    try apply Hconst.
  - destruct (tensor_leaves _) as [[|t ts]|]; try apply Hconst.
    apply wb_raise.
  - destruct (tensor_leaves _) as [[|t ts]|]; try apply Hconst.
    apply wb_raise.
Qed.

#[global] Hint Resolve wb_convert_to_tensor : wb.

Lemma wb_pack_sequence_as structure flat :
  well_behaved (pack_sequence_as structure flat).
Proof. unfold pack_sequence_as. wb_auto. Qed.

#[global] Hint Resolve wb_pack_sequence_as : wb.

Lemma wb_XLACompileContext__init__ name pivot :
  well_behaved (XLACompileContext__init__ name pivot).
Proof.
  unfold XLACompileContext__init__. wb_auto.
  apply wb_modify. intros s0. by apply steady_marks.
Qed.

#[global] Hint Resolve wb_XLACompileContext__init__ : wb.

Lemma wb_report_unsupported_operations :
  well_behaved report_unsupported_operations.
Proof. unfold report_unsupported_operations. wb_auto. Qed.

#[global] Hint Resolve wb_report_unsupported_operations : wb.

Lemma wb_partition_control_inputs self control_inputs :
  well_behaved (partition_control_inputs self control_inputs).
Proof.
  induction control_inputs as [|x rest IH]; [apply wb_ret|].
  cbn [partition_control_inputs]. solve [wb_auto].
Qed.

#[global] Hint Resolve wb_partition_control_inputs : wb.

Lemma wb__RemoveExternalControlEdges op :
  well_behaved (_RemoveExternalControlEdges op).
Proof.
  unfold _RemoveExternalControlEdges, _remove_all_control_inputs,
    _add_control_inputs.
  solve [wb_auto].
Qed.

#[global] Hint Resolve wb__RemoveExternalControlEdges : wb.

(** [AddValue] rewrites the contexts of the chain in place: each has
    seen more, and has recorded the same unsupported operations. *)
Lemma AddValue_quiet chain val :
  Forall2 (λ c c', ctx_steady c c'
                    ∧ _unsupported_ops c' = _unsupported_ops c)
          chain (AddValue chain val).2.
Proof.
  induction chain as [|self outer IH]; [constructor|].
  destruct (decide (t_name val ∈ _values self)) as [Hseen|Hnew].
  - rewrite AddValue_seen by done. cbn [snd].
    apply Forall2_same_length_lookup_2; [done|].
    intros i c c' Hc Hc'. assert (c' = c) as -> by congruence.
    split; [apply ctx_steady_refl|done].
  - destruct outer as [|c outer].
    + rewrite AddValue_unseen_top by done. cbn [snd].
      constructor; [|constructor]. split; [|done].
      split; [done|]. split; [done|]. split; [done|]. split; [|done].
      cbn. apply union_subseteq_r.
    + rewrite AddValue_unseen_inner by done. cbn [snd].
      constructor; [|exact IH]. split; [|done].
      split; [done|]. split; [done|]. split; [done|]. split; [|done].
      cbn. etrans; [|apply union_subseteq_r]. apply union_subseteq_r.
Qed.

Lemma steady_context_quiet g s :
  Forall2 (λ c c', ctx_steady c c'
                    ∧ _unsupported_ops c' = _unsupported_ops c)
          (st_context s) (g (st_context s)) →
  steady s (set_st_context g s).
Proof.
  intros H. apply steady_context.
  - eapply Forall2_impl; [exact H|]. by intros c c' [Hc _].
  - unfold reportable. cbn.
    destruct H as [|c c' outer outer' [_ Hu] _]; [done|]. by rewrite Hu.
Qed.

Lemma wb_AddValue_self val : well_behaved (AddValue_self val).
Proof.
  intros s r s'. rewrite AddValue_self_run. intros [= <- <-].
  apply (steady_context_quiet (λ _, (AddValue (st_context s) val).2)).
  apply AddValue_quiet.
Qed.

#[global] Hint Resolve wb_AddValue_self : wb.

Lemma wb_resolve_input op index : well_behaved (resolve_input op index).
Proof.
  unfold resolve_input. apply wb_bind; [apply wb_get_op|]. intros o.
  destruct (op_inputs o !! index) as [x|]; [|apply wb_raise].
  apply wb_bind; [apply wb_AddValue_self|]. intros real_x.
  apply wb_when, wb_modify_op, same_shape_set_op_inputs.
Qed.

#[global] Hint Resolve wb_resolve_input : wb.

Lemma wb_prevent_feeding op : well_behaved (prevent_feeding op).
Proof.
  apply wb_modify. intros s. apply steady_marks; try done.
  cbn. apply union_subseteq_r.
Qed.

#[global] Hint Resolve wb_prevent_feeding : wb.

Lemma wb_prevent_fetching op : well_behaved (prevent_fetching op).
Proof.
  apply wb_modify. intros s. apply steady_marks; try done.
  cbn. apply union_subseteq_r.
Qed.

#[global] Hint Resolve wb_prevent_fetching : wb.

Lemma steady_seen names s :
  steady s (set_st_context (fmap (set_values (λ vs, names ∪ vs))) s).
Proof.
  apply steady_context_quiet.
  induction (st_context s) as [|c chain IH]; constructor; [|exact IH].
  split; [|done]. split; [done|]. split; [done|]. split; [done|].
  split; [|done]. cbn. apply union_subseteq_r.
Qed.

Lemma wb_seen names :
  well_behaved
    (modify (set_st_context (fmap (set_values (λ vs, names ∪ vs))))).
Proof. apply wb_modify. intros s. apply steady_seen. Qed.

#[global] Hint Resolve wb_seen : wb.

Section Methods.

Variable identity : Tensor → string → M Tensor.
Variable outer_AddInnerOp : string → M unit.
Hypothesis wb_identity_given : ∀ t name, well_behaved (identity t name).
Hypothesis wb_outer_given : ∀ op, well_behaved (outer_AddInnerOp op).

Lemma wb_pass_throughs external :
  well_behaved (pass_throughs identity external).
Proof.
  induction external as [|x rest IH]; [apply wb_ret|].
  cbn [pass_throughs]. apply wb_bind; [apply wb_get_op|]. intros ox.
  destruct (op_outputs ox) as [|t ts]; [exact IH|].
  apply wb_bind; [apply wb_identity_given|]. intros t'.
  apply wb_bind; [exact IH|]. intros ops. apply wb_ret.
Qed.

Lemma wb_AddOp_body op :
  well_behaved (AddOp_body identity outer_AddInnerOp op).
Proof.
  intros s r s' H. unfold AddOp_body in H.
  eapply steady_bind; [exact H|intros ? ?; apply wb_get_self|].
  intros self s0 [-> [outer Hctx]]%get_self_inr. clear H. intros H.
  eapply steady_bind; [exact H|intros ? ?; apply wb_get_op|].
  intros o s0 [-> Hop]%get_op_inr. clear H. intros H.
  eapply steady_bind; [exact H|intros ? ?; apply wb_when, wb_log|].
  intros u1 s1 Hlog. clear H. intros H.
  apply (when_log_inr op) in Hlog as (_ & Hops1 & Hctx1).
  eapply steady_bind; [exact H| |].
  { (* recording an unsupported operation *)
    clear H. destruct (bool_decide (op_type o ∈ _UNSUPPORTED_OPS));
      [|intros ? ?; apply wb_ret].
    intros r2 s2 [= <- <-]. apply steady_context.
    - rewrite Hctx1, Hctx. constructor; [|apply chain_steady_refl].
      split; [done|]. split; [done|]. split; [done|]. split; [done|].
      cbn. by apply prefix_app_r.
    - unfold reportable. cbn. rewrite Hctx1, Hctx, Hops1. intros Hrep.
      apply Forall_app. split; [done|]. by repeat constructor. }
  intros u2 s2 _. clear H.
  assert (Hpass := wb_pass_throughs).
  assert (Hseen : ∀ names,
            well_behaved
              (modify (set_st_context
                         (fmap (set_values (λ vs, names ∪ vs)))))).
  { intros names. apply wb_modify. intros ?. apply steady_seen. }
  unfold _set_attr, _add_control_input, _add_control_inputs.
  apply wb_bind; [wb_auto|intros ?].
  solve [wb_auto].
Qed.

End Methods.

#[global] Hint Resolve wb_pass_throughs wb_AddOp_body : wb.

Lemma wb_AddInnerOp_rec identity n :
  (∀ t name, well_behaved (identity t name)) →
  ∀ op, well_behaved (AddInnerOp_rec identity n op).
Proof.
  intros Hid. induction n as [|n IH]; intros op; cbn [AddInnerOp_rec];
    solve [wb_auto].
Qed.

#[global] Hint Resolve wb_AddInnerOp_rec : wb.

Lemma wb_AddOp_with identity op :
  (∀ t name, well_behaved (identity t name)) →
  well_behaved (AddOp_with identity op).
Proof.
  intros Hid. unfold AddOp_with. apply wb_bind; [apply wb_get|]. intros s.
  destruct (length (st_context s)) as [|n]; cbn [AddOp_rec]; solve [wb_auto].
Qed.

Lemma wb_AddInnerOp_with identity op :
  (∀ t name, well_behaved (identity t name)) →
  well_behaved (AddInnerOp_with identity op).
Proof.
  intros Hid. unfold AddInnerOp_with. solve [wb_auto].
Qed.

Lemma wb_AddOp_pass_through op : well_behaved (AddOp_pass_through op).
Proof.
  apply wb_AddOp_with. intros t name. apply wb_identity.
  intros op'. apply wb_ret.
Qed.

(** [AddOp], completed or raising: no operation is removed or changes
    its type, its outputs or its context; no context forgets a value or
    an unsupported operation; names, marks and the log only grow; the
    scopes and flags are as before. *)
Lemma wb_AddOp op : well_behaved (AddOp op).
Proof.
  apply wb_AddOp_with. intros t name. apply wb_identity.
  apply wb_AddOp_pass_through.
Qed.

Lemma wb_AddInnerOp op : well_behaved (AddInnerOp op).
Proof.
  apply wb_AddInnerOp_with. intros t name. apply wb_identity.
  apply wb_AddOp_pass_through.
Qed.

#[global] Hint Resolve wb_AddOp wb_AddInnerOp : wb.

Lemma wb_array_ops_identity t name : well_behaved (array_ops_identity t name).
Proof. apply wb_identity, wb_AddOp. Qed.

Lemma wb_control_flow_ops_no_op name :
  well_behaved (control_flow_ops_no_op name).
Proof. apply wb_no_op, wb_AddOp. Qed.

Lemma wb_control_flow_ops_group deps name :
  well_behaved (control_flow_ops_group deps name).
Proof. apply wb_group, wb_AddOp. Qed.

Lemma wb_ops_convert_to_tensor v : well_behaved (ops_convert_to_tensor v).
Proof. apply wb_convert_to_tensor, wb_AddOp. Qed.

Lemma wb_xla_ops_xla_cluster_output t name :
  well_behaved (xla_ops_xla_cluster_output t name).
Proof. apply wb_xla_cluster_output, wb_AddOp. Qed.

#[global] Hint Resolve wb_array_ops_identity wb_control_flow_ops_no_op
  wb_control_flow_ops_group wb_ops_convert_to_tensor
  wb_xla_ops_xla_cluster_output : wb.

Lemma wb__postprocess_flat_outputs outputs :
  well_behaved (_postprocess_flat_outputs outputs).
Proof. unfold _postprocess_flat_outputs. solve [wb_auto]. Qed.

Lemma wb_non_flat_loop os : ∀ acc, well_behaved (non_flat_loop os acc).
Proof.
  induction os as [|o rest IH]; intros acc; cbn [non_flat_loop];
    [apply wb_ret|].
  destruct o; solve [wb_auto].
Qed.

#[global] Hint Resolve wb__postprocess_flat_outputs wb_non_flat_loop : wb.

Lemma wb__postprocess_non_flat_outputs outputs :
  well_behaved (_postprocess_non_flat_outputs outputs).
Proof. unfold _postprocess_non_flat_outputs. solve [wb_auto]. Qed.

#[global] Hint Resolve wb__postprocess_non_flat_outputs : wb.

Lemma wb_ExitResult result : well_behaved (ExitResult result).
Proof.
  apply wb_modify. intros s. apply steady_context_quiet.
  destruct (st_context s) as [|self [|outer rest]].
  - constructor.
  - constructor; [|constructor]. split; [apply ctx_steady_refl|done].
  - constructor; [split; [apply ctx_steady_refl|done]|].
    constructor.
    + split; [|done]. split; [done|]. split; [done|]. split; [done|].
      split; [|done]. cbn. apply union_subseteq_r.
    + apply Forall2_same_length_lookup_2; [done|].
      intros i c c' Hc Hc'. assert (c' = c) as -> by congruence.
      split; [apply ctx_steady_refl|done].
Qed.

#[global] Hint Resolve wb_ExitResult : wb.

(** [_disable_summary_context] puts the toggle back. *)
Lemma wb__disable_summary_context {A} (m : M A) :
  well_behaved m → well_behaved (_disable_summary_context m).
Proof.
  intros Hm s r s'. unfold _disable_summary_context.
  rewrite run_bind. cbn [get]. rewrite run_modify_bind. unfold try_finally.
  destruct (m _) as [r1 s1] eqn:E. cbn. intros [= <- <-].
  apply Hm in E as (Hc & Ho & Hn & Hf & Hg & Hl & Hd & Hv & Hu & Hk & Hr).
  by repeat split.
Qed.

Lemma wb_call_with_star computation computation_inputs :
  (∀ args, well_behaved (computation args)) →
  well_behaved (call_with_star computation computation_inputs).
Proof. intros Hc. unfold call_with_star. solve [wb_auto]. Qed.

(** ** The compile driver releases what it takes *)

Section Settled.

Lemma steady_settled s s' : steady s s' → settled s s'.
Proof.
  intros (Hc & Ho & Hn & Hf & Hg & Hl & Hd & Hv & Hu & Hk & Hr).
  by repeat split.
Qed.

Lemma steady_but_flag_settled s s' : steady_but_flag s s' → settled s s'.
Proof.
  intros (Hc & Ho & Hn & Hf & Hg & Hl & Hd & Hv & Hu & Hk & Hr).
  by repeat split.
Qed.

Lemma steady_steady_but_flag s s' : steady s s' → steady_but_flag s s'.
Proof.
  intros (Hc & Ho & Hn & Hf & Hg & Hl & Hd & Hv & Hu & Hk & Hr).
  by repeat split.
Qed.

Lemma steady_but_flag_trans s1 s2 s3 :
  steady_but_flag s1 s2 → steady_but_flag s2 s3 → steady_but_flag s1 s3.
Proof.
  intros H12 H23.
  assert (H23' : steady (set_st_use_resource (λ _, st_use_resource s1) s2)
                        (set_st_use_resource (λ _, st_use_resource s1) s3)).
  { destruct H23 as (Hc & Ho & Hn & Hf & Hg & Hl & Hd & Hv & Hu & Hk & Hr).
    by repeat split. }
  exact (steady_trans _ _ _ H12 H23').
Qed.

Lemma steady_but_flag_set f s :
  steady_but_flag s (set_st_use_resource f s).
Proof. unfold steady_but_flag. by apply steady_marks. Qed.

Lemma settled_trans s1 s2 s3 : settled s1 s2 → settled s2 s3 → settled s1 s3.
Proof.
  intros (Hc1 & Ho1 & Hn1 & Hf1 & Hg1 & Hl1 & Hd1 & Hv1 & Hk1)
         (Hc2 & Ho2 & Hn2 & Hf2 & Hg2 & Hl2 & Hd2 & Hv2 & Hk2).
  split; [by eapply chain_steady_trans|]. split.
  { intros x o Hx. destruct (Ho1 x o Hx) as (o' & Hx' & Hs').
    destruct (Ho2 x o' Hx') as (o'' & Hx'' & Hs'').
    exists o''. split; [done|by eapply same_shape_trans]. }
  split; [by etrans|]. split; [by etrans|]. split; [by etrans|].
  split; [by etrans|]. split; [congruence|]. split; congruence.
Qed.

Lemma steady_but_flag_bind {A B} (m : M A) (k : A → M B) s r s' :
  (m ≫= k) s = (r, s') →
  (∀ r1 s1, m s = (r1, s1) → steady_but_flag s s1) →
  (∀ a s1, m s = (inr a, s1) → k a s1 = (r, s') → steady_but_flag s1 s') →
  steady_but_flag s s'.
Proof.
  rewrite run_bind. intros H Hm Hk.
  destruct (m s) as [[e|a] s1] eqn:E.
  - injection H as <- <-. by eapply Hm.
  - eapply steady_but_flag_trans; [by eapply Hm|by eapply Hk].
Qed.

Lemma settled_bind {A B} (m : M A) (k : A → M B) s r s' :
  (m ≫= k) s = (r, s') →
  (∀ r1 s1, m s = (r1, s1) → settled s s1) →
  (∀ a s1, m s = (inr a, s1) → k a s1 = (r, s') → settled s1 s') →
  settled s s'.
Proof.
  rewrite run_bind. intros H Hm Hk.
  destruct (m s) as [[e|a] s1] eqn:E.
  - injection H as <- <-. by eapply Hm.
  - eapply settled_trans; [by eapply Hm|by eapply Hk].
Qed.

(** When the unsupported operations it recorded are in the graph, the
    report of the current context goes through. *)
Lemma report_unsupported_operations_run s c outer :
  st_context s = c :: outer →
  reportable s →
  ∃ s', report_unsupported_operations s = (inr tt, s').
Proof.
  intros Hctx Hrep. unfold reportable in Hrep. rewrite Hctx in Hrep.
  unfold report_unsupported_operations.
  rewrite (run_bind_ok _ _ _ _ _ (run_get_self _ _ _ Hctx)).
  destruct (_unsupported_ops c) as [|u us] eqn:Hu.
  { by eexists. }
  assert (Hlines : ∀ l, Forall (λ op, is_Some (st_ops s !! op)) l →
            ∃ lines,
              mapM (λ op, o ← get_op op;
                          mret ("  " +:+ op_type o +:+ " (" +:+ op +:+ ")"))
                   l s = (inr lines, s)).
  { induction l as [|x l IH]; intros Hl; [by exists []|].
    apply Forall_cons in Hl as [[o Hx] Hl].
    destruct (IH Hl) as [lines Hrun]. eexists.
    eapply mapM_cons_run; [|exact Hrun].
    by rewrite (run_bind_ok _ _ _ _ _ (run_get_op _ _ _ Hx)). }
  destruct (Hlines (take _MAX_WARNING_LINES (u :: us))) as [lines Hrun].
  { by apply Forall_take. }
  rewrite (run_bind_ok _ _ _ _ _ Hrun). unfold log.
  rewrite run_modify_bind.
  destruct (bool_decide _); by eexists.
Qed.

Lemma wb_settled {A} (m : M A) s r s' :
  well_behaved m → m s = (r, s') → settled s s'.
Proof. intros Hm H. apply steady_settled. by eapply Hm. Qed.

Lemma wbf_wb {A} (m : M A) : well_behaved m → well_behaved_but_flag m.
Proof. intros Hm s r s' H. apply steady_steady_but_flag. by eapply Hm. Qed.

Lemma wbf_bind {A B} (m : M A) (k : A → M B) :
  well_behaved_but_flag m → (∀ a, well_behaved_but_flag (k a)) →
  well_behaved_but_flag (m ≫= k).
Proof.
  intros Hm Hk s r s' H. eapply steady_but_flag_bind; [exact H| |].
  - intros r1 s1. apply Hm.
  - intros a s1 _. apply Hk.
Qed.

Lemma wbf_set_use_resource f :
  well_behaved_but_flag (modify (set_st_use_resource f)).
Proof. intros s r s' [= <- <-]. apply steady_but_flag_set. Qed.

(** Leaving the region: the chain below the entered context is what the
    run inside made of it. *)
Lemma settled_region c s s2 :
  settled (set_st_context (λ chain, c :: chain) s) s2 →
  settled s (set_st_context (λ chain, tail chain) s2).
Proof.
  intros (Hc & Ho & Hn & Hf & Hg & Hl & Hd & Hv & Hk).
  cbn in Hc. apply Forall2_cons_inv_l in Hc as (c' & chain' & _ & Hc & Hctx).
  split; [cbn; by rewrite Hctx|]. by repeat split.
Qed.

(** [try: context.Enter(); body finally:
    context.report_unsupported_operations(); context.Exit()] *)
Lemma region_settled {A} c (body : M A) s r s' :
  _unsupported_ops c = [] →
  well_behaved_but_flag body →
  try_finally (Enter c;; body) (report_unsupported_operations;; Exit) s
  = (r, s') →
  settled s s'.
Proof.
  intros Hnone Hbody. unfold try_finally, Enter. rewrite run_modify_bind.
  destruct (body _) as [r1 s1] eqn:E.
  pose proof (Hbody _ _ _ E) as Hsbf.
  pose proof Hsbf as (Hchain & _ & _ & _ & _ & _ & _ & _ & _ & _ & Hrep).
  cbn in Hchain.
  apply Forall2_cons_inv_l in Hchain as (c' & chain' & _ & _ & Hctx1).
  assert (Hrep1 : reportable s1).
  { apply Hrep. unfold reportable. cbn. rewrite Hnone. constructor. }
  destruct (report_unsupported_operations_run s1 c' chain' Hctx1 Hrep1)
    as [s2 Hrun].
  rewrite run_bind, Hrun. unfold Exit. cbn. intros [= <- <-].
  apply settled_region with c.
  eapply settled_trans; [by apply steady_but_flag_settled|].
  by eapply wb_settled; [apply wb_report_unsupported_operations|].
Qed.

(** The part of the driver between [context.Enter()] and the
    [finally]. *)
Lemma wbf_driver_body computation inputs flat_inputs :
  well_behaved_computation computation →
  well_behaved_but_flag
    (flat_inputs ←
       mapM (λ '(i, x), array_ops_identity x ("input_" +:+ pretty i))
            (enumerate flat_inputs);
     computation_inputs ←
       pack_sequence_as inputs (PyTensor <$> flat_inputs);
     s ← get;
     let saved_use_resource := st_use_resource s in
     modify (set_st_use_resource (λ _, true));;
     outputs ←
       _disable_summary_context
         (call_with_star computation computation_inputs);
     modify (set_st_use_resource (λ _, saved_use_resource));;
     let outputs_is_flat := is_flat outputs in
     '(output_tensors, control_deps) ←
       (if outputs_is_flat
        then _postprocess_flat_outputs outputs
        else _postprocess_non_flat_outputs outputs);
     ExitResult output_tensors;;
     mret (outputs, outputs_is_flat, output_tensors, control_deps)).
Proof.
  intros Hc.
  apply wbf_bind.
  { apply wbf_wb, wb_mapM. intros [i x]. apply wb_array_ops_identity. }
  intros flat. apply wbf_bind; [apply wbf_wb, wb_pack_sequence_as|].
  intros computation_inputs. apply wbf_bind; [apply wbf_wb, wb_get|].
  intros s0. cbv zeta.
  apply wbf_bind; [apply wbf_set_use_resource|]. intros _.
  apply wbf_bind.
  { apply wbf_wb, wb__disable_summary_context, wb_call_with_star, Hc. }
  intros outputs. apply wbf_bind; [apply wbf_set_use_resource|]. intros _.
  apply wbf_wb. solve [wb_auto].
Qed.

(** The driver, completed or raising: the chain of contexts is the chain
    it was called in; the graph has lost nothing; the pending control
    dependencies, the device and the summary toggle are as before. *)
Lemma _compile_internal_settled computation inputs s r s' :
  well_behaved_computation computation →
  _compile_internal computation inputs s = (r, s') →
  settled s s'.
Proof.
  intros Hc H. unfold _compile_internal in H.
  destruct (negb _).
  { injection H as <- <-. apply steady_settled, steady_refl. }
  eapply settled_bind; [exact H| |].
  { intros r1 s1. apply wb_settled. solve [wb_auto]. }
  intros flat_inputs s1 _. clear H. intros H.
  eapply settled_bind; [exact H| |].
  { intros r1 s2. apply wb_settled. solve [wb_auto]. }
  intros cluster_name s2 _. clear H. intros H.
  eapply settled_bind; [exact H| |].
  { intros r1 s3. apply wb_settled. solve [wb_auto]. }
  intros pivot s3 _. clear H. intros H.
  eapply settled_bind; [exact H| |].
  { intros r1 s4. apply wb_settled. solve [wb_auto]. }
  intros context s4 Hinit. clear H. intros H.
  rewrite XLACompileContext__init___run in Hinit. injection Hinit as <- <-.
  eapply settled_bind; [exact H| |].
  { intros r1 s5. apply region_settled; [done|].
    by apply wbf_driver_body. }
  intros [[[outputs outputs_is_flat] output_tensors] control_deps] s5 _.
  clear H. apply wb_settled.
  destruct output_tensors; solve [wb_auto].
Qed.

Lemma wb_use_resource {A} (m : M A) s r s' :
  well_behaved m → m s = (r, s') → st_use_resource s' = st_use_resource s.
Proof.
  intros Hm H.
  by apply Hm in H as (_ & _ & _ & _ & _ & _ & _ & _ & Hu & _).
Qed.

(** X13: When the driver returns, the use-resource flag is the one it was
    called with, whatever the computation did. *)
Theorem _compile_internal_returns_flag
    (computation : list PyVal → M PyVal) (inputs r : PyVal) (s s' : State) :
  _compile_internal computation inputs s = (inr r, s') →
  st_use_resource s' = st_use_resource s.
Proof.
  intros H. unfold _compile_internal in H.
  destruct (negb _); [done|].
  apply bind_inr in H as (flat_inputs & s1 & H1 & H).
  apply wb_use_resource in H1; [|solve [wb_auto]].
  apply bind_inr in H as (cluster_name & s2 & H2 & H).
  apply wb_use_resource in H2; [|solve [wb_auto]].
  apply bind_inr in H as (pivot & s3 & H3 & H).
  apply wb_use_resource in H3; [|solve [wb_auto]].
  apply bind_inr in H as (context & s4 & H4 & H).
  apply wb_use_resource in H4; [|solve [wb_auto]].
  apply bind_inr
    in H as ([[[outputs outputs_is_flat] output_tensors] control_deps]
             & s5 & Hregion & H).
  assert (H5 : st_use_resource s' = st_use_resource s5).
  { eapply wb_use_resource; [|exact H].
    destruct output_tensors; solve [wb_auto]. }
  apply try_finally_inr in Hregion as (s6 & u & Hbody & Hcleanup).
  assert (H6 : st_use_resource s5 = st_use_resource s6).
  { unfold Exit in Hcleanup.
    apply bind_inr in Hcleanup as (u1 & s7 & Hrep & ->%modify_inr).
    cbn. eapply wb_use_resource; [|exact Hrep].
    apply wb_report_unsupported_operations. }
  unfold Enter in Hbody. rewrite run_modify_bind in Hbody.
  apply bind_inr in Hbody as (flat & s7 & H7 & Hbody).
  apply wb_use_resource in H7;
    [|apply wb_mapM; intros [i x]; apply wb_array_ops_identity].
  apply bind_inr in Hbody as (computation_inputs & s8 & H8 & Hbody).
  apply wb_use_resource in H8; [|apply wb_pack_sequence_as].
  apply bind_inr in Hbody as (s9 & s9' & [-> ->]%get_inr & Hbody).
  cbv zeta in Hbody. rewrite run_modify_bind in Hbody.
  apply bind_inr in Hbody as (outputs' & s10 & _ & Hbody).
  rewrite run_modify_bind in Hbody.
  apply wb_use_resource in Hbody; [|solve [wb_auto]].
  cbn in Hbody, H7. congruence.
Qed.

Lemma _compile_internal_returns_flag_witness :
  ∃ r s',
    _compile_internal constant_computation PyNone example_state_outside
    = (inr r, s')
    ∧ st_use_resource s' = false.
Proof.
  assert (H : ∃ r s',
            _compile_internal constant_computation PyNone
              example_state_outside = (inr r, s')).
  { eexists _, _. vm_compute. reflexivity. }
  destruct H as (r & s' & H). exists r, s'. split; [exact H|].
  exact (_compile_internal_returns_flag _ _ _ _ _ H).
Defined.

End Settled.

(** ** The summary toggle and the use-resource flag around the computation *)

Section Toggle.

Lemma ks_wb {A} (m : M A) : well_behaved m → keeps_skip_summary m.
Proof.
  intros Hm s r s' H.
  by apply Hm in H as (_ & _ & _ & _ & _ & _ & _ & _ & _ & Hk & _).
Qed.

Lemma ks_bind {A B} (m : M A) (k : A → M B) :
  keeps_skip_summary m → (∀ a, keeps_skip_summary (k a)) →
  keeps_skip_summary (m ≫= k).
Proof.
  intros Hm Hk s r s'. rewrite run_bind.
  destruct (m s) as [[e|a] s1] eqn:E.
  - intros [= <- <-]. by eapply Hm.
  - intros H. rewrite (Hk _ _ _ _ H). by eapply Hm.
Qed.

Lemma ks_try_finally {A} (m : M A) cleanup :
  keeps_skip_summary m → keeps_skip_summary cleanup →
  keeps_skip_summary (try_finally m cleanup).
Proof.
  intros Hm Hc s r s'. unfold try_finally.
  destruct (m s) as [r1 s1] eqn:E1.
  destruct (cleanup s1) as [[e|u] s2] eqn:E2; intros [= <- <-];
    rewrite (Hc _ _ _ E2); by eapply Hm.
Qed.

Lemma ks_modify f :
  (∀ s, st_skip_summary (f s) = st_skip_summary s) →
  keeps_skip_summary (modify f).
Proof. intros Hf s r s' [= <- <-]. apply Hf. Qed.

(** [_disable_summary_context] puts back the toggle it found, whatever
    its body did to it and however the body ended. *)
Lemma ks__disable_summary_context {A} (m : M A) :
  keeps_skip_summary (_disable_summary_context m).
Proof.
  intros s r s'. unfold _disable_summary_context.
  rewrite run_bind. cbn [get]. rewrite run_modify_bind. unfold try_finally.
  destruct (m _) as [r1 s1]. cbn. by intros [= <- <-].
Qed.

Lemma ks__compile_internal computation inputs :
  keeps_skip_summary (_compile_internal computation inputs).
Proof.
  unfold _compile_internal. destruct (negb _); [apply ks_wb, wb_raise|].
  apply ks_bind; [apply ks_wb; solve [wb_auto]|]. intros flat_inputs.
  apply ks_bind; [apply ks_wb; solve [wb_auto]|]. intros cluster_name.
  apply ks_bind; [apply ks_wb; solve [wb_auto]|]. intros pivot.
  apply ks_bind; [apply ks_wb; solve [wb_auto]|]. intros context.
  apply ks_bind.
  { apply ks_try_finally.
    - apply ks_bind; [by apply ks_modify|]. intros _.
      apply ks_bind.
      { apply ks_wb, wb_mapM. intros [i x]. apply wb_array_ops_identity. }
      intros flat. apply ks_bind; [apply ks_wb, wb_pack_sequence_as|].
      intros computation_inputs. apply ks_bind; [apply ks_wb, wb_get|].
      intros s0. cbv zeta.
      apply ks_bind; [by apply ks_modify|]. intros _.
      apply ks_bind; [apply ks__disable_summary_context|]. intros outputs.
      apply ks_bind; [by apply ks_modify|]. intros _.
      apply ks_wb. solve [wb_auto].
    - apply ks_bind; [apply ks_wb, wb_report_unsupported_operations|].
      intros _. by apply ks_modify. }
  intros [[[outputs outputs_is_flat] output_tensors] control_deps].
  apply ks_wb. destruct output_tensors; solve [wb_auto].
Qed.

Lemma try_finally_ext {A} (m1 m2 : M A) cleanup s :
  m1 s = m2 s → try_finally m1 cleanup s = try_finally m2 cleanup s.
Proof. intros H. unfold try_finally. by rewrite H. Qed.

(** Where the driver calls the computation, resource variables are on
    and summaries are skipped. *)
Lemma call_with_star_guarded computation computation_inputs s :
  st_use_resource s = true →
  st_skip_summary s = SkipAlways →
  call_with_star computation computation_inputs s
  = call_with_star (guarded computation) computation_inputs s.
Proof.
  intros Hflag Hskip. unfold call_with_star, guarded.
  destruct computation_inputs; try reflexivity;
    rewrite run_bind; cbn [get]; by rewrite Hflag, Hskip.
Qed.

(** X14: The driver calls the computation with resource variables on and
    summaries skipped: a computation that checks both before it starts
    is, to the driver, the same computation. *)
Theorem _compile_internal_guarded
    (computation : list PyVal → M PyVal) (inputs : PyVal) (s : State) :
  _compile_internal computation inputs s
  = _compile_internal (guarded computation) inputs s.
Proof.
  unfold _compile_internal. destruct (negb _); [reflexivity|].
  apply bind_ext; intros flat_inputs s1 _.
  apply bind_ext; intros cluster_name s2 _.
  apply bind_ext; intros pivot s3 _.
  apply bind_ext; intros context s4 _.
  apply bind_ext_l, try_finally_ext.
  unfold Enter. rewrite !run_modify_bind.
  apply bind_ext; intros flat s5 _.
  apply bind_ext; intros computation_inputs s6 _.
  rewrite !run_bind. cbn [get]. cbv zeta. rewrite !run_modify_bind.
  apply bind_ext_l. unfold _disable_summary_context.
  rewrite !run_bind. cbn [get]. rewrite !run_modify_bind.
  apply try_finally_ext. by apply call_with_star_guarded.
Qed.

End Toggle.

(** ** What a completed AddOp has recorded *)

Section Bookkeeping.

Variable identity : Tensor → string → M Tensor.
Variable outer_AddInnerOp : string → M unit.
Hypothesis wb_identity_given : ∀ t name, well_behaved (identity t name).
Hypothesis wb_outer_given : ∀ op, well_behaved (outer_AddInnerOp op).

Lemma AddOp_body_bookkeeping op o s s' :
  AddOp_body identity outer_AddInnerOp op s = (inr tt, s') →
  st_ops s !! op = Some o →
  op ∈ st_unfeedable s'
  ∧ op ∈ st_unfetchable s'
  ∧ (op_type o ∈ _UNSUPPORTED_OPS →
     ∃ c' rest, st_context s' = c' :: rest ∧ op ∈ _unsupported_ops c')
  ∧ (op_type o ∈ _BLACKLISTED_OPS →
     ∃ msg, (LogError, msg) ∈ st_log s')
  ∧ ∃ o10 s10,
      st_ops s10 !! op = Some o10
      ∧ to_outer (outer_AddInnerOp op)
          (set_st_context
             (fmap (set_values
                      (λ vs, list_to_set (t_name <$> op_outputs o10) ∪ vs)))
             s10)
        = (inr tt, s').
Proof.
  unfold AddOp_body. intros H Hop.
  apply bind_inr in H as (self & s0 & [-> [outer Hctx]]%get_self_inr & H).
  apply bind_inr in H as (o0 & s0 & [-> Hop0]%get_op_inr & H).
  assert (o0 = o) as -> by congruence.
  apply bind_inr in H as (u1 & s1 & Hlog & H).
  apply bind_inr in H as (u2 & s2 & Hunsup & H).
  assert (Hpass := wb_pass_throughs identity wb_identity_given).
  assert (Hrest2 : steady s2 s').
  { revert H. unfold _set_attr, _add_control_input, _add_control_inputs.
    solve [wb_auto]. }
  apply bind_inr in H as (u3 & s3 & [Href ->]%when_raise_inr & H).
  apply bind_inr in H as (u4 & s4 & [Hattr ->]%when_raise_inr & H).
  apply bind_inr in H as (u5 & s5 & ->%modify_inr & H).
  apply bind_inr in H as (u6 & s6 & ->%modify_inr & H).
  apply bind_inr in H as (u7 & s7 & ->%modify_inr & H).
  assert (Hrest7 : steady (prevent_fetching op
                             (prevent_feeding op
                                (_set_attr op _XLA_COMPILE_ATTR (_name self)
                                   s2).2).2).2 s').
  { revert H. unfold _add_control_input, _add_control_inputs.
    solve [wb_auto]. }
  destruct Hrest7 as (_ & _ & _ & Hfeed & Hfetch & _).
  split. { apply Hfeed. cbn. apply elem_of_union_l, elem_of_singleton_2. done. }
  split. { apply Hfetch. cbn. apply elem_of_union_l, elem_of_singleton_2. done. }
  destruct Hrest2 as (Hchain2 & _ & _ & _ & _ & Hlog2 & _).
  split.
  { intros Hty. apply when_inr in Hunsup as [[_ Hrun]|[Hb _]].
    - apply modify_inr in Hrun as ->. cbn in Hchain2.
      apply (when_log_inr op) in Hlog as (_ & _ & Hctx1).
      rewrite Hctx1, Hctx in Hchain2.
      apply Forall2_cons_inv_l in Hchain2
        as (c' & rest & (_ & _ & _ & _ & Hpre) & _ & Hctx').
      exists c', rest. split; [done|].
      destruct Hpre as [more ->]. cbn.
      apply elem_of_app. left. apply elem_of_app. right.
      apply list_elem_of_singleton. done.
    - by apply bool_decide_eq_false in Hb. }
  split.
  { intros Hty. apply when_inr in Hlog as [[_ Hrun]|[Hb _]].
    - apply modify_inr in Hrun as ->.
      assert (Hsame : st_log s2
                      = st_log (set_st_log
                          (λ l, l ++ [(LogError,
                             "Operation of type " +:+ op_type o +:+ " (" +:+ op
                               +:+ ") is not supported in XLA. Execution will "
                               +:+ "fail if this op is used in the graph. ")])
                          s)).
      { apply when_inr in Hunsup as [[_ Hrun]|[_ ->]]; [|done].
        by apply modify_inr in Hrun as ->. }
      destruct Hlog2 as [more Hmore]. rewrite Hsame in Hmore. cbn in Hmore.
      eexists. rewrite Hmore. apply elem_of_app. left.
      apply elem_of_app. right. apply list_elem_of_singleton. done.
    - by apply bool_decide_eq_false in Hb. }
  apply bind_inr in H as ([internal external] & s8 & Hrem & H).
  apply bind_inr in H as (o8 & s9 & [-> Hop8]%get_op_inr & H).
  apply bind_inr in H as (u9 & s9 & Hinputs & H).
  apply bind_inr in H as (u10 & s10 & Hexternal & H).
  apply bind_inr in H as (o10 & s11 & [-> Hop10]%get_op_inr & H).
  rewrite run_modify_bind in H. by exists o10, s10.
Qed.

End Bookkeeping.

Section AddOpEffects.

Lemma wb_identity_AddOp_pass_through t name :
  well_behaved (identity AddOp_pass_through t name).
Proof. apply wb_identity, wb_AddOp_pass_through. Qed.

Lemma AddOp_bookkeeping op o s s' :
  AddOp op s = (inr tt, s') →
  st_ops s !! op = Some o →
  ∃ self self' o',
    st_context s = [self] ∧ st_context s' = [self']
    ∧ st_ops s' !! op = Some o'
    ∧ same_shape o o'
    ∧ (_XLA_COMPILE_ATTR ∉ dom (op_attr o))
    ∧ op_attr o' = <[_XLA_COMPILE_ATTR := _name self]> (op_attr o)
    ∧ op ∈ st_unfeedable s'
    ∧ op ∈ st_unfetchable s'
    ∧ (∀ t, t ∈ op_outputs o → t_name t ∈ _values self')
    ∧ (op_type o ∈ _UNSUPPORTED_OPS → op ∈ _unsupported_ops self')
    ∧ (op_type o ∈ _BLACKLISTED_OPS → ∃ msg, (LogError, msg) ∈ st_log s').
Proof.
  intros H Hop.
  pose proof H as Hinv.
  apply (AddOp_with_inr _ _ _ _ identity_hooked_spec) in Hinv
    as (self & o0 & o' & ids & Hself & Hop0 & Hop' & Hev & Hattr & _ & Hattr'
        & _).
  assert (o0 = o) as -> by congruence.
  pose proof Hev as (Hshape & _ & Hlone & _).
  destruct (Hlone self Hself) as (self' & Hself' & _).
  destruct (Hshape op o Hop) as (o'' & Hop'' & Hsame & _).
  assert (o'' = o') as -> by congruence.
  rewrite (AddOp_receiver _ _ _ _ Hself) in H.
  eapply (AddOp_body_bookkeeping _ _ wb_identity_AddOp_pass_through) in H
    as (Hfeed & Hfetch & Hunsup & Hblack & o10 & s10 & Hop10 & Hend);
    [|intros op'; apply wb_AddInnerOp_rec, wb_identity_AddOp_pass_through
     |exact Hop].
  exists self, self', o'.
  do 8 (split; [done|]). split; [|split; [|done]].
  - (* the outputs are seen *)
    unfold to_outer in Hend. cbn [st_context set_st_context] in Hend.
    assert (Hs' : s' = set_st_context
                         (fmap (set_values
                                  (λ vs, list_to_set (t_name <$> op_outputs o10)
                                           ∪ vs))) s10).
    { revert Hend.
      destruct (_ <$> st_context s10) as [|c1 [|c2 rest]] eqn:Hc.
      1,2: intros Hend; congruence.
      destruct (AddInnerOp_rec _ _ _ _) as [r1 s1] eqn:Hrun.
      intros [= _ <-]. exfalso.
      apply wb_AddInnerOp_rec in Hrun as (Hchain & _);
        [|apply wb_identity_AddOp_pass_through].
      cbn in Hchain, Hself'.
      apply Forall2_cons_inv_l in Hchain as (c2' & rest' & _ & _ & Hctx1).
      by rewrite Hctx1 in Hself'. }
    rewrite Hs' in Hself', Hop'. cbn in Hself', Hop'.
    assert (o10 = o') as -> by congruence.
    destruct (st_context s10) as [|c10 [|c rest]]; try done.
    injection Hself' as <-. intros t Ht. cbn.
    destruct Hsame as (_ & Hout & _). rewrite Hout.
    apply elem_of_union_l, elem_of_list_to_set, list_elem_of_fmap.
    by exists t.
  - intros Hty. destruct (Hunsup Hty) as (c' & rest & Hctx' & Hin).
    rewrite Hself' in Hctx'. by injection Hctx' as <- <-.
Qed.

End AddOpEffects.

(** ** The captured object and the scaffold *)

Section ScaffoldFacts.

Import Captured Scaffold.

(** X21: Capturing an object that counts as false does not fill the cell: a
    later capture goes through and replaces it. *)
Theorem capture_falsy_leaves_cell_open (o1 o2 : PyVal) :
  truthy o1 = inr false →
  ∃ self1,
    capture o1 __init__ = (inr tt, self1)
    ∧ get self1 = o1
    ∧ capture o2 self1 = (inr tt, mkCaptured o2)
    ∧ get (mkCaptured o2) = o2.
Proof.
  intros Ho1. exists (mkCaptured o1). split; [reflexivity|].
  split; [reflexivity|]. split; [|reflexivity].
  unfold capture. cbn. by rewrite Ho1.
Qed.

Lemma capture_falsy_leaves_cell_open_witness :
  ∃ self1,
    capture (PyInt 0) __init__ = (inr tt, self1)
    ∧ get self1 = PyInt 0
    ∧ capture (PyObject 1) self1 = (inr tt, mkCaptured (PyObject 1))
    ∧ get (mkCaptured (PyObject 1)) = PyObject 1.
Proof.
  exact (capture_falsy_leaves_cell_open (PyInt 0) (PyObject 1) eq_refl).
Defined.

(** X22: [_get_scaffold] on a cell that was never filled is None, and the
    captured function is not called.  After the capture of a function
    that counts as true, it is what the call of that function returns,
    but never None: a function that returns None gives the ValueError,
    and an error of the call comes out as it is. *)
Theorem _get_scaffold_spec (call : PyVal → Exn + PyVal) (f : PyVal) :
  truthy f = inr true →
  _get_scaffold call __init__ = inr PyNone
  ∧ (∀ self, capture f __init__ = (inr tt, self) →
       _get_scaffold call self
       = match call f with
         | inr PyNone =>
             inl (ValueError
                    "TPUEstimatorSpec.scaffold_fn returns None, which is not allowed")
         | r => r
         end)
  ∧ (∀ self, capture f __init__ = (inr tt, self) →
       _get_scaffold call self ≠ inr PyNone).
Proof.
  intros Hf.
  assert (Hrun : ∀ self, capture f __init__ = (inr tt, self) →
            _get_scaffold call self
            = match call f with
              | inr PyNone =>
                  inl (ValueError
                         "TPUEstimatorSpec.scaffold_fn returns None, which is not allowed")
              | r => r
              end).
  { intros self [= <-]. unfold _get_scaffold. cbn. rewrite Hf.
    by destruct (call f) as [e|[]]. }
  split; [reflexivity|]. split; [exact Hrun|].
  intros self Hcap. rewrite (Hrun self Hcap).
  by destruct (call f) as [e|[]].
Qed.

Lemma _get_scaffold_spec_witness :
  _get_scaffold (λ _, inr PyNone) __init__ = inr PyNone
  ∧ _get_scaffold (λ _, inr PyNone) (mkCaptured (PyObject 1))
    = inl (ValueError
             "TPUEstimatorSpec.scaffold_fn returns None, which is not allowed").
Proof.
  destruct (_get_scaffold_spec (λ _, inr PyNone) (PyObject 1) eq_refl)
    as (H1 & H2 & _).
  split; [exact H1|]. exact (H2 (mkCaptured (PyObject 1)) eq_refl).
Defined.

End ScaffoldFacts.

(** ** Reporting the unsupported operations *)

Section Reporting.

Lemma set_st_log_nil s : set_st_log (λ l, l ++ []) s = s.
Proof. destruct s. unfold set_st_log. cbn. by rewrite app_nil_r. Qed.

Lemma set_st_log_app a b s :
  set_st_log (λ l, l ++ b) (set_st_log (λ l, l ++ a) s)
  = set_st_log (λ l, l ++ (a ++ b)) s.
Proof. destruct s. unfold set_st_log. cbn. by rewrite app_assoc. Qed.

Lemma report_lines ops s :
  Forall (λ op, is_Some (st_ops s !! op)) ops →
  ∃ lines,
    mapM (λ op, o ← get_op op;
                mret ("  " +:+ op_type o +:+ " (" +:+ op +:+ ")")) ops s
    = (inr lines, s)
    ∧ length lines = length ops.
Proof.
  induction ops as [|x l IH]; intros Hl; [by exists []|].
  apply Forall_cons in Hl as [[o Hx] Hl].
  destruct (IH Hl) as (lines & Hrun & Hlen). eexists. split.
  - eapply mapM_cons_run; [|exact Hrun].
    by rewrite (run_bind_ok _ _ _ _ _ (run_get_op _ _ _ Hx)).
  - cbn. by rewrite Hlen.
Qed.

Lemma report_unsupported_operations_run_msgs s c outer :
  st_context s = c :: outer →
  reportable s →
  ∃ msgs,
    report_unsupported_operations s
    = (inr tt, set_st_log (λ l, l ++ msgs) s)
    ∧ (Forall (λ m, m.1 = LogWarning) msgs
       ∧ length msgs
         = (if decide (length (_unsupported_ops c) = 0) then 0
            else if decide (length (_unsupported_ops c) ≤ _MAX_WARNING_LINES)
                 then 1 else 2)).
Proof.
  intros Hctx Hrep. unfold reportable in Hrep. rewrite Hctx in Hrep.
  unfold report_unsupported_operations.
  rewrite (run_bind_ok _ _ _ _ _ (run_get_self _ _ _ Hctx)).
  destruct (_unsupported_ops c) as [|u us] eqn:Hu.
  { exists []. rewrite set_st_log_nil. by repeat split. }
  destruct (report_lines (take _MAX_WARNING_LINES (u :: us)) s)
    as (lines & Hrun & _); [by apply Forall_take|].
  rewrite (run_bind_ok _ _ _ _ _ Hrun). unfold log.
  rewrite run_modify_bind.
  rewrite decide_False by done.
  case_bool_decide as Hmore.
  - eexists [_; _]. cbn [when]. split.
    { unfold modify. by rewrite set_st_log_app. }
    split; [by repeat constructor|].
    rewrite decide_False by lia. done.
  - eexists [_]. split; [reflexivity|].
    split; [by repeat constructor|].
    rewrite decide_True by lia. done.
Qed.

(** X1: [report_unsupported_operations] only logs, and only warnings:
    nothing when the context has recorded no unsupported operation;
    otherwise one warning, and a second one exactly when more than
    [_MAX_WARNING_LINES] operations were recorded. *)
Theorem report_unsupported_operations_warnings
    (s : State) (c : XLACompileContext) (outer : list XLACompileContext) :
  st_context s = c :: outer →
  reportable s →
  ∃ msgs,
    report_unsupported_operations s
    = (inr tt, set_st_log (λ l, l ++ msgs) s)
    ∧ Forall (λ m, m.1 = LogWarning) msgs
    ∧ length msgs
      = (if decide (length (_unsupported_ops c) = 0) then 0
         else if decide (length (_unsupported_ops c) ≤ _MAX_WARNING_LINES)
              then 1 else 2).
Proof. apply report_unsupported_operations_run_msgs. Qed.

Lemma report_unsupported_operations_warnings_witness :
  ∃ msgs,
    report_unsupported_operations example_state_reporting
    = (inr tt, set_st_log (λ l, l ++ msgs) example_state_reporting)
    ∧ length msgs = 2.
Proof.
  destruct (report_unsupported_operations_warnings example_state_reporting
              (mkContext 0 "cluster" "cluster/pivot"
                         ["p1"; "p2"; "p3"; "p4"; "p5"; "p6"] ∅ ∅) [])
    as (msgs & Hrun & _ & Hlen).
  - reflexivity.
  - unfold reportable. cbn. repeat constructor; by eexists.
  - exists msgs. split; [exact Hrun|exact Hlen].
Defined.

End Reporting.

(** ** Splitting the control inputs *)

Section Splitting.

Lemma partition_control_inputs_run self cins s :
  Forall (λ x, is_Some (st_ops s !! x)) cins →
  partition_control_inputs self cins s
  = (inr (List.filter (is_internal_input s self) cins,
          List.filter (λ x, negb (is_internal_input s self x)) cins), s).
Proof.
  induction cins as [|x rest IH]; intros Hall; [reflexivity|].
  apply Forall_cons in Hall as [[ox Hx] Hall].
  cbn [partition_control_inputs].
  rewrite (run_bind_ok _ _ _ _ _ (run_get_op _ _ _ Hx)).
  rewrite (run_bind_ok _ _ _ _ _ (IH Hall)).
  assert (E : is_internal_input s self x
              = is_internal_op self (op_context ox)).
  { unfold is_internal_input. by rewrite Hx. }
  cbn [List.filter]. rewrite E.
  by destruct (is_internal_op self (op_context ox)).
Qed.

Lemma filter_split_Permutation {A} (f : A → bool) l :
  List.filter f l ++ List.filter (λ x, negb (f x)) l ≡ₚ l.
Proof.
  induction l as [|x l IH]; [done|]. cbn. destruct (f x); cbn.
  - by rewrite IH.
  - rewrite <- Permutation_middle. by rewrite IH.
Qed.

(** X2: [_RemoveExternalControlEdges] completes whenever the control inputs
    of the operation are operations of the graph.  It returns them split
    in two, each part in the original order: those that lie in the
    receiver, and the others.  The operation keeps the first part as its
    control inputs; nothing else of the graph is changed. *)
Theorem _RemoveExternalControlEdges_splits
    (op : string) (o : Operation) (self : XLACompileContext)
    (outer : list XLACompileContext) (s : State) :
  st_context s = self :: outer →
  st_ops s !! op = Some o →
  Forall (λ x, is_Some (st_ops s !! x)) (op_control_inputs o) →
  _RemoveExternalControlEdges op s
  = (inr (internal_control_inputs_of s self o,
          external_control_inputs_of s self o),
     set_st_ops
       (insert op
          (set_op_control_inputs (λ _, internal_control_inputs_of s self o) o))
       s)
  ∧ internal_control_inputs_of s self o ++ external_control_inputs_of s self o
    ≡ₚ op_control_inputs o
  ∧ Forall (λ x, is_internal_input s self x = true)
           (internal_control_inputs_of s self o)
  ∧ Forall (λ x, is_internal_input s self x = false)
           (external_control_inputs_of s self o).
Proof.
  intros Hctx Hop Hall. split; [|split; [|split]].
  - unfold _RemoveExternalControlEdges.
    rewrite (run_bind_ok _ _ _ _ _ (run_get_self _ _ _ Hctx)).
    rewrite (run_bind_ok _ _ _ _ _ (run_get_op _ _ _ Hop)).
    rewrite (run_bind_ok _ _ _ _ _ (partition_control_inputs_run _ _ _ Hall)).
    unfold _remove_all_control_inputs, _add_control_inputs, modify_op.
    rewrite !run_modify_bind. cbn [mret M_ret]. f_equal.
    destruct s. unfold set_st_ops. cbn in *. f_equal.
    apply map_eq. intros x. destruct (decide (x = op)) as [->|Hne].
    + by rewrite !lookup_alter_eq, lookup_insert_eq, Hop.
    + by rewrite !lookup_alter_ne, lookup_insert_ne by done.
  - apply filter_split_Permutation.
  - apply Forall_forall. intros x Hx.
    by apply list_elem_of_In, List.filter_In in Hx as [_ Hx].
  - apply Forall_forall. intros x Hx.
    apply list_elem_of_In, List.filter_In in Hx as [_ Hx].
    by apply negb_true_iff in Hx.
Qed.

Lemma _RemoveExternalControlEdges_splits_witness :
  _RemoveExternalControlEdges "b" example_state
  = (inr (["i"], ["x"]),
     set_st_ops
       (insert "b"
          (mkOperation "Relu" [tensor_of "x"] ["i"] [tensor_of "b"] ∅ [0] ""))
       example_state).
Proof.
  destruct (_RemoveExternalControlEdges_splits "b"
              (mkOperation "Relu" [tensor_of "x"] ["i"; "x"] [tensor_of "b"]
                           ∅ [0] "")
              cluster [] example_state) as (Hrun & _).
  - reflexivity.
  - reflexivity.
  - repeat constructor; by eexists.
  - exact Hrun.
Defined.

End Splitting.


(** ** AddValue keeps names *)

Section Names.

Lemma AddValue_name chain val :
  Forall names_kept chain → t_name (AddValue chain val).1 = t_name val.
Proof.
  induction chain as [|self outer IH]; intros Hkept; [done|].
  apply Forall_cons in Hkept as [Hself Houter].
  destruct (decide (t_name val ∈ _values self)) as [Hseen|Hnew].
  - rewrite AddValue_seen by done. cbn [fst].
    destruct (_external_values self !! t_name val) as [r|] eqn:E; [|done].
    by apply Hself.
  - destruct outer as [|c outer].
    + by rewrite AddValue_unseen_top.
    + rewrite AddValue_unseen_inner by done. cbn [fst]. by apply IH.
Qed.

Lemma names_kept_insert n r f c :
  t_name r = n → names_kept c →
  names_kept (set_external_values (insert n r) (set_values f c)).
Proof.
  intros Hr Hc n' r'. cbn [_external_values set_external_values set_values].
  destruct (decide (n' = n)) as [->|Hne].
  - rewrite lookup_insert_eq. by intros [= <-].
  - rewrite lookup_insert_ne by done. apply Hc.
Qed.

(** X9: In a chain of contexts whose recorded values carry the names they
    are recorded under, [AddValue] answers with a value of the name it
    was asked for, and leaves a chain of that kind, in which no context
    has forgotten a value it had seen. *)
Theorem AddValue_keeps_names (chain : list XLACompileContext) (val : Tensor) :
  Forall names_kept chain →
  t_name (AddValue chain val).1 = t_name val
  ∧ Forall names_kept (AddValue chain val).2
  ∧ Forall2 (λ c c', ctx_id c' = ctx_id c ∧ _values c ⊆ _values c')
            chain (AddValue chain val).2.
Proof.
  intros Hkept. split; [by apply AddValue_name|]. split.
  - induction chain as [|self outer IH]; [constructor|].
    apply Forall_cons in Hkept as [Hself Houter].
    destruct (decide (t_name val ∈ _values self)) as [Hseen|Hnew].
    + rewrite AddValue_seen by done. by constructor.
    + destruct outer as [|c outer].
      * rewrite AddValue_unseen_top by done. constructor; [|constructor].
        by apply names_kept_insert.
      * rewrite AddValue_unseen_inner by done. constructor; [|by apply IH].
        assert (Hk : names_kept
                       (set_values (λ vs, {[t_name val]} ∪ vs) self)).
        { exact Hself. }
        apply names_kept_insert; [by apply AddValue_name|exact Hk].
  - eapply Forall2_impl; [apply AddValue_quiet|].
    intros c c' [(Hid & _ & _ & Hv & _) _]. by split.
Qed.

Lemma AddValue_keeps_names_witness :
  t_name (AddValue [cluster] (tensor_of "x")).1 = "x:0"
  ∧ Forall names_kept (AddValue [cluster] (tensor_of "x")).2.
Proof.
  destruct (AddValue_keeps_names [cluster] (tensor_of "x")) as (H1 & H2 & _).
  - constructor; [|constructor]. unfold names_kept, cluster.
    cbn [_external_values]. intros n r H. by rewrite lookup_empty in H.
  - split; [exact H1|exact H2].
Defined.

End Names.

(** ** AddOp: what it leaves, what it records, what it refuses *)

Section AddOpMore.

(** X3: [AddOp], completed or raising, is steady: it removes no operation
    and changes no operation's type, outputs or context; the chain of
    contexts is the same chain, and no context forgets a value or an
    unsupported operation; names, feed and fetch marks and the log only
    grow; the pending control dependencies, the device, the use-resource
    flag and the summary toggle are as before. *)
Theorem AddOp_steady (op : string) (s : State) : steady s (AddOp op s).2.
Proof.
  destruct (AddOp op s) as [r s'] eqn:E. by apply wb_AddOp in E.
Qed.

(** X4: A completed [AddOp] has tagged the operation with the name of the
    context (it carried no tag before), barred it from feeding and
    fetching, and made its outputs values that the context has seen; the
    type, the outputs and the context of the operation are as before. *)
Theorem AddOp_marks_operation (op : string) (o : Operation) (s s' : State) :
  AddOp op s = (inr tt, s') →
  st_ops s !! op = Some o →
  ∃ self self' o',
    st_context s = [self] ∧ st_context s' = [self']
    ∧ st_ops s' !! op = Some o'
    ∧ same_shape o o'
    ∧ (_XLA_COMPILE_ATTR ∉ dom (op_attr o))
    ∧ op_attr o' = <[_XLA_COMPILE_ATTR := _name self]> (op_attr o)
    ∧ op ∈ st_unfeedable s'
    ∧ op ∈ st_unfetchable s'
    ∧ (∀ t, t ∈ op_outputs o → t_name t ∈ _values self').
Proof.
  intros H Hop.
  destruct (AddOp_bookkeeping op o s s' H Hop)
    as (self & self' & o' & H1 & H2 & H3 & H4 & H5 & H6 & H7 & H8 & H9 & _).
  exists self, self', o'.
  exact (conj H1 (conj H2 (conj H3 (conj H4 (conj H5 (conj H6
           (conj H7 (conj H8 H9)))))))).
Qed.

Lemma AddOp_marks_operation_witness :
  ∃ self' o',
    st_context (AddOp "print" example_state_summaries).2 = [self']
    ∧ st_ops (AddOp "print" example_state_summaries).2 !! "print" = Some o'
    ∧ op_attr o' !! _XLA_COMPILE_ATTR = Some "cluster"
    ∧ "print" ∈ st_unfeedable (AddOp "print" example_state_summaries).2
    ∧ "print:0" ∈ _values self'.
Proof.
  destruct (AddOp_marks_operation "print"
              (mkOperation "Print" [tensor_of "i"] [] [tensor_of "print"]
                           ∅ [0] "")
              example_state_summaries
              (AddOp "print" example_state_summaries).2)
    as (self & self' & o' & H1 & H2 & H3 & _ & _ & H6 & H7 & _ & H9).
  - vm_compute. reflexivity.
  - reflexivity.
  - exists self', o'. split; [exact H2|]. split; [exact H3|].
    split; [|split; [exact H7|]].
    + rewrite H6. injection H1 as <-. apply lookup_insert_eq.
    + apply (H9 (tensor_of "print")). apply list_elem_of_here.
Defined.

(** X5: A completed [AddOp] has recorded an operation of an unsupported
    type in the context, and has logged an error for one of a
    blacklisted type; the report of the context then warns. *)
Theorem AddOp_records_unsupported (op : string) (o : Operation) (s s' : State) :
  AddOp op s = (inr tt, s') →
  st_ops s !! op = Some o →
  reportable s →
  (op_type o ∈ _BLACKLISTED_OPS → ∃ msg, (LogError, msg) ∈ st_log s')
  ∧ (op_type o ∈ _UNSUPPORTED_OPS →
     ∃ self' msgs,
       st_context s' = [self']
       ∧ op ∈ _unsupported_ops self'
       ∧ report_unsupported_operations s'
         = (inr tt, set_st_log (λ l, l ++ msgs) s')
       ∧ msgs ≠ []).
Proof.
  intros H Hop Hrep.
  destruct (AddOp_bookkeeping op o s s' H Hop)
    as (self & self' & o' & _ & Hself' & _ & _ & _ & _ & _ & _ & _
        & Hunsup & Hblack).
  split; [exact Hblack|]. intros Hty.
  assert (Hrep' : reportable s').
  { apply wb_AddOp in H as (_ & _ & _ & _ & _ & _ & _ & _ & _ & _ & Hr).
    by apply Hr. }
  destruct (report_unsupported_operations_run_msgs s' self' [] Hself' Hrep')
    as (msgs & Hrun & Hlen).
  exists self', msgs. split; [done|]. split; [by apply Hunsup|].
  split; [done|]. intros ->.
  specialize (Hunsup Hty). destruct Hlen as [_ Hlen].
  destruct (_unsupported_ops self') as [|u us];
    [by apply elem_of_nil in Hunsup|].
  rewrite decide_False in Hlen by done. by destruct (decide _).
Qed.

Lemma AddOp_records_unsupported_witness :
  ∃ self' msgs,
    st_context (AddOp "print" example_state_summaries).2 = [self']
    ∧ "print" ∈ _unsupported_ops self'
    ∧ report_unsupported_operations (AddOp "print" example_state_summaries).2
      = (inr tt,
         set_st_log (λ l, l ++ msgs)
                    (AddOp "print" example_state_summaries).2)
    ∧ msgs ≠ [].
Proof.
  destruct (AddOp_records_unsupported "print"
              (mkOperation "Print" [tensor_of "i"] [] [tensor_of "print"]
                           ∅ [0] "")
              example_state_summaries
              (AddOp "print" example_state_summaries).2)
    as [_ H].
  - vm_compute. reflexivity.
  - reflexivity.
  - constructor.
  - apply H. vm_compute. set_solver.
Defined.

(** X6: Inside a context, [AddOp] refuses every operation one of whose data
    inputs has a reference dtype, tagged or not, with
    NotImplementedError; the operations and the marks of the graph are
    left as they were. *)
Theorem AddOp_rejects_reference_inputs
    (op : string) (o : Operation) (self : XLACompileContext)
    (outer : list XLACompileContext) (s : State) :
  st_context s = self :: outer →
  st_ops s !! op = Some o →
  existsb t_is_ref_dtype (op_inputs o) = true →
  ∃ s1,
    AddOp op s
    = (inl (NotImplementedError
              ("Non-resource Variables are not supported inside XLA computations "
                 +:+ "(operator name: " +:+ op +:+ ")")), s1)
    ∧ st_ops s1 = st_ops s
    ∧ st_unfeedable s1 = st_unfeedable s
    ∧ st_unfetchable s1 = st_unfetchable s.
Proof.
  intros Hctx Hop Href. rewrite (AddOp_receiver _ _ _ _ Hctx).
  destruct (screening_steps op o s)
    as (s1 & Hrun & Hops & _ & Hfeed & Hfetch & _).
  exists s1. split; [|done]. unfold AddOp_body.
  rewrite (run_bind_ok _ _ _ _ _ (run_get_self _ _ _ Hctx)).
  rewrite (run_bind_ok _ _ _ _ _ (run_get_op _ _ _ Hop)).
  apply bind_inr in Hrun as (u1 & sa & Hlog & Hunsup).
  rewrite (run_bind_ok _ _ _ _ _ Hlog).
  rewrite (run_bind_ok _ _ _ _ _ Hunsup).
  by rewrite Href.
Qed.

Lemma AddOp_rejects_reference_inputs_witness :
  ∃ s1,
    AddOp "tagged_ref" example_state
    = (inl (NotImplementedError
              "Non-resource Variables are not supported inside XLA computations (operator name: tagged_ref)"),
       s1)
    ∧ st_ops s1 = st_ops example_state.
Proof.
  destruct (AddOp_rejects_reference_inputs "tagged_ref"
              (mkOperation "Relu" [ref_tensor_of "v"] [] [tensor_of "tagged_ref"]
                 {[ _XLA_COMPILE_ATTR := "cluster_1" ]} [0] "")
              cluster [] example_state)
    as (s1 & Hrun & Hops & _).
  - reflexivity.
  - reflexivity.
  - reflexivity.
  - exists s1. split; [exact Hrun|exact Hops].
Defined.

(** X7: In a lone context [AddOp] completes on every operation of the graph
    that has no control input, carries no tag and reads no
    reference-typed value. *)
Theorem AddOp_accepts
    (op : string) (o : Operation) (c : XLACompileContext) (s : State) :
  st_context s = [c] →
  st_ops s !! op = Some o →
  op_control_inputs o = [] →
  _XLA_COMPILE_ATTR ∉ dom (op_attr o) →
  existsb t_is_ref_dtype (op_inputs o) = false →
  ∃ s', AddOp op s = (inr tt, s').
Proof. intros. by eapply AddOp_with_ok. Qed.

Lemma AddOp_accepts_witness :
  ∃ s', AddOp "print" example_state_summaries = (inr tt, s').
Proof.
  apply (AddOp_accepts "print"
           (mkOperation "Print" [tensor_of "i"] [] [tensor_of "print"]
                        ∅ [0] "") cluster).
  - reflexivity.
  - reflexivity.
  - reflexivity.
  - cbn. set_solver.
  - reflexivity.
Defined.

End AddOpMore.

(** ** The compile driver: what it gives back *)

Section DriverMore.

Lemma wb_constant_computation : well_behaved_computation constant_computation.
Proof. intros args. unfold constant_computation. solve [wb_auto]. Qed.


(** X10: However the driver ends and whatever the computation does, the
    summary toggle is the one the driver was called with. *)
Theorem _compile_internal_restores_skip_summary
    (computation : list PyVal → M PyVal) (inputs : PyVal) (s : State) :
  st_skip_summary (_compile_internal computation inputs s).2
  = st_skip_summary s.
Proof.
  destruct (_compile_internal computation inputs s) as [r s'] eqn:E.
  by apply ks__compile_internal in E.
Qed.



(** X12: With such a computation the driver, completed or raising, only adds
    to the graph: every operation is still there with its type, outputs
    and context; the names handed out, the operations barred from
    feeding and fetching, and the log have only grown. *)
Theorem _compile_internal_graph_grows
    (computation : list PyVal → M PyVal) (inputs : PyVal) (s : State) :
  well_behaved_computation computation →
  (∀ x o, st_ops s !! x = Some o →
          ∃ o', st_ops (_compile_internal computation inputs s).2 !! x
                = Some o'
                ∧ same_shape o o')
  ∧ st_names s ⊆ st_names (_compile_internal computation inputs s).2
  ∧ st_unfeedable s
    ⊆ st_unfeedable (_compile_internal computation inputs s).2
  ∧ st_unfetchable s
    ⊆ st_unfetchable (_compile_internal computation inputs s).2
  ∧ st_log s `prefix_of` st_log (_compile_internal computation inputs s).2.
Proof.
  intros Hc.
  destruct (_compile_internal computation inputs s) as [r s'] eqn:E.
  apply _compile_internal_settled in E
    as (_ & Ho & Hn & Hf & Hg & Hl & _); [|done].
  by repeat split.
Qed.

Lemma _compile_internal_graph_grows_witness :
  ∃ o',
    st_ops (_compile_internal constant_computation PyNone example_state).2
      !! "x" = Some o'
    ∧ op_type o' = "Const".
Proof.
  destruct (_compile_internal_graph_grows constant_computation PyNone
              example_state wb_constant_computation) as (Ho & _).
  destruct (Ho "x" (mkOperation "Const" [] [] [tensor_of "x"] ∅ [] "")
               eq_refl) as (o' & Hx & Hty & _).
  exists o'. split; [exact Hx|exact Hty].
Defined.

End DriverMore.

(** ** Output normalisation, in general *)

Section Normalising.

Lemma mapM_inr_Forall2 {A B} (R : A → B → Prop) (f : A → M B) l :
  (∀ x y s s', f x s = (inr y, s') → R x y) →
  ∀ ys s s', mapM f l s = (inr ys, s') → Forall2 R l ys.
Proof.
  intros Hf. induction l as [|x l IH]; intros ys s s' H.
  - apply ret_inr in H as [-> _]. constructor.
  - cbn [mapM] in H.
    apply bind_inr in H as (y & s1 & Hx & H).
    apply bind_inr in H as (ys' & s2 & Hl & H).
    apply ret_inr in H as [-> _]. constructor; eauto.
Qed.

(** How an element of the outputs and its converted form go together. *)
Lemma converted_element v out s s' :
  match v with
  | PyOperation x => mret (OutOperation x)
  | _ => t ← ops_convert_to_tensor v; mret (OutTensor t)
  end s = (inr out, s') →
  match v with
  | PyOperation x => out = OutOperation x
  | _ => ∃ t, out = OutTensor t
  end.
Proof.
  destruct v; intros H;
    try (apply bind_inr in H as (t0 & s1 & _ & H);
         apply ret_inr in H as [-> _]; by eexists).
  by apply ret_inr in H as [-> _].
Qed.

Lemma converted_tensors vs ts :
  Forall2 (λ v out, match v with
                    | PyOperation x => out = OutOperation x
                    | _ => ∃ t, out = OutTensor t
                    end) vs (OutTensor <$> ts) →
  Forall (λ v, ∀ x, v ≠ PyOperation x) vs ∧ length vs = length ts.
Proof.
  revert ts. induction vs as [|v vs IH]; intros ts H.
  - apply Forall2_nil_inv_l in H. by destruct ts.
  - destruct ts as [|t ts]; [by apply Forall2_nil_inv_r in H|].
    cbn in H. apply Forall2_cons in H as [Hv H].
    destruct (IH ts H) as [Hall Hlen]. split; [|by cbn; rewrite Hlen].
    constructor; [|done]. intros x ->. done.
Qed.

Lemma converted_operations vs ops :
  Forall2 (λ v out, match v with
                    | PyOperation x => out = OutOperation x
                    | _ => ∃ t, out = OutTensor t
                    end) vs (OutOperation <$> ops) →
  vs = PyOperation <$> ops.
Proof.
  revert ops. induction vs as [|v vs IH]; intros ops H.
  - apply Forall2_nil_inv_l in H. by destruct ops.
  - destruct ops as [|x ops]; [by apply Forall2_nil_inv_r in H|].
    cbn in H. apply Forall2_cons in H as [Hv H].
    rewrite (IH ops H). cbn. f_equal.
    destruct v; try (by destruct Hv). by injection Hv as ->.
Qed.

(** The outputs with the appended operation, split as values followed by
    operations: the split of the outputs themselves. *)
Lemma values_then_operations l noop vals ops :
  l ++ [PyOperation noop] = vals ++ (PyOperation <$> ops) →
  Forall (λ v, ∀ x, v ≠ PyOperation x) vals →
  ∃ ops', ops = ops' ++ [noop] ∧ l = vals ++ (PyOperation <$> ops').
Proof.
  intros Heq Hvals. destruct ops as [|x ops _] using rev_ind.
  - cbn in Heq. rewrite app_nil_r in Heq. subst vals.
    apply Forall_app in Hvals as [_ Hlast].
    apply Forall_cons in Hlast as [Hlast _]. by destruct (Hlast noop).
  - rewrite fmap_app, app_assoc in Heq. cbn in Heq.
    apply app_inj_tail in Heq as [-> [= ->]]. by exists ops.
Qed.

Lemma mapM_length {A B} (f : A → M B) l :
  ∀ ys s s', mapM f l s = (inr ys, s') → length ys = length l.
Proof.
  intros ys s s' H.
  apply (mapM_inr_Forall2 (λ _ _, True)) in H; [|done].
  symmetry. by eapply Forall2_length.
Qed.

Lemma _postprocess_flat_outputs_items_inr l ts ops s s' :
  (noop ← control_flow_ops_no_op "NoOp";
   outputs ← mret (l ++ [PyOperation noop]);
   outputs ←
     try_except
       (mapM (λ o, match o with
                   | PyOperation x => mret (OutOperation x)
                   | _ => t ← ops_convert_to_tensor o; mret (OutTensor t)
                   end) outputs)
       (λ e, raise (ValueError (not_convertible_message e)));
   let output_operations := output_operations_of outputs in
   let output_tensors := output_tensors_of outputs in
   if bool_decide (outputs ≠ (OutTensor <$> output_tensors)
                              ++ (OutOperation <$> output_operations))
   then raise (ValueError
                 ("XLA computation function must return zero or more Tensor values "
                    +:+ "followed by zero or more Operations."))
   else
     new_output_tensors ←
       mapM (λ t, with_device (t_device t) (array_ops_identity t "Identity"))
            output_tensors;
     mret (new_output_tensors, output_operations)) s
  = (inr (ts, ops), s') →
  ∃ vals ops' noop,
    l = vals ++ (PyOperation <$> ops')
    ∧ Forall (λ v, ∀ x, v ≠ PyOperation x) vals
    ∧ ops = ops' ++ [noop]
    ∧ length ts = length vals.
Proof.
  intros H.
  apply bind_inr in H as (noop & s1 & _ & H).
  rewrite run_ret_bind in H.
  apply bind_inr in H as (outs & s2 & Hconv & H).
  apply try_except_inr in Hconv; [|done].
  apply (mapM_inr_Forall2 _ _ _ converted_element) in Hconv.
  cbv zeta in H. case_bool_decide as Hsplit; [done|].
  apply bind_inr in H as (new & s3 & Hid & [[= -> ->] _]%ret_inr).
  apply mapM_length in Hid.
  rewrite Hsplit in Hconv.
  apply Forall2_app_inv_r in Hconv as (vals & opsl & Hvals & Hops & Heq).
  apply converted_tensors in Hvals as [Hvals Hlen].
  apply converted_operations in Hops as ->.
  destruct (values_then_operations _ _ _ _ Heq Hvals) as (ops' & Hops' & ->).
  exists vals, ops', noop. split; [done|]. split; [done|].
  split; [done|]. by rewrite Hid, Hlen.
Qed.

Lemma _postprocess_flat_outputs_split outputs ts ops s s' :
  _postprocess_flat_outputs outputs s = (inr (ts, ops), s') →
  ∃ vals ops' noop,
    flat_items outputs = vals ++ (PyOperation <$> ops')
    ∧ Forall (λ v, ∀ x, v ≠ PyOperation x) vals
    ∧ ops = ops' ++ [noop]
    ∧ length ts = length vals.
Proof.
  intros H. destruct outputs;
    try (by apply (_postprocess_flat_outputs_items_inr []) in H);
    try (by apply _postprocess_flat_outputs_items_inr in H);
    try (by eapply (_postprocess_flat_outputs_items_inr [_]) in H).
  unfold _postprocess_flat_outputs in H. cbn [is_Sequence] in H.
  by apply bind_inr in H as (noop & s1 & _ & H).
Qed.

(** X17: Whenever the normalisation of flat outputs completes, the outputs
    were values followed by operations; the operations returned are
    those operations and the appended NoOp, and one tensor is returned
    per value.  None counts as no element, a single value as one. *)
Theorem _postprocess_flat_outputs_inr
    (outputs : PyVal) (ts : list Tensor) (ops : list string) (s s' : State) :
  _postprocess_flat_outputs outputs s = (inr (ts, ops), s') →
  ∃ vals ops' noop,
    flat_items outputs = vals ++ (PyOperation <$> ops')
    ∧ Forall (λ v, ∀ x, v ≠ PyOperation x) vals
    ∧ ops = ops' ++ [noop]
    ∧ length ts = length vals.
Proof. apply _postprocess_flat_outputs_split. Qed.

Lemma _postprocess_flat_outputs_inr_witness :
  ∃ ts ops s' vals ops' noop,
    _postprocess_flat_outputs
      (PyList [PyTensor (tensor_of "x"); PyInt 7; PyOperation "y"])
      example_state
    = (inr (ts, ops), s')
    ∧ [PyTensor (tensor_of "x"); PyInt 7; PyOperation "y"]
      = vals ++ (PyOperation <$> ops')
    ∧ ops = ops' ++ [noop]
    ∧ length ts = length vals.
Proof.
  assert (H : ∃ ts ops s',
            _postprocess_flat_outputs
              (PyList [PyTensor (tensor_of "x"); PyInt 7; PyOperation "y"])
              example_state
            = (inr (ts, ops), s')).
  { eexists _, _, _. vm_compute. reflexivity. }
  destruct H as (ts & ops & s' & H).
  destruct (_postprocess_flat_outputs_inr _ ts ops _ s' H)
    as (vals & ops' & noop & H1 & _ & H3 & H4).
  exists ts, ops, s', vals, ops', noop.
  exact (conj H (conj H1 (conj H3 H4))).
Defined.

(** A value that does not convert makes its conversion raise, in every
    state. *)
Lemma convert_to_tensor_raises v s :
  tensor_leaves v = None →
  ∃ e, ops_convert_to_tensor v s = (inl e, s).
Proof.
  intros Hv. unfold ops_convert_to_tensor, convert_to_tensor.
  destruct v; try done; try (by eexists); rewrite Hv; by eexists.
Qed.

Lemma mapM_raises {A B} (f : A → M B) l x :
  x ∈ l → (∀ s, ∃ e s', f x s = (inl e, s')) →
  ∀ s, ∃ e s', mapM f l s = (inl e, s').
Proof.
  intros Hin Hx. induction l as [|y l IH]; intros s.
  - by apply elem_of_nil in Hin.
  - cbn [mapM]. rewrite run_bind.
    destruct (f y s) as [[e|b] s1] eqn:E; [by eexists _, _|].
    apply elem_of_cons in Hin as [->|Hin].
    + destruct (Hx s) as (e & s' & He). congruence.
    + destruct (IH Hin s1) as (e & s' & He).
      rewrite run_bind, He. by eexists _, _.
Qed.

(** X18: Outputs with an element that is neither an operation nor
    convertible are refused with the ValueError that names the
    conversion error, wherever the element stands. *)
Theorem _postprocess_flat_outputs_rejects_inconvertible
    (l : list PyVal) (v : PyVal) (s : State) :
  calm s →
  v ∈ l →
  (∀ x, v ≠ PyOperation x) →
  tensor_leaves v = None →
  ∃ e s',
    _postprocess_flat_outputs (PyList l) s
    = (inl (ValueError (not_convertible_message e)), s').
Proof.
  intros Hcalm Hin Hop Hv.
  destruct (no_op_ok "NoOp" s Hcalm) as (noop & s1 & Hnoop & _).
  unfold _postprocess_flat_outputs. cbn [is_Sequence].
  rewrite (run_bind_ok _ _ _ _ _ Hnoop), run_ret_bind.
  destruct (mapM_raises
              (λ o, match o with
                    | PyOperation x => mret (OutOperation x)
                    | _ => t ← ops_convert_to_tensor o; mret (OutTensor t)
                    end) (l ++ [PyOperation noop]) v) with (s := s1)
    as (e & s2 & Hrun).
  { apply elem_of_app. by left. }
  { intros s0. destruct (convert_to_tensor_raises v s0 Hv) as [e He].
    exists e, s0. destruct v; try by rewrite (run_bind_raise _ _ _ _ _ He).
    by destruct (Hop o). }
  exists e, s2. eapply run_bind_raise. unfold try_except. by rewrite Hrun.
Qed.

Lemma _postprocess_flat_outputs_rejects_inconvertible_witness :
  ∃ e s',
    _postprocess_flat_outputs
      (PyList [PyTensor (tensor_of "x"); PyNone; PyOperation "y"])
      example_state
    = (inl (ValueError (not_convertible_message e)), s').
Proof.
  apply (_postprocess_flat_outputs_rejects_inconvertible _ PyNone).
  - right. split; [by exists cluster|reflexivity].
  - apply list_elem_of_In. vm_compute. auto.
  - done.
  - reflexivity.
Defined.

Lemma non_flat_loop_ok os : ∀ acc s,
  calm s →
  Forall (λ v, convertible v ∧ leaves_admitted s v) os →
  ∃ ts s',
    non_flat_loop os acc s = (inr (acc ++ ts), s')
    ∧ length ts = length os
    ∧ grows s s'.
Proof.
  induction os as [|v os IH]; intros acc s Hcalm Hall.
  - exists [], s. rewrite app_nil_r. split; [done|].
    split; [done|apply grows_refl].
  - apply Forall_cons in Hall as [[Hconv Hadm] Hall].
    destruct (convert_to_tensor_ok v s Hcalm Hconv Hadm)
      as (t & s1 & Hrun & Hg1 & Hadm1 & _).
    assert (Hcalm1 : calm s1) by by eapply grows_calm.
    destruct (identity_on_device_ok t s1 Hcalm1 Hadm1)
      as (t' & s2 & Hid & Hg2 & _).
    assert (Hg02 : grows s s2) by by eapply grows_trans.
    destruct (IH (acc ++ [t']) s2) as (ts & s' & Hloop & Hlen & Hg3).
    { by eapply grows_calm. }
    { eapply Forall_impl; [exact Hall|]. intros v' [Hc Ha].
      split; [done|by eapply leaves_admitted_grows]. }
    exists (t' :: ts), s'. split; [|split; [by cbn; rewrite Hlen|]].
    + cbn [non_flat_loop].
      assert (Hstep :
        (t ← try_except (ops_convert_to_tensor v)
               (λ e, raise (ValueError (not_convertible_message e)));
         t' ← with_device (t_device t) (array_ops_identity t "Identity");
         non_flat_loop os (acc ++ [t'])) s
        = (inr (acc ++ t' :: ts), s')).
      { rewrite (run_bind_ok _ _ _ _ _ (try_except_run_ok _ _ _ _ _ Hrun)).
        rewrite (run_bind_ok _ _ _ _ _ Hid).
        by rewrite Hloop, <- app_assoc. }
      destruct v; try exact Hstep. by destruct Hconv.
    + by eapply grows_trans.
Qed.

(** X20: Nested outputs whose leaves all convert: in a calm state that admits
    the graph values among them, normalisation completes with one
    tensor per leaf, and no operation. *)
Theorem _postprocess_non_flat_outputs_wraps_leaves
    (outputs : PyVal) (s : State) :
  calm s →
  Forall (λ v, convertible v ∧ leaves_admitted s v) (nest_flatten outputs) →
  ∃ ts s',
    _postprocess_non_flat_outputs outputs s = (inr (ts, []), s')
    ∧ length ts = length (nest_flatten outputs)
    ∧ grows s s'.
Proof.
  intros Hcalm Hall.
  destruct (non_flat_loop_ok (nest_flatten outputs) [] s Hcalm Hall)
    as (ts & s' & Hloop & Hlen & Hg).
  exists ts, s'. split; [|done].
  unfold _postprocess_non_flat_outputs.
  by rewrite (run_bind_ok _ _ _ _ _ Hloop).
Qed.

Lemma _postprocess_non_flat_outputs_wraps_leaves_witness :
  ∃ ts s',
    _postprocess_non_flat_outputs
      (PyList [PyList [PyTensor (tensor_of "x")]; PyList [PyInt 7]])
      example_state
    = (inr (ts, []), s')
    ∧ length ts = 2.
Proof.
  destruct (_postprocess_non_flat_outputs_wraps_leaves
              (PyList [PyList [PyTensor (tensor_of "x")]; PyList [PyInt 7]])
              example_state)
    as (ts & s' & Hrun & Hlen & _).
  - right. split; [by exists cluster|reflexivity].
  - cbn [nest_flatten app].
    constructor; [|constructor; [|constructor]];
      (split; [by eexists|intros ts [= <-]; by right]).
  - exists ts, s'. split; [exact Hrun|exact Hlen].
Defined.

End Normalising.

(** ** Outputs without values *)

Section OperationsOnly.

Lemma mapM_operations ops s :
  mapM (λ o, match o with
             | PyOperation x => mret (OutOperation x)
             | _ => t ← ops_convert_to_tensor o; mret (OutTensor t)
             end) (PyOperation <$> ops) s
  = (inr (OutOperation <$> ops), s).
Proof.
  induction ops as [|x ops IH]; [reflexivity|].
  cbn [fmap list_fmap]. eapply mapM_cons_run; [reflexivity|exact IH].
Qed.

Lemma output_tensors_of_operations ops :
  output_tensors_of (OutOperation <$> ops) = [].
Proof. induction ops as [|x ops IH]; [done|]. exact IH. Qed.

Lemma output_operations_of_operations ops :
  output_operations_of (OutOperation <$> ops) = ops.
Proof.
  induction ops as [|x ops IH]; [done|].
  cbn. unfold output_operations_of in IH. by rewrite IH.
Qed.

Lemma flat_operations_only_run ops s :
  calm s →
  ∃ noop s',
    (noop ← control_flow_ops_no_op "NoOp";
     outputs ← mret ((PyOperation <$> ops) ++ [PyOperation noop]);
     outputs ←
       try_except
         (mapM (λ o, match o with
                     | PyOperation x => mret (OutOperation x)
                     | _ => t ← ops_convert_to_tensor o; mret (OutTensor t)
                     end) outputs)
         (λ e, raise (ValueError (not_convertible_message e)));
     let output_operations := output_operations_of outputs in
     let output_tensors := output_tensors_of outputs in
     if bool_decide (outputs ≠ (OutTensor <$> output_tensors)
                                ++ (OutOperation <$> output_operations))
     then raise (ValueError
                   ("XLA computation function must return zero or more Tensor values "
                      +:+ "followed by zero or more Operations."))
     else
       new_output_tensors ←
         mapM (λ t, with_device (t_device t) (array_ops_identity t "Identity"))
              output_tensors;
       mret (new_output_tensors, output_operations)) s
    = (inr ([], ops ++ [noop]), s')
    ∧ grows s s'
    ∧ is_new_op s s' noop "NoOp".
Proof.
  intros Hcalm.
  destruct (no_op_ok "NoOp" s Hcalm) as (noop & s1 & Hnoop & Hg & Hnew).
  exists noop, s1. split; [|done].
  rewrite (run_bind_ok _ _ _ _ _ Hnoop), run_ret_bind.
  assert (Hlist : (PyOperation <$> ops) ++ [PyOperation noop]
                  = PyOperation <$> (ops ++ [noop])).
  { by rewrite fmap_app. }
  rewrite Hlist.
  rewrite (run_bind_ok _ _ _ _ _
             (try_except_run_ok _ _ _ _ _ (mapM_operations _ _))).
  cbv zeta.
  rewrite output_tensors_of_operations, output_operations_of_operations.
  rewrite bool_decide_eq_false_2; [reflexivity|]. intros Hne. by apply Hne.
Qed.

(** X19: Outputs that hold operations only, and the output None, normalise
    to no tensor and to the operations followed by the one new NoOp. *)
Theorem _postprocess_flat_outputs_operations_only
    (ops : list string) (s : State) :
  calm s →
  (∃ noop s',
     _postprocess_flat_outputs (PyList (PyOperation <$> ops)) s
     = (inr ([], ops ++ [noop]), s')
     ∧ grows s s'
     ∧ is_new_op s s' noop "NoOp")
  ∧ (∃ noop s',
       _postprocess_flat_outputs PyNone s = (inr ([], [noop]), s')
       ∧ grows s s'
       ∧ is_new_op s s' noop "NoOp").
Proof.
  intros Hcalm. split.
  - exact (flat_operations_only_run ops s Hcalm).
  - exact (flat_operations_only_run [] s Hcalm).
Qed.

Lemma _postprocess_flat_outputs_operations_only_witness :
  ∃ noop s',
    _postprocess_flat_outputs (PyList [PyOperation "y"; PyOperation "a"])
      example_state
    = (inr ([], ["y"; "a"; noop]), s').
Proof.
  destruct (_postprocess_flat_outputs_operations_only ["y"; "a"]
              example_state) as [(noop & s' & Hrun & _) _].
  - right. split; [by exists cluster|reflexivity].
  - exists noop, s'. exact Hrun.
Defined.

End OperationsOnly.

(** ** The driver on a computation that returns no value *)

Section NoValue.








End NoValue.

(** ** What the driver returns *)

Section Returned.

Lemma with_control_dependencies_inr {A} deps (m : M A) s a s' :
  with_control_dependencies deps m s = (inr a, s') →
  ∃ s1, m (set_st_control_deps (λ ds, ds ++ deps) s) = (inr a, s1).
Proof.
  unfold with_control_dependencies. rewrite run_bind. cbn [get].
  intros H. apply try_finally_inr in H as (s1 & u & H & _).
  rewrite run_modify_bind in H. by exists s1.
Qed.

Lemma call_with_star_inr computation computation_inputs outputs s s' :
  call_with_star computation computation_inputs s = (inr outputs, s') →
  ∃ args, computation args s = (inr outputs, s').
Proof.
  unfold call_with_star. destruct computation_inputs; try done; eauto.
Qed.

Lemma _disable_summary_context_inr {A} (m : M A) a s s' :
  _disable_summary_context m s = (inr a, s') →
  ∃ s1, m (set_st_skip_summary (λ _, SkipAlways) s) = (inr a, s1).
Proof.
  unfold _disable_summary_context. rewrite run_bind. cbn [get].
  rewrite run_modify_bind. intros H.
  apply try_finally_inr in H as (s1 & u & H & _). by exists s1.
Qed.

(** X15: When the driver returns, the computation had returned some outputs.
    If these were flat, they were values followed by operations, and the
    driver returns one operation when there was no value, and otherwise a
    list of tensors, one per value. *)
Theorem _compile_internal_returns
    (computation : list PyVal → M PyVal) (inputs r : PyVal) (s s' : State) :
  _compile_internal computation inputs s = (inr r, s') →
  ∃ outputs args s0 s1,
    computation args s0 = (inr outputs, s1)
    ∧ st_use_resource s0 = true
    ∧ st_skip_summary s0 = SkipAlways
    ∧ (is_flat outputs = true →
       ∃ vals ops,
         flat_items outputs = vals ++ (PyOperation <$> ops)
         ∧ Forall (λ v, ∀ x, v ≠ PyOperation x) vals
         ∧ match vals with
           | [] => ∃ op, r = PyOperation op
           | _ :: _ =>
               ∃ ts, r = PyList (PyTensor <$> ts) ∧ length ts = length vals
           end).
Proof.
  intros H. unfold _compile_internal in H.
  destruct (negb _); [done|].
  apply bind_inr in H as (flat_inputs & s1 & _ & H).
  apply bind_inr in H as (cluster_name & s2 & _ & H).
  apply bind_inr in H as (pivot & s3 & _ & H).
  apply bind_inr in H as (context & s4 & _ & H).
  apply bind_inr
    in H as ([[[outputs outputs_is_flat] output_tensors] control_deps]
             & s5 & Hregion & H).
  apply try_finally_inr in Hregion as (s6 & u & Hbody & _).
  unfold Enter in Hbody. rewrite run_modify_bind in Hbody.
  apply bind_inr in Hbody as (flat & s7 & _ & Hbody).
  apply bind_inr in Hbody as (computation_inputs & s8 & _ & Hbody).
  apply bind_inr in Hbody as (s9 & s9' & [-> ->]%get_inr & Hbody).
  cbv zeta in Hbody. rewrite run_modify_bind in Hbody.
  apply bind_inr in Hbody as (outputs' & s10 & Hcall & Hbody).
  apply _disable_summary_context_inr in Hcall as (s11 & Hcall).
  apply call_with_star_inr in Hcall as (args & Hcall).
  rewrite run_modify_bind in Hbody.
  apply bind_inr in Hbody as ([ts cdeps] & s12 & Hpost & Hbody).
  apply bind_inr in Hbody as (u2 & s13 & _ & [[= -> -> -> ->] _]%ret_inr).
  eexists outputs', args, _, s11. split; [exact Hcall|].
  split; [reflexivity|]. split; [reflexivity|].
  intros Hflat. rewrite Hflat in Hpost, H.
  apply _postprocess_flat_outputs_split in Hpost
    as (vals & ops' & noop & Hitems & Hvals & _ & Hlen).
  exists vals, ops'. split; [done|]. split; [done|].
  destruct ts as [|t0 ts0].
  - destruct vals; [|done].
    apply bind_inr in H as (op & s14 & _ & [-> _]%ret_inr). by exists op.
  - destruct vals as [|v vals]; [done|].
    apply bind_inr in H as (ts1 & s14 & Hcluster & H).
    apply mapM_length in Hcluster.
    apply bind_inr in H as (ts2 & s15 & Hid & H).
    apply with_control_dependencies_inr in Hid as (s16 & Hid).
    apply mapM_length in Hid. cbn [negb] in H.
    apply ret_inr in H as [-> _]. exists ts2. split; [done|].
    unfold enumerate in *.
    rewrite Hid, length_zip, length_seq, Nat.min_id, Hcluster.
    by rewrite length_zip, length_seq, Nat.min_id, Hlen.
Qed.

Lemma _compile_internal_returns_witness :
  ∃ r s' outputs args s0 s1,
    _compile_internal constant_computation PyNone example_state_outside
    = (inr r, s')
    ∧ constant_computation args s0 = (inr outputs, s1)
    ∧ st_use_resource s0 = true
    ∧ st_skip_summary s0 = SkipAlways.
Proof.
  assert (H : ∃ r s',
            _compile_internal constant_computation PyNone
              example_state_outside = (inr r, s')).
  { eexists _, _. vm_compute. reflexivity. }
  destruct H as (r & s' & H).
  destruct (_compile_internal_returns _ _ _ _ _ H)
    as (outputs & args & s0 & s1 & H1 & H2 & H3 & _).
  exists r, s', outputs, args, s0, s1.
  exact (conj H (conj H1 (conj H2 H3))).
Defined.

End Returned.

(** ** Nesting *)

Section NoNesting.

(** X8: Compile contexts do not nest: with a compile context around the
    receiver, [AddOp] never completes. *)
Theorem AddOp_refuses_nesting
    (op : string) (self c : XLACompileContext)
    (outer : list XLACompileContext) (s : State) :
  st_context s = self :: c :: outer →
  ∃ e s', AddOp op s = (inl e, s').
Proof.
  intros Hctx. destruct (AddOp op s) as [[e|[]] s'] eqn:E; [by eexists _, _|].
  by apply (AddOp_nested_fails _ _ _ _ _ _ _ Hctx) in E.
Qed.

Lemma AddOp_refuses_nesting_witness :
  ∃ e s',
    AddOp "x"
      (set_st_context
         (λ chain, mkContext 1 "cluster_1" "cluster_1/pivot" [] ∅ ∅ :: chain)
         example_state)
    = (inl e, s').
Proof.
  exact (AddOp_refuses_nesting "x"
           (mkContext 1 "cluster_1" "cluster_1/pivot" [] ∅ ∅) cluster []
           (set_st_context
              (λ chain,
                 mkContext 1 "cluster_1" "cluster_1/pivot" [] ∅ ∅ :: chain)
              example_state)
           eq_refl).
Defined.

End NoNesting.
